(** * usfm2osis: a shallow embedding of [usfm2osis/convert.py] and
    [usfm2osis/sort.py], and the properties of the converter proved on it.

    Python text is a sequence of Unicode code points, modelled as [list N].
    The regular expressions of the converter are kept as pattern strings and
    run by a backtracking matcher that follows the order in which Python's
    [re] module explores alternatives (greedy and lazy repetition, groups,
    look-ahead, word boundaries).

    Conventions of the model.  A function that can raise returns an
    [option], with [None] for the exception.  The classes [\s], [\d] and
    [\w], [isdigit] and [lower] are those of ASCII text.  Integers and lists
    are unbounded.  The attribute that [key_supplied] keeps on the function
    object is passed as explicit state.  The tables of [bookdata.py] are
    variables of the sections that use them. *)

From Stdlib Require Import String Ascii.
From Stdlib Require Import List NArith Arith Lia Bool.
From Stdlib Require Import Permutation Sorted DecimalN DecimalPos.
Import ListNotations.

(** ** Text *)

Definition text := list N.

Module Lit.

(** Python source literals are written here with the two quote characters
    exchanged: the Python literal ['<div type="book">'] is written
    ["<div type='book'>"].  [raw] is a raw literal [r'...']; [py] is an
    ordinary literal, whose escapes [\n], [\\] and [\uXXXX] are resolved
    (an unknown escape keeps its backslash, as in Python). *)

Fixpoint raw (s : string) : text :=
  match s with
  | EmptyString => []
  | String a s' =>
      let n := N_of_ascii a in
      (if N.eqb n 39 then 34%N else n) :: raw s'
  end.

Definition hexval (a : N) : N :=
  if (N.leb 48 a && N.leb a 57)%bool then (a - 48)%N
  else if (N.leb 65 a && N.leb a 70)%bool then (a - 55)%N
  else if (N.leb 97 a && N.leb a 102)%bool then (a - 87)%N
  else 0%N.

Definition hex4 (a b c d : N) : N :=
  (((hexval a * 16 + hexval b) * 16 + hexval c) * 16 + hexval d)%N.

Fixpoint unescape (t : text) : text :=
  match t with
  | [] => []
  | c :: t1 =>
      if N.eqb c 92 then
        match t1 with
        | [] => [c]
        | e :: t2 =>
            if N.eqb e 110 then 10%N :: unescape t2
            else if N.eqb e 114 then 13%N :: unescape t2
            else if N.eqb e 92 then 92%N :: unescape t2
            else if N.eqb e 117 then
              match t2 with
              | a :: b :: c' :: d :: t3 => hex4 a b c' d :: unescape t3
              | _ => c :: unescape t1
              end
            else c :: unescape t1
        end
      else c :: unescape t1
  end.

Definition py (s : string) : text := unescape (raw s).

End Lit.

Module Str.

(** The methods of Python's [str] that the converter uses. *)

Fixpoint starts_with (p s : text) : bool :=
  match p, s with
  | [], _ => true
  | _ :: _, [] => false
  | a :: p', b :: s' => N.eqb a b && starts_with p' s'
  end.

(** [p in s] *)
Fixpoint contains (p s : text) : bool :=
  starts_with p s ||
  match s with
  | [] => false
  | _ :: s' => contains p s'
  end.

(** [s.replace(old, new)] for a non-empty [old]: the occurrences of [old]
    are found from left to right and do not overlap; [skip] counts the
    characters of the occurrence being replaced that are still to be
    dropped. *)
Fixpoint replace_go (old new : text) (skip : nat) (s : text) : text :=
  match s with
  | [] => []
  | c :: s' =>
      match skip with
      | S k => replace_go old new k s'
      | O =>
          if starts_with old s
          then new ++ replace_go old new (length old - 1) s'
          else c :: replace_go old new 0 s'
      end
  end.

Definition replace (old new s : text) : text := replace_go old new 0 s.

(** [s.split(sep)] for a separator of one character. *)
Fixpoint split (sep : N) (s : text) : list text :=
  match s with
  | [] => [[]]
  | c :: s' =>
      if N.eqb c sep then [] :: split sep s'
      else match split sep s' with
           | h :: t => (c :: h) :: t
           | [] => [[c]]
           end
  end.

(** [sep.join(l)] *)
Fixpoint join (sep : text) (l : list text) : text :=
  match l with
  | [] => []
  | [x] => x
  | x :: l' => x ++ sep ++ join sep l'
  end.

(** [c.lower()], [c.isdigit()] and [int(c)] on the ASCII range; the code
    points above U+007F are left as they are and are no digits. *)
Definition lower_char (c : N) : N :=
  if (N.leb 65 c && N.leb c 90)%bool then (c + 32)%N else c.

Definition lower (s : text) : text := map lower_char s.


Definition digit_value (c : N) : N := (c - 48)%N.

(** [int(s)] for a string of decimal digits and [str(n)] for a natural
    number. *)
Definition int (s : text) : N :=
  fold_left (fun acc c => (acc * 10 + digit_value c)%N) s 0%N.

Fixpoint digits_of_uint (d : Decimal.uint) : text :=
  match d with
  | Decimal.Nil => []
  | Decimal.D0 d' => 48%N :: digits_of_uint d'
  | Decimal.D1 d' => 49%N :: digits_of_uint d'
  | Decimal.D2 d' => 50%N :: digits_of_uint d'
  | Decimal.D3 d' => 51%N :: digits_of_uint d'
  | Decimal.D4 d' => 52%N :: digits_of_uint d'
  | Decimal.D5 d' => 53%N :: digits_of_uint d'
  | Decimal.D6 d' => 54%N :: digits_of_uint d'
  | Decimal.D7 d' => 55%N :: digits_of_uint d'
  | Decimal.D8 d' => 56%N :: digits_of_uint d'
  | Decimal.D9 d' => 57%N :: digits_of_uint d'
  end.

Definition str (n : N) : text := digits_of_uint (N.to_uint n).

Definition slice (s : text) (a b : nat) : text := firstn (b - a) (skipn a s).

Definition eqb (a b : text) : bool :=
  if list_eq_dec N.eq_dec a b then true else false.

(** [d[key]] for a dict with text keys; [None] is the [KeyError]
    ([key in d] is [dict_get d key <> None]). *)
Fixpoint dict_get (d : list (text * text)) (key : text) : option text :=
  match d with
  | [] => None
  | (k, v) :: d' => if eqb k key then Some v else dict_get d' key
  end.

(** [l.index(x)]; [None] is the [ValueError]. *)
Fixpoint index (l : list text) (x : text) : option nat :=
  match l with
  | [] => None
  | y :: l' => if eqb y x then Some O else option_map S (index l' x)
  end.

End Str.

(** ** Regular expressions *)

Module Re.

(** The character classes [\s], [\d] and [\w] are the ASCII ones, which is
    what the patterns of the converter mean under Python 2 (no [re.UNICODE]
    flag is given anywhere). *)
Definition is_space (c : N) : bool :=
  N.eqb c 32 || (N.leb 9 c && N.leb c 13).

Definition is_digit (c : N) : bool := N.leb 48 c && N.leb c 57.

Definition is_word (c : N) : bool :=
  is_digit c || (N.leb 65 c && N.leb c 90) || (N.leb 97 c && N.leb c 122)
  || N.eqb c 95.

Inductive citem :=
| One (c : N)
| Range (lo hi : N)
| Space
| Digit
| Word.

Definition in_item (c : N) (i : citem) : bool :=
  match i with
  | One d => N.eqb c d
  | Range lo hi => N.leb lo c && N.leb c hi
  | Space => is_space c
  | Digit => is_digit c
  | Word => is_word c
  end.

Inductive regex :=
| Eps
| Chr (c : N)
| Any (dotall : bool)
| Cls (neg : bool) (items : list citem)
| Seq (a b : regex)
| Alt (a b : regex)
| Star (greedy : bool) (a : regex)
| Group (n : nat) (a : regex)
| Look (positive : bool) (a : regex)
| Bound
| Eol.

Definition in_cls (neg : bool) (items : list citem) (c : N) : bool :=
  xorb neg (existsb (in_item c) items).

(** *** Matching *)

Definition span := (nat * nat)%type.

(** A position in the subject: the number of characters before it, the
    character just before it (for [\b]), what follows, and the groups
    captured so far (latest first). *)
Record state := mk_state {
  pos : nat;
  prev : option N;
  rest : text;
  caps : list (nat * span)
}.

Definition advance (c : N) (r : text) (st : state) : state :=
  mk_state (S (pos st)) (Some c) r (caps st).

Definition cont := state -> option state.

Definition eat (p : N -> bool) (k : cont) : cont :=
  fun st =>
    match rest st with
    | c :: r => if p c then k (advance c r st) else None
    | [] => None
    end.

Definition orelse (x : option state) (y : unit -> option state) :=
  match x with
  | Some r => Some r
  | None => y tt
  end.

Definition word_before (st : state) : bool :=
  match prev st with Some c => is_word c | None => false end.

Definition word_after (st : state) : bool :=
  match rest st with c :: _ => is_word c | [] => false end.

Definition at_end (st : state) : bool :=
  match rest st with
  | [] => true
  | [c] => N.eqb c 10
  | _ => false
  end.

(** One more round of [a*]: [body] is the matcher of [a]; a round that
    consumes nothing ends the repetition.  A greedy star tries a further
    round before it tries to go on, a lazy one the other way round. *)
Fixpoint star_loop (greedy : bool) (body : cont -> cont) (fuel : nat)
         (k : cont) (st : state) : option state :=
  match fuel with
  | O => k st
  | S f =>
      let again (_ : unit) :=
        body (fun st' =>
                if pos st <? pos st' then star_loop greedy body f k st'
                else None) st in
      if greedy then orelse (again tt) (fun _ => k st)
      else orelse (k st) again
  end.

Fixpoint run (r : regex) (k : cont) (st : state) : option state :=
  match r with
  | Eps => k st
  | Chr c => eat (N.eqb c) k st
  | Any dotall => eat (fun c => dotall || negb (N.eqb c 10)) k st
  | Cls neg items => eat (in_cls neg items) k st
  | Seq a b => run a (run b k) st
  | Alt a b => orelse (run a k st) (fun _ => run b k st)
  | Star greedy a => star_loop greedy (run a) (length (rest st)) k st
  | Group n a =>
      run a (fun st' =>
               k (mk_state (pos st') (prev st') (rest st')
                           ((n, (pos st, pos st')) :: caps st'))) st
  | Look positive a =>
      match run a Some st with
      | Some st' =>
          if positive
          then k (mk_state (pos st) (prev st) (rest st) (caps st'))
          else None
      | None => if positive then None else k st
      end
  | Bound => if xorb (word_before st) (word_after st) then k st else None
  | Eol => if at_end st then k st else None
  end.

(** [pattern.match(subject, pos)] *)
Definition match_at (r : regex) (p : nat) (pv : option N) (s : text)
  : option state :=
  run r Some (mk_state p pv s []).

(** *** Match objects *)

Record mobj := mk_mobj {
  m_lo : nat;
  m_hi : nat;
  m_caps : list (nat * span)
}.

Fixpoint lookup (n : nat) (l : list (nat * span)) : option span :=
  match l with
  | [] => None
  | (i, sp) :: l' => if Nat.eqb i n then Some sp else lookup n l'
  end.

(** [m.group(n)]: [None] for a group that took no part in the match. *)
Definition group (s : text) (m : mobj) (n : nat) : option text :=
  match n with
  | O => Some (Str.slice s (m_lo m) (m_hi m))
  | _ =>
      match lookup n (m_caps m) with
      | Some (a, b) => Some (Str.slice s a b)
      | None => None
      end
  end.

(** *** Scanning a subject

    The subject is read from left to right; at each position that is not
    inside the previous match the pattern is tried.  No pattern of the
    converter matches the empty string; there the scan moves on by one
    character. *)
Inductive piece :=
| Keep (c : N)
| Hit (m : mobj).

Fixpoint scan_go (r : regex) (skip : nat) (p : nat) (pv : option N)
         (s : text) : list piece :=
  match skip with
  | S k =>
      match s with
      | [] => []
      | c :: s' => scan_go r k (S p) (Some c) s'
      end
  | O =>
      match match_at r p pv s with
      | Some st' =>
          Hit (mk_mobj p (pos st') (caps st')) ::
          match s with
          | [] => []
          | c :: s' =>
              if pos st' <=? p then Keep c :: scan_go r 0 (S p) (Some c) s'
              else scan_go r (pos st' - p - 1) (S p) (Some c) s'
          end
      | None =>
          match s with
          | [] => []
          | c :: s' => Keep c :: scan_go r 0 (S p) (Some c) s'
          end
      end
  end.

Definition scan (r : regex) (s : text) : list piece := scan_go r 0 0 None s.

Definition groups := nat -> option text.

(** [re.sub(pattern, repl, s)] with a function [repl] that cannot fail. *)
Definition sub (r : regex) (repl : groups -> text) (s : text) : text :=
  flat_map (fun p => match p with
                     | Keep c => [c]
                     | Hit m => repl (group s m)
                     end) (scan r s).

(** [re.sub] with a function that may raise: [None] is the exception. *)
Fixpoint render (s : text) (repl : groups -> option text)
         (l : list piece) : option text :=
  match l with
  | [] => Some []
  | Keep c :: l' => option_map (cons c) (render s repl l')
  | Hit m :: l' =>
      match repl (group s m) with
      | Some t => option_map (app t) (render s repl l')
      | None => None
      end
  end.

Definition sub_partial (r : regex) (repl : groups -> option text)
           (s : text) : option text :=
  render s repl (scan r s).

Fixpoint hits (l : list piece) : list mobj :=
  match l with
  | [] => []
  | Keep _ :: l' => hits l'
  | Hit m :: l' => m :: hits l'
  end.

(** [re.search(pattern, s)] *)
Definition search (r : regex) (s : text) : option groups :=
  match hits (scan r s) with
  | m :: _ => Some (group s m)
  | [] => None
  end.

(** [re.findall(pattern, s)] for a pattern without groups. *)
Definition findall (r : regex) (s : text) : list text :=
  map (fun m => Str.slice s (m_lo m) (m_hi m)) (hits (scan r s)).

(** *** Replacement templates: [\1] ... [\9] stand for the groups, [\\]
    for a backslash and [\n] for a line end.  No template of the converter
    names a group that can stay out of a match; such a group would give
    nothing here. *)
Fixpoint expand (t : text) (g : groups) : text :=
  match t with
  | [] => []
  | c :: t1 =>
      if N.eqb c 92 then
        match t1 with
        | d :: t2 =>
            if is_digit d then
              match g (N.to_nat (d - 48)) with
              | Some x => x ++ expand t2 g
              | None => expand t2 g
              end
            else if N.eqb d 92 then 92%N :: expand t2 g
            else if N.eqb d 110 then 10%N :: expand t2 g
            else c :: expand t1 g
        | [] => [c]
        end
      else c :: expand t1 g
  end.

(** *** Patterns

    The syntax of the patterns the converter uses: literals, [.], classes
    [[...]] and [[^...]], the escapes [\s \d \w \b] and escaped
    punctuation, groups, [(?:...)], the look-aheads [(?=...)] and
    [(?!...)], [|], [$], and the repetitions [* + ? {n}] with their lazy
    forms.  [a+] is read as [aa*], [a?] as [a|] and [a??] as [|a]. *)

Definition seq (a b : regex) : regex :=
  match a, b with
  | Eps, _ => b
  | _, Eps => a
  | _, _ => Seq a b
  end.

Definition esc_item (e : N) : citem :=
  if N.eqb e 115 then Space
  else if N.eqb e 100 then Digit
  else if N.eqb e 119 then Word
  else if N.eqb e 110 then One 10
  else One e.

Fixpoint p_class (s : text) (acc : list citem)
  : option (list citem * text) :=
  match s with
  | [] => None
  | c :: s1 =>
      if N.eqb c 93 then Some (rev acc, s1)
      else if N.eqb c 92 then
        match s1 with
        | e :: s2 => p_class s2 (esc_item e :: acc)
        | [] => None
        end
      else
        match s1 with
        | d :: hi :: s3 =>
            if N.eqb d 45 && negb (N.eqb hi 93)
            then p_class s3 (Range c hi :: acc)
            else p_class s1 (One c :: acc)
        | _ => p_class s1 (One c :: acc)
        end
  end.

Fixpoint copies (n : nat) (a : regex) : regex :=
  match n with
  | O => Eps
  | S n' => seq a (copies n' a)
  end.

(** The repetition that follows an atom, if any. *)
Definition quant (a : regex) (s : text) : regex * text :=
  match s with
  | c :: s1 =>
      let lazy := match s1 with q :: _ => N.eqb q 63 | [] => false end in
      let s2 := if lazy then tl s1 else s1 in
      if N.eqb c 42 then (Star (negb lazy) a, s2)
      else if N.eqb c 43 then (Seq a (Star (negb lazy) a), s2)
      else if N.eqb c 63 then
        (if lazy then Alt Eps a else Alt a Eps, s2)
      else if N.eqb c 123 then
        match s1 with
        | d :: e :: s3 =>
            if is_digit d && N.eqb e 125
            then (copies (N.to_nat (d - 48)) a, s3)
            else (a, s)
        | _ => (a, s)
        end
      else (a, s)
  | [] => (a, s)
  end.

Definition closed (x : option (regex * nat * text)) (f : regex -> regex)
  : option (regex * nat * text) :=
  match x with
  | Some (a, g, c :: s) => if N.eqb c 41 then Some (f a, g, s) else None
  | _ => None
  end.

Fixpoint p_alt (fuel : nat) (dotall : bool) (g : nat) (s : text)
         {struct fuel} : option (regex * nat * text) :=
  match fuel with
  | O => None
  | S f =>
      match p_seq f dotall g s with
      | Some (a, g1, s1) =>
          match s1 with
          | c :: s2 =>
              if N.eqb c 124 then
                match p_alt f dotall g1 s2 with
                | Some (b, g2, s3) => Some (Alt a b, g2, s3)
                | None => None
                end
              else Some (a, g1, s1)
          | [] => Some (a, g1, s1)
          end
      | None => None
      end
  end
with p_seq (fuel : nat) (dotall : bool) (g : nat) (s : text)
           {struct fuel} : option (regex * nat * text) :=
  match fuel with
  | O => None
  | S f =>
      match s with
      | [] => Some (Eps, g, s)
      | c :: _ =>
          if N.eqb c 124 || N.eqb c 41 then Some (Eps, g, s)
          else
            match p_atom f dotall g s with
            | Some (a, g1, s1) =>
                let (a', s2) := quant a s1 in
                match p_seq f dotall g1 s2 with
                | Some (b, g2, s3) => Some (seq a' b, g2, s3)
                | None => None
                end
            | None => None
            end
      end
  end
with p_atom (fuel : nat) (dotall : bool) (g : nat) (s : text)
            {struct fuel} : option (regex * nat * text) :=
  match fuel with
  | O => None
  | S f =>
      match s with
      | [] => None
      | c :: s1 =>
          if N.eqb c 40 then
            match s1 with
            | q :: k :: s3 =>
                if N.eqb q 63 then
                  if N.eqb k 61
                  then closed (p_alt f dotall g s3) (Look true)
                  else if N.eqb k 33
                  then closed (p_alt f dotall g s3) (Look false)
                  else if N.eqb k 58
                  then closed (p_alt f dotall g s3) (fun a => a)
                  else None
                else closed (p_alt f dotall (S g) s1) (Group g)
            | _ => closed (p_alt f dotall (S g) s1) (Group g)
            end
          else if N.eqb c 91 then
            match s1 with
            | n :: s2 =>
                if N.eqb n 94 then
                  match p_class s2 [] with
                  | Some (items, s3) => Some (Cls true items, g, s3)
                  | None => None
                  end
                else
                  match p_class s1 [] with
                  | Some (items, s3) => Some (Cls false items, g, s3)
                  | None => None
                  end
            | [] => None
            end
          else if N.eqb c 92 then
            match s1 with
            | e :: s2 =>
                if N.eqb e 98 then Some (Bound, g, s2)
                else if N.eqb e 115 || N.eqb e 100 || N.eqb e 119
                then Some (Cls false [esc_item e], g, s2)
                else if N.eqb e 110 then Some (Chr 10, g, s2)
                else if is_word e then None
                else Some (Chr e, g, s2)
            | [] => None
            end
          else if N.eqb c 46 then Some (Any dotall, g, s1)
          else if N.eqb c 36 then Some (Eol, g, s1)
          else if N.eqb c 42 || N.eqb c 43 || N.eqb c 63 then None
          else Some (Chr c, g, s1)
      end
  end.

Definition parse (dotall : bool) (p : text) : option regex :=
  match p_alt (4 * length p + 4) dotall 1 p with
  | Some (r, _, []) => Some r
  | _ => None
  end.

(** [re.compile(p)] and [re.compile(p, re.DOTALL)]; a pattern outside the
    syntax above compiles to one that matches nothing (none of the
    converter's does, see [patterns_parse]). *)
Definition never : regex := Cls false [].

Definition rx (p : text) : regex :=
  match parse false p with Some r => r | None => never end.

Definition rx_dotall (p : text) : regex :=
  match parse true p with Some r => r | None => never end.

End Re.

(** ** usfm2osis/convert.py *)

Module Convert.

Import Lit.

(** [x <- e ;; k]: [e] may raise ([None]); then so does the whole. *)
Definition bind {A B : Type} (x : option A) (f : A -> option B) : option B :=
  match x with
  | Some a => f a
  | None => None
  end.

Notation "x <- e ;; k" := (bind e (fun x => k))
  (at level 61, e at next level, right associativity).

(** [m.group(n)] for a group that takes part in every match of its
    pattern. *)
Definition grp (m : Re.groups) (n : nat) : text :=
  match m n with
  | Some x => x
  | None => []
  end.

(** *** Chapters and verses *)

Definition re_c : Re.regex := Eval vm_compute in
  Re.rx_dotall (raw "\\c\s+([^\s]+)\b(.+?)(?=(\\c\s+|</div type='book'))").

Definition re_cp : Re.regex := Eval vm_compute in
  Re.rx (raw "\\cp\s+(.+?)(?=(\\|\s))").
Definition re_cp_dotall : Re.regex := Eval vm_compute in
  Re.rx_dotall (raw "\\cp\s+(.+?)(?=(\\|\s))").
Definition re_book_id : Re.regex := Eval vm_compute in
  Re.rx (raw "'\$BOOK\$\.([^'\.]+)'").
Definition re_ca : Re.regex := Eval vm_compute in
  Re.rx (raw "\\ca\s+(.+?)\\ca\*").
Definition re_ca_dotall : Re.regex := Eval vm_compute in
  Re.rx_dotall (raw "\\ca\s+(.+?)\\ca\*").
Definition re_book_osisID : Re.regex := Eval vm_compute in
  Re.rx (raw "(osisID='\$BOOK\$\.[^'\.]+)'").


Definition re_chapter_span : Re.regex := Eval vm_compute in
  Re.rx_dotall (raw "(<chapter [^<]+sID[^<]+/>.+?<chapter eID[^>]+/>)").
Definition re_cl : Re.regex := Eval vm_compute in
  Re.rx (raw "\\cl\s+(.+)").
Definition re_cd : Re.regex := Eval vm_compute in
  Re.rx (raw "\\cd\b\s+(.+)").
Definition re_v : Re.regex := Eval vm_compute in
  Re.rx_dotall
    (raw "\\v\s+([^\s]+)\b\s*(.+?)(?=(\\v\s+|</div type='book'|<chapter eID))").

Definition re_vp : Re.regex := Eval vm_compute in
  Re.rx (raw "\\vp\s+(.+?)\\vp\*").
Definition re_vp_dotall : Re.regex := Eval vm_compute in
  Re.rx_dotall (raw "\\vp\s+(.+?)\\vp\*").
Definition re_verse_id : Re.regex := Eval vm_compute in
  Re.rx (raw "'\$BOOK\$\.\$CHAP\$\.([^'\.]+)'").
Definition re_va : Re.regex := Eval vm_compute in
  Re.rx (raw "\\va\s+(.+?)\\va\*").
Definition re_va_dotall : Re.regex := Eval vm_compute in
  Re.rx_dotall (raw "\\va\s+(.+?)\\va\*").
Definition re_verse_osisID : Re.regex := Eval vm_compute in
  Re.rx (raw "(osisID='\$BOOK\$\.\$CHAP\$\.[^'\.]+)'").


Definition re_verse_span : Re.regex := Eval vm_compute in
  Re.rx_dotall (raw "(<verse [^<]+sID[^<]+/>.+?<verse eID[^>]+/>)").


(** *** Poetry *)

Definition re_qa : Re.regex := Eval vm_compute in
  Re.rx (raw "\\qa\s+(.+)").
Definition re_qac : Re.regex := Eval vm_compute in
  Re.rx_dotall (raw "\\qac\s+(.+?)\\qac\*").
Definition re_qs : Re.regex := Eval vm_compute in
  Re.rx_dotall (raw "\\qs\b\s(.+?)\\qs\*").
Definition re_q : Re.regex := Eval vm_compute in
  Re.rx_dotall
    (raw "\\q\b\s*(.*?)(?=([" ++
     py "\uFDD0\uFDD1\uFDD3\uFDD4\uFDD5\uFDD6\uFDD7\uFDD8\uFDD9\uFDDA\uFDDB\uFDDC\uFDDD\uFDDE" ++
     raw "]|\\(q\d?|fig)\b|<(l|lb|title|list|/?div)\b))").
Definition re_q_level : Re.regex := Eval vm_compute in
  Re.rx_dotall
    (raw "\\q(\d)\b\s*(.*?)(?=([" ++
     py "\uFDD0\uFDD1\uFDD3\uFDD4\uFDD5\uFDD6\uFDD7\uFDD8\uFDD9\uFDDA\uFDDB\uFDDC\uFDDD\uFDDE" ++
     raw "]|\\(q\d?|fig)\b|<(l|lb|title|list|/?div)\b))").
Definition re_q_type : Re.regex := Eval vm_compute in
  Re.rx_dotall
    (raw "\\(qr|qc|qm\d)\b\s*(.*?)(?=([" ++
     py "\uFDD0\uFDD1\uFDD3\uFDD4\uFDD5\uFDD6\uFDD7\uFDD8\uFDD9\uFDDA\uFDDB\uFDDC\uFDDD\uFDDE" ++
     raw "]|\\(q\d?|fig)\b|<(l|lb|title|list|/?div)\b))").
Definition re_l : Re.regex := Eval vm_compute in
  Re.rx_dotall
    (py "(<l [^\uFDD0\uFDD1\uFDD3\uFDD4\uFDD5\uFDD6\uFDD7\uFDD8\uFDD9\uFDDA\uFDDB\uFDDC\uFDDD\uFDDE]+</l>)").
Definition re_lg : Re.regex := Eval vm_compute in
  Re.rx_dotall (py "(<lg>.+?</lg>)").



(** *** Spacing and breaks *)

Definition re_pb : Re.regex := Eval vm_compute in
  Re.rx_dotall (raw "\\pb\s*").


(** *** Footnotes *)

Definition re_fdc : Re.regex := Eval vm_compute in
  Re.rx (raw "\\fdc\b\s(.+?)\\fdc\b\*").
Definition re_fq : Re.regex := Eval vm_compute in
  Re.rx (raw "\\fq\b\s(.+?)(?=(\\f|" ++ py "\uFDDF))").
Definition re_fqa : Re.regex := Eval vm_compute in
  Re.rx (raw "\\fqa\b\s(.+?)(?=(\\f|" ++ py "\uFDDF))").
Definition re_ft : Re.regex := Eval vm_compute in
  Re.rx (raw "\\ft\s").
Definition re_fr : Re.regex := Eval vm_compute in
  Re.rx (raw "\\fr\b\s(.+?)(?=(\\f|" ++ py "\uFDDF))").
Definition re_fk : Re.regex := Eval vm_compute in
  Re.rx (raw "\\fk\b\s(.+?)(?=(\\f|" ++ py "\uFDDF))").
Definition re_fl : Re.regex := Eval vm_compute in
  Re.rx (raw "\\fl\b\s(.+?)(?=(\\f|" ++ py "\uFDDF))").
Definition re_fp : Re.regex := Eval vm_compute in
  Re.rx (raw "\\fp\b\s(.+?)(?=(\\fp|$))").
Definition re_note_p : Re.regex := Eval vm_compute in
  Re.rx (raw "(<note\b[^>]*?>)(.*?)<p>").
Definition re_fv : Re.regex := Eval vm_compute in
  Re.rx (raw "\\fv\b\s(.+?)(?=(\\f|" ++ py "\uFDDF))").
Definition re_f_close : Re.regex := Eval vm_compute in
  Re.rx (raw "\\f(q|qa|t|r|k|l|p|v)\*").

Definition process_note (note : text) : text :=
  let note := Str.replace (py "\n") (py " ") note in
  (* \fdc_refs...\fdc* *)
  let note :=
    Re.sub re_fdc (Re.expand (raw "<seg editions='dc'>\1</seg>")) note in
  (* \fq_ *)
  let note :=
    Re.sub re_fq
      (Re.expand (py "\uFDDF" ++ raw "<catchWord>\1</catchWord>")) note in
  (* \fqa_ *)
  let note :=
    Re.sub re_fqa
      (Re.expand (py "\uFDDF" ++ raw "<rdg type='alternate'>\1</rdg>"))
      note in
  (* \ft_ *)
  let note := Re.sub re_ft (Re.expand []) note in
  (* \fr_##SEP## *)
  let note :=
    Re.sub re_fr
      (Re.expand (py "\uFDDF" ++
                  raw "<reference type='annotateRef'>\1</reference>"))
      note in
  (* \fk_ *)
  let note :=
    Re.sub re_fk
      (Re.expand (py "\uFDDF" ++ raw "<catchWord>\1</catchWord>")) note in
  (* \fl_ *)
  let note :=
    Re.sub re_fl (Re.expand (py "\uFDDF" ++ raw "<label>\1</label>"))
           note in
  (* \fp_ *)
  let note := Re.sub re_fp (Re.expand (raw "<p>\1</p>")) note in
  let note := Re.sub re_note_p (Re.expand (raw "\1<p>\2</p><p>")) note in
  (* \fv_ *)
  let note :=
    Re.sub re_fv (Re.expand (py "\uFDDF" ++ raw "<hi type='super'>\1</hi>"))
           note in
  (* \fq*,\fqa*,\ft*,\fr*,\fk*,\fl*,\fp*,\fv* *)
  let note := Re.sub re_f_close (Re.expand []) note in
  Str.replace (py "\uFDDF") [] note.

Definition re_f : Re.regex := Eval vm_compute in
  Re.rx_dotall (raw "\\f\s+([^\s\\]+)?\s*(.+?)\s*\\f\*").
Definition re_fe : Re.regex := Eval vm_compute in
  Re.rx_dotall (raw "\\fe\s+([^\s\\]+?)\s*(.+?)\s*\\fe\*").
Definition re_note : Re.regex := Eval vm_compute in
  Re.rx_dotall (raw "(<note\b[^>]*?>.*?</note>)").
Definition re_fm : Re.regex := Eval vm_compute in
  Re.rx (raw "\\fm\b\s(.+?)\\fm\*").

(** The expression that builds the [n] attribute of a note from the
    caller, [m.group(1)]; adding [None] to a string raises. *)
Definition note_n (caller : option text) : option text :=
  match caller with
  | Some c =>
      if Str.eqb c (py "-") then Some (py " n=''")
      else if Str.eqb c (py "+") then Some []
      else Some (py " n='" ++ c ++ py "'")
  | None => None
  end.

Definition cvt_footnotes (osis : text) (relaxed_conformance : bool)
  : option text :=
  (* \f_+_...\f* *)
  osis <- Re.sub_partial re_f
            (fun m => n <- note_n (m 1) ;;
                      Some (py "<note" ++ n ++ py " placement='foot'>" ++
                            grp m 2 ++ py "\uFDDF</note>"))
            osis ;;
  (* \fe_+_...\fe* *)
  osis <- Re.sub_partial re_fe
            (fun m => n <- note_n (m 1) ;;
                      Some (py "<note" ++ n ++ py " placement='end'>" ++
                            grp m 2 ++ py "\uFDDF</note>"))
            osis ;;
  let osis := Re.sub re_note (fun m => process_note (grp m 1)) osis in
  (* \fm_...\fm* *)
  Some (Re.sub re_fm (Re.expand (raw "<hi type='super'>\1</hi>")) osis).

(** *** Cross references *)

Definition re_xot : Re.regex := Eval vm_compute in
  Re.rx (raw "\\xot\b\s(.+?)\\xot\b\*").
Definition re_xnt : Re.regex := Eval vm_compute in
  Re.rx (raw "\\xnt\b\s(.+?)\\xnt\b\*").
Definition re_xdc : Re.regex := Eval vm_compute in
  Re.rx (raw "\\xdc\b\s(.+?)\\xdc\b\*").
Definition re_xq : Re.regex := Eval vm_compute in
  Re.rx (raw "\\xq\b\s(.+?)(?=(\\x|" ++ py "\uFDDF))").
Definition re_xo : Re.regex := Eval vm_compute in
  Re.rx (raw "\\xo\b\s(.+?)(?=(\\x|" ++ py "\uFDDF))").
Definition re_xk : Re.regex := Eval vm_compute in
  Re.rx (raw "\\xk\b\s(.+?)(?=(\\x|" ++ py "\uFDDF))").
Definition re_xt : Re.regex := Eval vm_compute in
  Re.rx (raw "\\xt\b\s(.+?)(?=(\\x|" ++ py "\uFDDF))").
Definition re_xtSee : Re.regex := Eval vm_compute in
  Re.rx (raw "\\xtSee\b\s(.+?)\\xtSee\b\*").
Definition re_xtSeeAlso : Re.regex := Eval vm_compute in
  Re.rx (raw "\\xtSeeAlso\b\s(.+?)\\xtSeeAlso\b\*").
Definition re_x_close : Re.regex := Eval vm_compute in
  Re.rx (raw "\\x(q|t|o|k)\*").

Definition process_xref (relaxed_conformance : bool) (note : text) : text :=
  let note := Str.replace (py "\n") (py " ") note in
  (* \xot_refs...\xot* *)
  let note :=
    Re.sub re_xot (Re.expand (py "\uFDDF" ++ raw "<seg editions='ot'>\1</seg>"))
           note in
  (* \xnt_refs...\xnt* *)
  let note :=
    Re.sub re_xnt (Re.expand (py "\uFDDF" ++ raw "<seg editions='nt'>\1</seg>"))
           note in
  (* \xdc_refs...\xdc* *)
  let note :=
    Re.sub re_xdc (Re.expand (py "\uFDDF" ++ raw "<seg editions='dc'>\1</seg>"))
           note in
  (* \xq_ *)
  let note :=
    Re.sub re_xq (Re.expand (py "\uFDDF" ++ raw "<catchWord>\1</catchWord>"))
           note in
  (* \xo_##SEP## *)
  let note :=
    Re.sub re_xo
      (Re.expand (py "\uFDDF" ++
                  raw "<reference type='annotateRef'>\1</reference>"))
      note in
  (* \xk_ *)
  let note :=
    Re.sub re_xk (Re.expand (py "\uFDDF" ++ raw "<catchWord>\1</catchWord>"))
           note in
  (* \xt_ *)
  let note :=
    Re.sub re_xt (Re.expand (py "\uFDDF" ++ raw "<reference>\1</reference>"))
           note in
  let note :=
    if relaxed_conformance then
      (* \xtSee..\xtSee* *)
      let note :=
        Re.sub re_xtSee
          (Re.expand (py "\uFDDF" ++
                      raw "<reference osisRef='\1'>See: \1</reference>"))
          note in
      (* \xtSeeAlso...\xtSeeAlso *)
      Re.sub re_xtSeeAlso
        (Re.expand (py "\uFDDF" ++
                    raw "<reference osisRef='\1'>See also: \1</reference>"))
        note
    else note in
  (* \xq*,\xt*,\xo*,\xk* *)
  let note := Re.sub re_x_close (Re.expand []) note in
  Str.replace (py "\uFDDF") [] note.

Definition re_x : Re.regex := Eval vm_compute in
  Re.rx_dotall (raw "\\x\s+([^\s]+?)\s+(.+?)\s*\\x\*").
Definition re_xref_note : Re.regex := Eval vm_compute in
  Re.rx_dotall (raw "(<note [^>]*?type='crossReference'[^>]*>.*?</note>)").

Definition cvt_cross_references (osis : text) (relaxed_conformance : bool)
  : option text :=
  (* \x_+_...\x* *)
  osis <- Re.sub_partial re_x
            (fun m => n <- note_n (m 1) ;;
                      Some (py "<note" ++ n ++
                            py " type='crossReference'>" ++
                            grp m 2 ++ py "\uFDDF</note>"))
            osis ;;
  Some (Re.sub re_xref_note
               (fun m => process_xref relaxed_conformance (grp m 1)) osis).

(** *** Preprocessing *)

Definition re_line_start : Re.regex := Eval vm_compute in
  Re.rx (py "\n\s*([^\\\s])").
Definition re_line_end : Re.regex := Eval vm_compute in
  Re.rx (py "\s+\n").

Definition cvt_preprocess (osis : text) (relaxed_conformance : bool)
  : text :=
  (* lines should never start with non-tags *)
  let osis := Re.sub re_line_start (Re.expand (raw " \1")) osis in
  (* convert CR to LF *)
  let osis := Str.replace (py "\r") (py "\n") osis in
  (* lines should never end with whitespace (other than \n) *)
  let osis := Re.sub re_line_end (Re.expand (py "\n")) osis in
  (* replace with XML entities, as necessary *)
  let osis := Str.replace (py "&") (py "&amp;") osis in
  let osis := Str.replace (py "<") (py "&lt;") osis in
  Str.replace (py ">") (py "&gt;") osis.

(** *** Special text *)

Definition re_add : Re.regex := Eval vm_compute in
  Re.rx_dotall (raw "\\add\s+(.+?)\\add\*").
Definition re_wj : Re.regex := Eval vm_compute in
  Re.rx_dotall (raw "\\wj\s+(.+?)\\wj\*").
Definition re_nd : Re.regex := Eval vm_compute in
  Re.rx_dotall (raw "\\nd\s+(.+?)\\nd\*").
Definition re_pn : Re.regex := Eval vm_compute in
  Re.rx_dotall (raw "\\pn\s+(.+?)\\pn\*").
Definition re_qt : Re.regex := Eval vm_compute in
  Re.rx_dotall (raw "\\qt\s+(.+?)\\qt\*").
Definition re_sig : Re.regex := Eval vm_compute in
  Re.rx_dotall (raw "\\sig\s+(.+?)\\sig\*").
Definition re_ord : Re.regex := Eval vm_compute in
  Re.rx_dotall (raw "\\ord\s+(.+?)\\ord\*").
Definition re_tl : Re.regex := Eval vm_compute in
  Re.rx_dotall (raw "\\tl\s+(.+?)\\tl\*").
Definition re_bk : Re.regex := Eval vm_compute in
  Re.rx_dotall (raw "\\bk\s+(.+?)\\bk\*").
Definition re_k : Re.regex := Eval vm_compute in
  Re.rx_dotall (raw "\\k\s+(.+?)\\k\*").
Definition re_lit : Re.regex := Eval vm_compute in
  Re.rx_dotall
    (raw "\\lit\s+(.*?)(?=(\\(i?m|i?p|nb|lit|cls|tr)\b|<(chapter eID|/?div|p|closer)\b))").
Definition re_dc : Re.regex := Eval vm_compute in
  Re.rx_dotall (raw "\\dc\b\s*(.+?)\\dc\*").
Definition re_sls : Re.regex := Eval vm_compute in
  Re.rx_dotall (raw "\\sls\b\s*(.+?)\\sls\*").
Definition re_addpn : Re.regex := Eval vm_compute in
  Re.rx_dotall (raw "\\addpn\s+(.+?)\\addpn\*").
Definition re_k1 : Re.regex := Eval vm_compute in
  Re.rx_dotall (raw "\\k1\s+(.+?)\\k1\*").
Definition re_k2 : Re.regex := Eval vm_compute in
  Re.rx_dotall (raw "\\k2\s+(.+?)\\k2\*").
Definition re_k3 : Re.regex := Eval vm_compute in
  Re.rx_dotall (raw "\\k3\s+(.+?)\\k3\*").
Definition re_k4 : Re.regex := Eval vm_compute in
  Re.rx_dotall (raw "\\k4\s+(.+?)\\k4\*").
Definition re_k5 : Re.regex := Eval vm_compute in
  Re.rx_dotall (raw "\\k5\s+(.+?)\\k5\*").

Definition cvt_special_text (osis : text) (relaxed_conformance : bool)
  : text :=
  (* \add_...\add* *)
  let osis :=
    Re.sub re_add
      (Re.expand (raw "<transChange type='added'>\1</transChange>")) osis in
  (* \wj_...\wj* *)
  let osis :=
    Re.sub re_wj (Re.expand (raw "<q who='Jesus' marker=''>\1</q>")) osis in
  (* \nd_...\nd* *)
  let osis :=
    Re.sub re_nd (Re.expand (raw "<divineName>\1</divineName>")) osis in
  (* \pn_...\pn* *)
  let osis := Re.sub re_pn (Re.expand (raw "<name>\1</name>")) osis in
  (* \qt_...\qt* *)
  let osis :=
    Re.sub re_qt (Re.expand (raw "<seg type='otPassage'>\1</seg>")) osis in
  (* \sig_...\sig* *)
  let osis := Re.sub re_sig (Re.expand (raw "<signed>\1</signed>")) osis in
  (* \ord_...\ord* *)
  let osis :=
    Re.sub re_ord (Re.expand (raw "<hi type='super'>\1</hi>")) osis in
  (* \tl_...\tl* *)
  let osis := Re.sub re_tl (Re.expand (raw "<foreign>\1</foreign>")) osis in
  (* \bk_...\bk* *)
  let osis :=
    Re.sub re_bk (Re.expand (raw "<name type='x-workTitle'>\1</name>"))
           osis in
  (* \k_...\k* *)
  let osis :=
    Re.sub re_k (Re.expand (raw "<seg type='keyword'>\1</seg>")) osis in
  (* \lit *)
  let osis :=
    Re.sub re_lit
      (fun m => py "\uFDD3<p type='x-liturgical'>\n" ++ grp m 1 ++
                py "\uFDD3</p>\n")
      osis in
  (* \dc_...\dc* *)
  let osis :=
    Re.sub re_dc
      (Re.expand (raw "<transChange type='added' editions='dc'>\1</transChange>"))
      osis in
  (* \sls_...\sls* *)
  let osis := Re.sub re_sls (Re.expand (raw "<foreign>/1</foreign>")) osis in
  if relaxed_conformance then
    (* \addpn...\addpn* *)
    let osis :=
      Re.sub re_addpn (Re.expand (raw "<hi type='x-dotUnderline'>\1</hi>"))
             osis in
    (* \k# *)
    let osis :=
      Re.sub re_k1 (Re.expand (raw "<seg type='keyword' n='1'>\1</seg>"))
             osis in
    let osis :=
      Re.sub re_k2 (Re.expand (raw "<seg type='keyword' n='2'>\1</seg>"))
             osis in
    let osis :=
      Re.sub re_k3 (Re.expand (raw "<seg type='keyword' n='3'>\1</seg>"))
             osis in
    let osis :=
      Re.sub re_k4 (Re.expand (raw "<seg type='keyword' n='4'>\1</seg>"))
             osis in
    Re.sub re_k5 (Re.expand (raw "<seg type='keyword' n='5'>\1</seg>")) osis
  else osis.

(** *** Character styling *)

Definition re_em : Re.regex := Eval vm_compute in
  Re.rx_dotall (raw "\\em\s+(.+?)\\em\*").
Definition re_bd : Re.regex := Eval vm_compute in
  Re.rx_dotall (raw "\\bd\s+(.+?)\\bd\*").
Definition re_it : Re.regex := Eval vm_compute in
  Re.rx_dotall (raw "\\it\s+(.+?)\\it\*").
Definition re_bdit : Re.regex := Eval vm_compute in
  Re.rx_dotall (raw "\\bdit\s+(.+?)\\bdit\*").
Definition re_no : Re.regex := Eval vm_compute in
  Re.rx_dotall (raw "\\no\s+(.+?)\\no\*").
Definition re_sc : Re.regex := Eval vm_compute in
  Re.rx_dotall (raw "\\sc\s+(.+?)\\sc\*").

Definition cvt_character_styling (osis : text) (relaxed_conformance : bool)
  : text :=
  (* \em_...\em* *)
  let osis :=
    Re.sub re_em (Re.expand (raw "<hi type='emphasis'>\1</hi>")) osis in
  (* \bd_...\bd* *)
  let osis := Re.sub re_bd (Re.expand (raw "<hi type='bold'>\1</hi>")) osis in
  (* \it_...\it* *)
  let osis :=
    Re.sub re_it (Re.expand (raw "<hi type='italic'>\1</hi>")) osis in
  (* \bdit_...\bdit* *)
  let osis :=
    Re.sub re_bdit
      (Re.expand (raw "<hi type='bold'><hi type='italic'>\1</hi></hi>"))
      osis in
  (* \no_...\no* *)
  let osis :=
    Re.sub re_no (Re.expand (raw "<hi type='normal'>\1</hi>")) osis in
  (* \sc_...\sc* *)
  Re.sub re_sc (Re.expand (raw "<hi type='small-caps'>\1</hi>")) osis.

(** *** Special features *)

Definition re_fig : Re.regex := Eval vm_compute in
  Re.rx (raw "\\fig\b\s+([^\|]*)\s*\|([^\|]*)\s*\|([^\|]*)\s*\|([^\|]*)\s*\|([^\|]*)\s*\|([^\|]*)\s*\|([^\\]*)\s*\\fig\*").
Definition re_ndx : Re.regex := Eval vm_compute in
  Re.rx_dotall (raw "\\ndx\s+(.+?)(\s*)\\ndx\*").
Definition re_pro : Re.regex := Eval vm_compute in
  Re.rx_dotall (raw "([^\s]+)(\s*)\\pro\s+(.+?)(\s*)\\pro\*").
Definition re_w : Re.regex := Eval vm_compute in
  Re.rx_dotall (raw "\\w\s+(.+?)(\s*)\\w\*").
Definition re_wg : Re.regex := Eval vm_compute in
  Re.rx_dotall (raw "\\wg\s+(.+?)(\s*)\\wg\*").
Definition re_wh : Re.regex := Eval vm_compute in
  Re.rx_dotall (raw "\\wh\s+(.+?)(\s*)\\wh\*").
Definition re_wr : Re.regex := Eval vm_compute in
  Re.rx_dotall (raw "\\wr\s+(.+?)(\s*)\\wr\*").

(** [\fig DESC|FILE|SIZE|LOC|COPY|CAP|REF\fig*] *)
Definition make_figure (matchObject : Re.groups) : text :=
  let fig_desc := grp matchObject 1 in
  let fig_file := grp matchObject 2 in
  let fig_size := grp matchObject 3 in
  let fig_loc := grp matchObject 4 in
  let fig_copy := grp matchObject 5 in
  let fig_cap := grp matchObject 6 in
  let fig_ref := grp matchObject 7 in
  let figure := py "<figure" in
  let figure :=
    match fig_file with
    | [] => figure
    | _ => figure ++ py " src='" ++ fig_file ++ py "'"
    end in
  let figure :=
    match fig_size with
    | [] => figure
    | _ => figure ++ py " size='" ++ fig_size ++ py "'"
    end in
  let figure :=
    match fig_copy with
    | [] => figure
    | _ => figure ++ py " rights='" ++ fig_copy ++ py "'"
    end in
  let figure := figure ++ py ">\n" in
  let figure :=
    match fig_cap with
    | [] => figure
    | _ => figure ++ py "<caption>" ++ fig_cap ++ py "</caption>\n"
    end in
  let figure :=
    match fig_ref with
    | [] => figure
    | _ =>
        figure ++ py "<reference type='annotateRef'>" ++ fig_ref ++
        py "</reference>\n"
    end in
  let figure :=
    match fig_desc with
    | [] => figure
    | _ => figure ++ py "<!-- fig DESC - " ++ fig_desc ++ py " -->\n"
    end in
  let figure :=
    match fig_loc with
    | [] => figure
    | _ => figure ++ py "<!-- fig LOC - " ++ fig_loc ++ py " -->\n"
    end in
  figure ++ py "</figure>".

Definition cvt_special_features (osis : text) (relaxed_conformance : bool)
  : text :=
  let osis := Re.sub re_fig make_figure osis in
  (* \ndx_...\ndx* *)
  let osis :=
    Re.sub re_ndx (Re.expand (raw "\1<index index='Index' level1='\1'/>\2"))
           osis in
  (* \pro_...\pro* *)
  let osis := Re.sub re_pro (Re.expand (raw "<w xlit='\3'>\1</w>\2\4")) osis in
  (* \w_...\w* *)
  let osis :=
    Re.sub re_w (Re.expand (raw "\1<index index='Glossary' level1='\1'/>\2"))
           osis in
  (* \wg_...\wg* *)
  let osis :=
    Re.sub re_wg (Re.expand (raw "\1<index index='Greek' level1='\1'/>\2"))
           osis in
  (* \wh_...\wh* *)
  let osis :=
    Re.sub re_wh (Re.expand (raw "\1<index index='Hebrew' level1='\1'/>\2"))
           osis in
  if relaxed_conformance then
    (* \wr...\wr* *)
    Re.sub re_wr
           (Re.expand (raw "\1<index index='Reference' level1='\1'/>\2")) osis
  else osis.

(** *** Peripherals *)


Section Peripherals.

(** The tables [PERIPHERALS] and [INTRO_PERIPHERALS] of [bookdata]. *)
Variables PERIPHERALS INTRO_PERIPHERALS : list (text * text).



End Peripherals.

(** *** Identification *)

Definition re_id : Re.regex := Eval vm_compute in
  Re.rx_dotall
    (raw "\\id\s+([A-Z0-9]{3})\b\s*([^\\" ++ py "\n]*?)\n" ++
     raw "(.*)(?=\\id|$)").
Definition re_ide : Re.regex := Eval vm_compute in
  Re.rx (raw "\\ide\b.*" ++ py "\n").
Definition re_sts : Re.regex := Eval vm_compute in
  Re.rx (raw "\\sts\b\s+(.+)\s*" ++ py "\n").
Definition re_rem : Re.regex := Eval vm_compute in
  Re.rx (raw "\\rem\b\s+(.+)").
Definition re_restore : Re.regex := Eval vm_compute in
  Re.rx (raw "\\restore\b\s+(.+)").
Definition re_h : Re.regex := Eval vm_compute in
  Re.rx (raw "\\h\b\s+(.+)\s*" ++ py "\n").
Definition re_h_n : Re.regex := Eval vm_compute in
  Re.rx (raw "\\h(\d)\b\s+(.+)\s*" ++ py "\n").
Definition re_toc1 : Re.regex := Eval vm_compute in
  Re.rx (raw "\\toc1\b\s+(.+)\s*" ++ py "\n").
Definition re_toc2 : Re.regex := Eval vm_compute in
  Re.rx (raw "\\toc2\b\s+(.+)\s*" ++ py "\n").
Definition re_toc3 : Re.regex := Eval vm_compute in
  Re.rx (raw "\\toc3\b\s+(.+)\s*" ++ py "\n").

Section Identification.

(** The table [BOOK_DICT] of [bookdata]. *)
Variable BOOK_DICT : list (text * text).

(** The replacement for the line of [\id]; [None] is the [KeyError] of
    [BOOK_DICT[m.group(1)]]. *)
Definition book_division (m : Re.groups) : option text :=
  book <- Str.dict_get BOOK_DICT (grp m 1) ;;
  Some (py "\uFDD0<div type='book' osisID='" ++ book ++ py "'>\n" ++
        match grp m 2 with
        | [] => []
        | _ => py "<!-- id comment - " ++ grp m 2 ++ py " -->\n"
        end ++
        grp m 3 ++ py "</div type='book'>\uFDD0\n").

Definition cvt_identification (osis : text) (relaxed_conformance : bool)
  : option text :=
  (* \id_<CODE>_(Name of file, Book name, Language, Last edited, Date,
     etc.) *)
  osis <- Re.sub_partial re_id book_division osis ;;
  (* \ide_<ENCODING> *)
  let osis := Re.sub re_ide (Re.expand []) osis in
  (* \sts_<STATUS CODE> *)
  let osis :=
    Re.sub re_sts
           (Re.expand (raw "<milestone type='x-usfm-sts' n='\1'/>" ++
                       py "\n")) osis in
  (* \rem_text... *)
  let osis := Re.sub re_rem (Re.expand (raw "<!-- rem - \1 -->")) osis in
  (* \restore_text... *)
  let osis :=
    if relaxed_conformance then
      Re.sub re_restore (Re.expand (raw "<!-- restore - \1 -->")) osis
    else osis in
  (* \h#_text... *)
  let osis :=
    Re.sub re_h
           (Re.expand (raw "<title type='runningHead'>\1</title>" ++
                       py "\n")) osis in
  let osis :=
    Re.sub re_h_n
           (Re.expand (raw "<title type='runningHead' n='\1'>\2</title>" ++
                       py "\n")) osis in
  (* \toc1_text... *)
  let osis :=
    Re.sub re_toc1
           (Re.expand (raw "<milestone type='x-usfm-toc1' n='\1'/>" ++
                       py "\n")) osis in
  (* \toc2_text... *)
  let osis :=
    Re.sub re_toc2
           (Re.expand (raw "<milestone type='x-usfm-toc2' n='\1'/>" ++
                       py "\n")) osis in
  (* \toc3_text... *)
  let osis :=
    Re.sub re_toc3
           (Re.expand (raw "<milestone type='x-usfm-toc3' n='\1'/>" ++
                       py "\n")) osis in
  Some osis.

End Identification.

(** *** Identifier placeholders *)

Definition re_digits : Re.regex := Eval vm_compute in Re.rx (raw "\d+").

(** [range(a, b)] *)
Definition range (a b : N) : list N :=
  map (fun i => (a + N.of_nat i)%N) (seq 0 (N.to_nat (b - a))).

(** [v_range[0]] and [v_range[1]] raise [IndexError] on a shorter list. *)
Definition expand_range (v_range : text) : option text :=
  let v_range := Re.findall re_digits v_range in
  lo <- nth_error v_range 0 ;;
  hi <- nth_error v_range 1 ;;
  let osisID :=
    map (fun n => py "$BOOK$.$CHAP$." ++ Str.str n)
        (range (Str.int lo) (Str.int hi + 1)) in
  Some (Str.join (py " ") osisID).

Definition expand_series (v_series : text) : text :=
  let v_series := Re.findall re_digits v_series in
  let osisID := map (fun n => py "$BOOK$.$CHAP$." ++ n) v_series in
  Str.join (py " ") osisID.

Definition re_range : Re.regex := Eval vm_compute in
  Re.rx (raw "\$BOOK\$\.\$CHAP\$\.(\d+-\d+)'").
Definition re_series : Re.regex := Eval vm_compute in
  Re.rx (raw "\$BOOK\$\.\$CHAP\$\.(\d+(,\d+)+)'").
Definition re_book_value : Re.regex := Eval vm_compute in
  Re.rx (raw "<div type='book' osisID='([^']+?)'").
Definition re_chap_value : Re.regex := Eval vm_compute in
  Re.rx (raw "<chapter osisID='[^\.']+\.([^']+)").

(** The body of the loop over the chapter chunks of a book. *)
Definition fill_chapter (cc : text) : text :=
  match Re.search re_chap_value cc with
  | Some chap_value =>
      let chap_value := grp chap_value 1 in
      Str.replace (py "$CHAP$") chap_value cc
  | None => cc
  end.

(** The body of the loop over the book chunks. *)
Definition fill_book (bc : text) : text :=
  match Re.search re_book_value bc with
  | Some book_value =>
      let book_value := grp book_value 1 in
      let bc := Str.replace (py "$BOOK$") book_value bc in
      let chap_chunks := Str.split 64977 bc in
      fold_left (fun newbc cc => newbc ++ fill_chapter cc) chap_chunks []
  | None => bc
  end.

(** The two expansions that open [process_osisIDs]. *)
Definition expand_ranges_and_series (osis : text) : option text :=
  osis <- Re.sub_partial re_range
            (fun m => r <- expand_range (grp m 1) ;; Some (r ++ py "'"))
            osis ;;
  Some (Re.sub re_series (fun m => expand_series (grp m 1) ++ py "'") osis).

(** fill in book & chapter values *)
Definition fill_book_and_chapter_values (osis : text) : text :=
  let book_chunks := Str.split 64976 osis in
  fold_left (fun osis bc => osis ++ fill_book bc) book_chunks [].

Definition process_osisIDs (osis : text) : option text :=
  osis <- expand_ranges_and_series osis ;;
  Some (fill_book_and_chapter_values osis).

(** *** Reordering and cleanup *)

Definition re_order1 : Re.regex := Eval vm_compute in
  Re.rx (py "(\uFDD3<chapter eID=.+?\n)(<verse eID=.+?>\uFDD2)\n?").
Definition re_order2 : Re.regex := Eval vm_compute in
  Re.rx (py "([\uFDD5\uFDD6\uFDD7\uFDD8\uFDD9]</div>)([^\uFDD5\uFDD6\uFDD7\uFDD8\uFDD9]*<chapter eID.+?>)").
Definition re_order3 : Re.regex := Eval vm_compute in
  Re.rx (py "(\uFDD3</p>\n?\uFDD3<p>)\n?(<verse eID=.+?>\uFDD2)\n?").
Definition re_order4 : Re.regex := Eval vm_compute in
  Re.rx (py "\n(<verse eID=.+?>\uFDD2)").
Definition re_order5 : Re.regex := Eval vm_compute in
  Re.rx (py "\n*(<l.+?>)(<verse eID=.+?>[\uFDD2\n]*<verse osisID=.+?>)").
Definition re_order6 : Re.regex := Eval vm_compute in
  Re.rx (py "(</l>)(<note .+?</note>)").
Definition re_end_tag_attrs : Re.regex := Eval vm_compute in
  Re.rx (raw "(</[^\s>]+) [^>]*>").
Definition re_close_spaces : Re.regex := Eval vm_compute in
  Re.rx (py " +((</[^>]+>)+) *").
Definition re_spaces : Re.regex := Eval vm_compute in
  Re.rx (py "  +").
Definition re_blank_lines : Re.regex := Eval vm_compute in
  Re.rx (py " ?\n\n+").

(** The Unicode non-characters used as scope markers. *)
Definition scope_markers : text :=
  py "\uFDD0\uFDD1\uFDD2\uFDD3\uFDD4\uFDD5\uFDD6\uFDD7\uFDD8\uFDD9\uFDDA\uFDDB\uFDDC\uFDDD\uFDDE\uFDDF\uFDE0\uFDE1\uFDE2\uFDE3\uFDE4\uFDE5\uFDE6\uFDE7\uFDE8\uFDE9\uFDEA\uFDEB\uFDEC\uFDED\uFDEE\uFDEF".

Definition end_blocks : list text :=
  [ py "p"; py "div"; py "note"; py "l"; py "lg"; py "chapter";
    py "verse"; py "head"; py "title"; py "item"; py "list" ].

Definition osis_reorder_and_cleanup (osis : text) : text :=
  (* assorted re-orderings *)
  let osis :=
    Re.sub re_order1 (Re.expand (raw "\2" ++ py "\n" ++ raw "\1")) osis in
  let osis := Re.sub re_order2 (Re.expand (raw "\2\1")) osis in
  let osis :=
    Re.sub re_order3
           (Re.expand (raw "\2" ++ py "\n" ++ raw "\1" ++ py "\n")) osis in
  let osis := Re.sub re_order4 (Re.expand (raw "\1" ++ py "\n")) osis in
  let osis := Re.sub re_order5 (Re.expand (raw "\2\1")) osis in
  let osis := Re.sub re_order6 (Re.expand (raw "\2\1")) osis in
  (* delete attributes from end tags (since they are invalid) *)
  let osis := Re.sub re_end_tag_attrs (Re.expand (raw "\1>")) osis in
  let osis := Str.replace (py "<lb type='x-p'/>") (py "<lb/>") osis in
  (* delete Unicode non-characters *)
  let osis :=
    fold_left (fun osis c => Str.replace [c] [] osis) scope_markers osis in
  let osis :=
    fold_left
      (fun osis end_block =>
         let osis :=
           Re.sub (Re.rx (py "\s+</" ++ end_block ++ py ">"))
                  (Re.expand (py "</" ++ end_block ++ raw ">\n")) osis in
         Re.sub (Re.rx (py "\s+<" ++ end_block ++ py "( eID=[^/>]+/>)"))
                (Re.expand (py "<" ++ end_block ++ raw "\1" ++ py "\n"))
                osis)
      end_blocks osis in
  let osis := Re.sub re_close_spaces (Re.expand (raw "\1 ")) osis in
  (* strip extra spaces & newlines *)
  let osis := Re.sub re_spaces (Re.expand (py " ")) osis in
  Re.sub re_blank_lines (Re.expand (py "\n")) osis.

(** *** The end of [ConvertToOSIS]

    After the stages, [ConvertToOSIS] resolves the identifiers, cleans up
    and retypes the special books.  [SPECIAL_BOOKS] is a table of
    [usfm2osis/bookdata.py]. *)
Section Finish.

Variable SPECIAL_BOOKS : list text.

(** change type on special books *)
Definition retype_special_books (osis : text) : text :=
  fold_left
    (fun osis sb =>
       Str.replace (py "<div type='book' osisID='" ++ sb ++ py "'>")
                   (py "<div type='" ++ Str.lower sb ++ py "'>") osis)
    SPECIAL_BOOKS osis.

(** [ConvertToOSIS] from the text that leaves the last stage
    ([cvt_private_use_extensions]) to the text returned. *)
Definition finish (osis : text) : option text :=
  osis <- process_osisIDs osis ;;
  let osis := osis_reorder_and_cleanup osis in
  Some (retype_special_books osis).

End Finish.

End Convert.

(** ** usfm2osis/sort.py *)

Module Sort.

Import Lit.

(** [sorted(l, key=f)]: the keys are computed once, from left to right;
    the sort is stable and compares keys with [<] only. *)
Section Sorted.

Context {A K : Type} (lt : K -> K -> bool).

Fixpoint insert (x : K * A) (l : list (K * A)) : list (K * A) :=
  match l with
  | [] => [x]
  | y :: l' => if lt (fst y) (fst x) then y :: insert x l' else x :: l
  end.

Definition sort_keyed (l : list (K * A)) : list (K * A) :=
  fold_right insert [] l.


(** [a] is not after [b]. *)
Definition le (a b : K) : Prop := lt b a = false.

End Sorted.

(** *** key_natural *)













(** *** key_canon and key_usfm

    [FILENAME_TO_OSIS], [CANONICAL_ORDER] and [USFM_NUMERIC_ORDER] are
    tables of [usfm2osis/bookdata.py]. *)

(** A position in a list, or [float('inf')]. *)
Inductive position :=
| At (n : nat)
| Infinity.

Definition position_lt (a b : position) : bool :=
  match a, b with
  | At x, At y => x <? y
  | At _, Infinity => true
  | Infinity, _ => false
  end.

Section Tables.

Variable FILENAME_TO_OSIS : list (text * text).
Variables CANONICAL_ORDER USFM_NUMERIC_ORDER : list text.

(** [None] is the [ValueError] of [list.index]. *)
Definition key_canon (filename : text) : option position :=
  match Str.dict_get FILENAME_TO_OSIS filename with
  | Some book => option_map At (Str.index CANONICAL_ORDER book)
  | None => Some Infinity
  end.

Definition key_usfm (filename : text) : option position :=
  match Str.dict_get FILENAME_TO_OSIS filename with
  | Some book => option_map At (Str.index USFM_NUMERIC_ORDER book)
  | None => Some Infinity
  end.

(** [filename in FILENAME_TO_OSIS] *)
Definition recognized (f : text) : bool :=
  match Str.dict_get FILENAME_TO_OSIS f with
  | Some _ => true
  | None => false
  end.

(** The key of [a] is not greater than the key of [b]. *)
Definition canon_le (a b : text) : Prop :=
  exists ka kb, key_canon a = Some ka /\ key_canon b = Some kb /\
                position_lt kb ka = false.

End Tables.

(** [sorted(l, key=f)] for a key function that may raise. *)
Fixpoint keys_of {A K : Type} (key : A -> option K) (l : list A)
  : option (list (K * A)) :=
  match l with
  | [] => Some []
  | a :: l' =>
      match key a with
      | Some k => option_map (cons (k, a)) (keys_of key l')
      | None => None
      end
  end.

Definition sorted_partial {A K : Type} (lt : K -> K -> bool)
           (key : A -> option K) (l : list A) : option (list A) :=
  option_map (fun kl => map snd (sort_keyed lt kl)) (keys_of key l).

(** *** key_supplied

    The counter is an attribute of the function object [key_supplied]:
    state of the process, absent until the first call. *)
Record attributes := mk_attributes { counter : option N }.

Definition key_supplied {A : Type} (dummy_val : A) (self : attributes)
  : N * attributes :=
  let self :=
    match counter self with
    | None => mk_attributes (Some 0%N)
    | Some _ => self
    end in
  let self :=
    mk_attributes (option_map (fun c => (c + 1)%N) (counter self)) in
  (match counter self with Some c => c | None => 0%N end, self).

(** The keys of one sorting run, computed from left to right. *)
Fixpoint supplied_keys {A : Type} (l : list A) (self : attributes)
  : list (N * A) * attributes :=
  match l with
  | [] => ([], self)
  | a :: l' =>
      let (k, self) := key_supplied a self in
      let (kl, self) := supplied_keys l' self in
      ((k, a) :: kl, self)
  end.

(** The items of [l] numbered from [c + 1]. *)
Fixpoint numbered {A : Type} (c : N) (l : list A) : list (N * A) :=
  match l with
  | [] => []
  | a :: l' => ((c + 1)%N, a) :: numbered (c + 1) l'
  end.

(** [sorted(l, key=key_supplied)] in a process whose attributes are
    [self]. *)
Definition sorted_supplied {A : Type} (l : list A) (self : attributes)
  : list A * attributes :=
  let (kl, self) := supplied_keys l self in
  (map snd (sort_keyed N.ltb kl), self).

(** The key is a position in the canon. *)
Definition finite {A : Type} (ka : position * A) : bool :=
  match fst ka with At _ => true | Infinity => false end.



(** The number of calls made so far. *)
Definition count (self : attributes) : N :=
  match counter self with Some c => c | None => 0%N end.

(** *** Notions for the properties of the keys *)

(** Two positions are the same. *)
Definition position_eqb (a b : position) : bool :=
  match a, b with
  | At x, At y => Nat.eqb x y
  | Infinity, Infinity => true
  | _, _ => false
  end.

(** The files of [l] whose key is [k], in the order of [l]. *)
Definition keyed (key : text -> option position) (k : position)
           (l : list text) : list text :=
  filter (fun f => match key f with
                   | Some k' => position_eqb k' k
                   | None => false
                   end) l.

(** The key of [a] is not greater than the key of [b]. *)
Definition key_le (key : text -> option position) (a b : text) : Prop :=
  exists ka kb, key a = Some ka /\ key b = Some kb /\
                position_lt kb ka = false.

(** A file of [files] whose book is in the file-name table and missing
    from the sequence [order]. *)
Definition unlisted (FILENAME_TO_OSIS : list (text * text))
           (order files : list text) : Prop :=
  exists f book, In f files /\
                 Str.dict_get FILENAME_TO_OSIS f = Some book /\
                 ~ In book order.




End Sort.

(** ** The vocabulary of the properties

    The notions in which the properties of the converter are stated and
    proved: the overlap of strings, the meaning of a pattern and the runs of
    the matcher, the documents of the examples, scope markers, the strings
    that set a stage off, placeholder tokens and the milestones of a
    chapter. *)

Module StrSpec.

Import Str.

(** [old] cannot begin where [s] begins, whatever follows [s]. *)
Fixpoint clash (old s : text) : bool :=
  match old, s with
  | a :: old', b :: s' => if N.eqb a b then clash old' s' else true
  | _, _ => false
  end.

(** ... nor anywhere in [s]. *)
Fixpoint clash_all (old s : text) : bool :=
  match s with
  | [] => true
  | _ :: s' => clash old s && clash_all old s'
  end.


End StrSpec.

Module ReSpec.

Import Re.

(** A match of a pattern, whatever the order in which the matcher would
    find it: [sem r st st'] when [r] can take the subject from [st] to
    [st']. *)
Inductive sem : regex -> state -> state -> Prop :=
| sem_eps st : sem Eps st st
| sem_chr c st r :
    rest st = c :: r -> sem (Chr c) st (advance c r st)
| sem_any d c st r :
    rest st = c :: r -> d || negb (N.eqb c 10) = true ->
    sem (Any d) st (advance c r st)
| sem_cls neg items c st r :
    rest st = c :: r -> in_cls neg items c = true ->
    sem (Cls neg items) st (advance c r st)
| sem_seq a b st st1 st2 :
    sem a st st1 -> sem b st1 st2 -> sem (Seq a b) st st2
| sem_alt_l a b st st' : sem a st st' -> sem (Alt a b) st st'
| sem_alt_r a b st st' : sem b st st' -> sem (Alt a b) st st'
| sem_star_nil g a st : sem (Star g a) st st
| sem_star_cons g a st st1 st2 :
    sem a st st1 -> pos st < pos st1 -> sem (Star g a) st1 st2 ->
    sem (Star g a) st st2
| sem_group n a st st' :
    sem a st st' ->
    sem (Group n a) st
        (mk_state (pos st') (prev st') (rest st')
                  ((n, (pos st, pos st')) :: caps st'))
| sem_look_pos a st st' :
    sem a st st' ->
    sem (Look true a) st
        (mk_state (pos st) (prev st) (rest st) (caps st'))
| sem_look_neg a st :
    run a Some st = None -> sem (Look false a) st st
| sem_bound st :
    xorb (word_before st) (word_after st) = true -> sem Bound st st
| sem_eol st : at_end st = true -> sem Eol st st.

(** Every match of [r] begins with the literal [l]. *)
Fixpoint needs (r : regex) (l : text) {struct r} : bool :=
  match l with
  | [] => true
  | c :: l' =>
      match r with
      | Chr d => N.eqb d c && match l' with [] => true | _ => false end
      | Seq a b =>
          match a with
          | Chr d => N.eqb d c && needs b l'
          | _ => needs a l
          end
      | Alt a b => needs a l && needs b l
      | Group _ a => needs a l
      | _ => false
      end
  end.

(** The character before the position reached by reading [u]. *)
Definition prev_after (u : text) (pv : option N) : option N :=
  fold_left (fun _ c => Some c) u pv.

(** The state reached from [st] by reading [u], with [t] left. *)
Definition after (u t : text) (st : state) : state :=
  mk_state (pos st + length u) (prev_after u (prev st)) t (caps st).

(** The literal [l] followed by [r]. *)
Definition lit (l : text) (r : regex) : regex :=
  fold_right (fun c acc => Seq (Chr c) acc) r l.

(** A greedy repetition of a class over a run [ds] of characters of the
    class that ends before [t]: the longest stretch is tried first. *)
Fixpoint greedy_over (k : cont) (ds t : text) (st : state)
  : option state :=
  match ds with
  | [] => k st
  | c :: ds' =>
      orelse (greedy_over k ds' t (advance c (ds' ++ t) st))
             (fun _ => k st)
  end.

Fixpoint lazy_over (k : cont) (ds t : text) (st : state) : option state :=
  match ds with
  | [] => k st
  | c :: ds' =>
      orelse (k st) (fun _ => lazy_over k ds' t (advance c (ds' ++ t) st))
  end.

(** [t] does not go on with a character of the class [p]. *)
Definition stops (p : N -> bool) (t : text) : Prop :=
  match t with
  | [] => True
  | c :: _ => p c = false
  end.

(** [st] is a position in the subject [s]. *)
Definition at_pos (s : text) (st : state) : Prop :=
  exists pre, s = pre ++ rest st /\ length pre = pos st.

(** The literal with which [r] begins, and the rest of [r]. *)
Fixpoint split_lit (r : regex) : text * regex :=
  match r with
  | Seq (Chr c) b => let (l, r') := split_lit b in (c :: l, r')
  | _ => ([], r)
  end.

(** A string of decimal digits. *)
Definition digits (d : text) : Prop :=
  Forall (fun c => is_digit c = true) d.

End ReSpec.

Module OsisIDs.

Import Lit Re ReSpec Convert.

(** The whole matches of [\d+] in [w], read from position [p] on. *)
Definition findall_from (w : text) (p : nat) (pv : option N) (s : text)
  : list text :=
  map (fun m => Str.slice w (m_lo m) (m_hi m))
      (hits (scan_go re_digits 0 p pv s)).

(** Decimal numerals: strings of digits that are not empty. *)
Definition numerals (l : list text) : Prop :=
  Forall (fun d => d <> [] /\ digits d) l.


(** What the verse stage writes before the number of a verse. *)
Definition placeholder : text :=
  Eval vm_compute in py "$BOOK$.$CHAP$.".




End OsisIDs.

Module Expansion.

Import Lit Convert.







End Expansion.

Module Markers.

(** The code points U+FDD0 to U+FDEF. *)
Definition is_scope_marker (c : N) : bool :=
  (N.leb 64976 c && N.leb c 65007)%bool.

(** A character that is no scope marker, and a text without any. *)
Definition unmarked (c : N) : Prop := is_scope_marker c = false.

Definition plain (s : text) : Prop := Forall unmarked s.

End Markers.

Module Stages.

Import Lit.







End Stages.

Module Placeholders.

Import Lit Convert.

(** The stages write the placeholders of the book and of the chapter
    before a full stop, as [$BOOK$.] and [$CHAP$.].  A text in which every
    dollar sign belongs to one of them is a sequence of tokens. *)
Inductive token :=
| Plain (c : N)
| Book
| Chap.

(** How the tokens are written. *)
Definition book_token : text := Eval vm_compute in py "$BOOK$.".
Definition chap_token : text := Eval vm_compute in py "$CHAP$.".

Definition spell (k : token) : text :=
  match k with
  | Plain c => [c]
  | Book => book_token
  | Chap => chap_token
  end.

Definition flat (l : list token) : text := concat (map spell l).

(** Reading the tokens of a text; [skip] counts the characters of the
    placeholder being read that are still to come. *)
Fixpoint tokens_go (skip : nat) (t : text) : option (list token) :=
  match t with
  | [] => match skip with O => Some [] | S _ => None end
  | c :: t' =>
      match skip with
      | S k => tokens_go k t'
      | O =>
          if N.eqb c 36 then
            if Str.starts_with book_token t
            then option_map (cons Book) (tokens_go 6 t')
            else if Str.starts_with chap_token t
                 then option_map (cons Chap) (tokens_go 6 t')
                 else None
          else option_map (cons (Plain c)) (tokens_go 0 t')
      end
  end.

(** Every dollar sign of [t] belongs to a placeholder. *)
Definition disciplined (t : text) : bool :=
  match tokens_go 0 t with
  | Some _ => true
  | None => false
  end.

(** [t] has no dollar sign. *)
Definition dollar_free (t : text) : bool :=
  forallb (fun c => negb (N.eqb c 36)) t.

(** A chapter chunk in which [fill_chapter] finds a chapter number free
    of dollar signs, or that has no dollar sign. *)
Definition resolvable_chapter (cc : text) : bool :=
  match Re.search re_chap_value cc with
  | Some chap_value => dollar_free (grp chap_value 1)
  | None => dollar_free cc
  end.

(** A book chunk in which [fill_book] finds a book identifier free of
    dollar signs and chapter chunks that are resolvable, or that has no
    dollar sign. *)
Definition resolvable_book (bc : text) : bool :=
  match Re.search re_book_value bc with
  | Some book_value =>
      let book_value := grp book_value 1 in
      dollar_free book_value &&
      forallb resolvable_chapter
              (Str.split 64977 (Str.replace (py "$BOOK$") book_value bc))
  | None => dollar_free bc
  end.

(** A document in which every dollar sign belongs to a placeholder and
    every book chunk is resolvable. *)
Definition well_formed (osis : text) : bool :=
  disciplined osis && forallb resolvable_book (Str.split 64976 osis).

(** A plain token is no dollar sign; [ok_chap]: and the placeholders of
    the book are gone. *)
Definition ok (k : token) : Prop :=
  match k with
  | Plain c => c <> 36%N
  | _ => True
  end.

Definition ok_chap (k : token) : Prop := ok k /\ k <> Book.

(** What [replace] writes for a token when the placeholder of the book,
    respectively of the chapter, is replaced. *)
Definition fill_book_token (v : text) (k : token) : text :=
  match k with
  | Book => v ++ [46%N]
  | _ => spell k
  end.

Definition fill_chap_token (w : text) (k : token) : text :=
  match k with
  | Chap => w ++ [46%N]
  | _ => spell k
  end.

(** The book chunk with its book identifier, as tokens. *)
Definition book_filled (v : text) (l : list token) : list token :=
  flat_map (fun k => match k with
                     | Book => map Plain (v ++ [46%N])
                     | _ => [k]
                     end) l.

End Placeholders.

Module Chapters.

Import Lit Re ReSpec.






(** No string of [triggers] begins in [p], whatever follows [p]. *)
Definition apart (triggers : list text) (p : text) : bool :=
  forallb (fun l => StrSpec.clash_all l p) triggers.


End Chapters.

Module Shifts.

Import Re.





(** A pattern that begins by reading a character: it does not look at
    what is before the place where it is tried. *)
Fixpoint blind (r : regex) : bool :=
  match r with
  | Chr _ | Any _ | Cls _ _ => true
  | Seq a _ => blind a
  | Alt a b => blind a && blind b
  | Group _ a => blind a
  | _ => false
  end.

(** What [re.sub] writes for a piece of the scan of [s]. *)
Definition written (s : text) (repl : groups -> text) (x : piece) : text :=
  match x with
  | Keep c => [c]
  | Hit m => repl (group s m)
  end.

(** [repl] reads the groups only. *)
Definition reads_groups (repl : groups -> text) : Prop :=
  forall g g', (forall n, g n = g' n) -> repl g = repl g'.

(** No match of [r] begins where [Q] begins, whatever follows [Q] ... *)
Definition unmatched (r : regex) (Q : text) : Prop :=
  forall t p pv, match_at r p pv (Q ++ t) = None.

(** ... nor anywhere in [Q]. *)
Fixpoint unmatched_all (r : regex) (Q : text) : Prop :=
  match Q with
  | [] => True
  | _ :: Q' => unmatched r Q /\ unmatched_all r Q'
  end.

End Shifts.

Module Pairs.

Import Lit Re ReSpec.

(** The pattern [TAG\s+(.+?)TAG\*] of a pair of directives, for the
    opening directive [tag] (its backslash included), with [re.DOTALL]. *)
Definition pair_rx (tag : text) : regex :=
  lit tag
      (Seq (Seq (Cls false [Space]) (Star true (Cls false [Space])))
           (Seq (Group 1 (Seq (Any true) (Star false (Any true))))
                (lit tag (Chr 42)))).



(** A step of a stage: a pattern and what is written for a match of it;
    the steps of a stage are run one after the other on the whole text. *)
Definition step := (regex * (groups -> text))%type.

Definition run_step (osis : text) (s : step) : text :=
  sub (fst s) (snd s) osis.

Definition run_steps (l : list step) (osis : text) : text :=
  fold_left run_step l osis.

(** A step that cannot begin in [Q]. *)
Definition passes (Q : text) (s : step) : Prop :=
  Shifts.blind (fst s) = true /\ Shifts.reads_groups (snd s) /\
  Shifts.unmatched_all (fst s) Q.




(** The steps of [cvt_character_styling]. *)
Definition character_styling_steps : list step :=
  [ (Convert.re_em, expand (raw "<hi type='emphasis'>\1</hi>"));
    (Convert.re_bd, expand (raw "<hi type='bold'>\1</hi>"));
    (Convert.re_it, expand (raw "<hi type='italic'>\1</hi>"));
    (Convert.re_bdit,
     expand (raw "<hi type='bold'><hi type='italic'>\1</hi></hi>"));
    (Convert.re_no, expand (raw "<hi type='normal'>\1</hi>"));
    (Convert.re_sc, expand (raw "<hi type='small-caps'>\1</hi>")) ].

(** The steps of [cvt_special_text]. *)
Definition special_text_steps (relaxed_conformance : bool) : list step :=
  [ (Convert.re_add,
     expand (raw "<transChange type='added'>\1</transChange>"));
    (Convert.re_wj, expand (raw "<q who='Jesus' marker=''>\1</q>"));
    (Convert.re_nd, expand (raw "<divineName>\1</divineName>"));
    (Convert.re_pn, expand (raw "<name>\1</name>"));
    (Convert.re_qt, expand (raw "<seg type='otPassage'>\1</seg>"));
    (Convert.re_sig, expand (raw "<signed>\1</signed>"));
    (Convert.re_ord, expand (raw "<hi type='super'>\1</hi>"));
    (Convert.re_tl, expand (raw "<foreign>\1</foreign>"));
    (Convert.re_bk, expand (raw "<name type='x-workTitle'>\1</name>"));
    (Convert.re_k, expand (raw "<seg type='keyword'>\1</seg>"));
    (Convert.re_lit,
     fun m => py "\uFDD3<p type='x-liturgical'>\n" ++ Convert.grp m 1 ++
              py "\uFDD3</p>\n");
    (Convert.re_dc,
     expand (raw "<transChange type='added' editions='dc'>\1</transChange>"));
    (Convert.re_sls, expand (raw "<foreign>/1</foreign>")) ] ++
  if relaxed_conformance then
    [ (Convert.re_addpn, expand (raw "<hi type='x-dotUnderline'>\1</hi>"));
      (Convert.re_k1, expand (raw "<seg type='keyword' n='1'>\1</seg>"));
      (Convert.re_k2, expand (raw "<seg type='keyword' n='2'>\1</seg>"));
      (Convert.re_k3, expand (raw "<seg type='keyword' n='3'>\1</seg>"));
      (Convert.re_k4, expand (raw "<seg type='keyword' n='4'>\1</seg>"));
      (Convert.re_k5, expand (raw "<seg type='keyword' n='5'>\1</seg>")) ]
  else [].




End Pairs.

Module Entities.

Import Lit.

(** What the three replacements of [cvt_preprocess] write for a
    character. *)
Definition escape_char (x : N) : text :=
  if N.eqb x 38 then py "&amp;"
  else if N.eqb x 60 then py "&lt;"
  else if N.eqb x 62 then py "&gt;"
  else [x].

(** The text has no [<] and no [>], and each of its ampersands begins one
    of the entities [&amp;], [&lt;] and [&gt;]. *)
Fixpoint escaped (t : text) : bool :=
  match t with
  | [] => true
  | c :: t' =>
      (if N.eqb c 38
       then Str.starts_with (py "amp;") t' || Str.starts_with (py "lt;") t'
            || Str.starts_with (py "gt;") t'
       else negb (N.eqb c 60) && negb (N.eqb c 62))
      && escaped t'
  end.



End Entities.

Module Cleanup.

Import Lit Re.

(** What [re.sub] writes for a piece of a scan when the replacement is
    the constant text [w]. *)
Definition constant_written (w : text) (x : piece) : text :=
  match x with
  | Keep c => [c]
  | Hit _ => w
  end.

(** What the last but one step of [osis_reorder_and_cleanup] writes for
    [s] read from the position [p], and what the last step writes. *)
Definition squeezed (p : nat) (pv : option N) (s : text) : text :=
  flat_map (constant_written (py " "))
           (scan_go Convert.re_spaces 0 p pv s).

Definition unblanked (p : nat) (pv : option N) (s : text) : text :=
  flat_map (constant_written (py "\n"))
           (scan_go Convert.re_blank_lines 0 p pv s).

End Cleanup.

Module Features.

Import Lit Re ReSpec Pairs.

(** Every match of [r] has the text [l] in what it reads, from the place
    where it begins on. *)
Fixpoint spells (r : regex) (l : text) : bool :=
  needs r l ||
  match r with
  | Seq a b => spells a l || spells b l
  | Alt a b => spells a l && spells b l
  | Group _ a => spells a l
  | _ => false
  end.

(** No match of [r] begins anywhere in the text [s]. *)
Definition idle (r : regex) (s : text) : Prop :=
  forall n p pv, match_at r p pv (skipn n s) = None.






(** The steps of [cvt_special_features]. *)
Definition special_features_steps (relaxed_conformance : bool)
  : list step :=
  [ (Convert.re_fig, Convert.make_figure);
    (Convert.re_ndx,
     expand (raw "\1<index index='Index' level1='\1'/>\2"));
    (Convert.re_pro, expand (raw "<w xlit='\3'>\1</w>\2\4"));
    (Convert.re_w,
     expand (raw "\1<index index='Glossary' level1='\1'/>\2"));
    (Convert.re_wg,
     expand (raw "\1<index index='Greek' level1='\1'/>\2"));
    (Convert.re_wh,
     expand (raw "\1<index index='Hebrew' level1='\1'/>\2")) ] ++
  if relaxed_conformance then
    [ (Convert.re_wr,
       expand (raw "\1<index index='Reference' level1='\1'/>\2")) ]
  else [].

End Features.

Module Peripherals.

Import Lit Re ReSpec Pairs.




End Peripherals.

Module Identification.

Import Lit Re ReSpec.





End Identification.

(** * Properties *)

(** ** Sorting *)

Module SortFacts.

Import Lit Sort.

Section Insertion.

Context {A K : Type} (lt : K -> K -> bool).

Lemma insert_perm (x : K * A) l : Permutation (x :: l) (insert lt x l).
Proof.
  induction l as [|y l IH]; simpl; auto.
  destruct (lt (fst y) (fst x)); auto.
  rewrite perm_swap. now constructor.
Qed.

Lemma sort_keyed_perm (l : list (K * A)) : Permutation l (sort_keyed lt l).
Proof.
  induction l as [|x l IH]; simpl; auto.
  rewrite <- insert_perm. now constructor.
Qed.

Local Abbreviation le := (Sort.le lt).

Hypothesis lt_le : forall a b, lt a b = true -> le a b.
Hypothesis le_trans : forall a b c, le a b -> le b c -> le a c.

Lemma insert_sorted (x : K * A) l :
  StronglySorted (fun a b => le (fst a) (fst b)) l ->
  StronglySorted (fun a b => le (fst a) (fst b)) (insert lt x l).
Proof.
  induction 1 as [|y l Hs IH Hy]; simpl.
  - repeat constructor.
  - destruct (lt (fst y) (fst x)) eqn:E.
    + constructor; auto.
      rewrite Forall_forall in *. intros z Hz.
      apply (Permutation_in _ (Permutation_sym (insert_perm x l))) in Hz.
      destruct Hz as [<-|Hz]; auto.
    + constructor; [now constructor|].
      constructor; [exact E|].
      rewrite Forall_forall in *. intros z Hz.
      apply le_trans with (fst y); auto.
Qed.

Lemma sort_keyed_sorted (l : list (K * A)) :
  StronglySorted (fun a b => le (fst a) (fst b)) (sort_keyed lt l).
Proof.
  induction l as [|x l IH]; simpl; [constructor|].
  now apply insert_sorted.
Qed.

End Insertion.

Lemma keys_of_total {A K : Type} (key : A -> option K) (l : list A) :
  (forall a, In a l -> key a <> None) ->
  exists kl, keys_of key l = Some kl /\ map snd kl = l /\
             Forall (fun ka => key (snd ka) = Some (fst ka)) kl.
Proof.
  induction l as [|a l IH]; intros H; simpl.
  - exists []. repeat split; constructor.
  - destruct (key a) as [k|] eqn:E.
    + destruct IH as (kl & -> & Hm & Hf); [intros; apply H; now right|].
      exists ((k, a) :: kl). simpl. rewrite Hm. repeat split.
      constructor; auto.
    + exfalso. apply (H a); auto. now left.
Qed.

End SortFacts.

Module CanonFacts.

Import Lit Sort SortFacts.

Lemma position_lt_le a b : position_lt a b = true -> position_lt b a = false.
Proof.
  destruct a, b; simpl; auto; try discriminate.
  rewrite Nat.ltb_lt, Nat.ltb_ge. lia.
Qed.

Lemma position_le_trans a b c :
  position_lt b a = false -> position_lt c b = false ->
  position_lt c a = false.
Proof.
  destruct a, b, c; simpl; auto; try discriminate.
  rewrite !Nat.ltb_ge. lia.
Qed.

Section Partition.

Context {A : Type}.
Implicit Types (l P Q : list (position * A)).

Lemma insert_infinite x P Q :
  finite x = false ->
  Forall (fun y => finite y = true) P ->
  Forall (fun y => finite y = false) Q ->
  insert position_lt x (P ++ Q) = P ++ x :: Q.
Proof.
  intros Hx HP HQ. induction HP as [|y P Hy _ IH]; simpl.
  - destruct HQ as [|z Q Hz _]; simpl; auto.
    destruct z as [[|] ?]; try discriminate. reflexivity.
  - destruct x as [[|] ?], y as [[|] ?]; try discriminate.
    simpl in *. now rewrite IH.
Qed.

Lemma insert_finite x P Q :
  finite x = true ->
  Forall (fun y => finite y = false) Q ->
  insert position_lt x (P ++ Q) = insert position_lt x P ++ Q.
Proof.
  intros Hx HQ. induction P as [|y P IH]; simpl.
  - destruct HQ as [|z Q Hz _]; simpl; auto.
    destruct z as [[|] ?], x as [[|] ?]; try discriminate. reflexivity.
  - destruct (position_lt (fst y) (fst x)); simpl; auto. now rewrite IH.
Qed.

Lemma insert_all (R : position * A -> Prop) x l :
  R x -> Forall R l -> Forall R (insert position_lt x l).
Proof.
  intros Hx Hl. rewrite Forall_forall in *. intros y Hy.
  apply (Permutation_in _ (Permutation_sym (insert_perm position_lt x l)))
    in Hy.
  destruct Hy as [<-|Hy]; auto.
Qed.

Lemma sort_keyed_all (R : position * A -> Prop) l :
  Forall R l -> Forall R (sort_keyed position_lt l).
Proof.
  induction 1; simpl; [constructor|]. now apply insert_all.
Qed.

Lemma filter_all (f : position * A -> bool) l :
  Forall (fun y => f y = true) (filter f l).
Proof.
  rewrite Forall_forall. intros y Hy. now apply filter_In in Hy.
Qed.

(** The keyed items whose key is infinite come last, in the order in
    which they were given. *)
Lemma sort_keyed_partition l :
  sort_keyed position_lt l =
  sort_keyed position_lt (filter finite l) ++
  filter (fun y => negb (finite y)) l.
Proof.
  induction l as [|x l IH]; simpl; auto.
  rewrite IH.
  assert (HQ : Forall (fun y => finite y = false)
                      (filter (fun y => negb (finite y)) l)).
  { eapply Forall_impl; [|apply filter_all].
    simpl. intros y Hy. now apply negb_true_iff. }
  destruct (finite x) eqn:E; simpl.
  - now apply insert_finite.
  - apply insert_infinite; auto.
    apply sort_keyed_all, filter_all.
Qed.

End Partition.

End CanonFacts.

Section CanonicalOrder.

Import Lit Sort SortFacts CanonFacts.

Variable FILENAME_TO_OSIS : list (text * text).
Variable CANONICAL_ORDER : list text.

(** Every book of the file-name table is in the canonical sequence, so
    that [list.index] never raises. *)
Hypothesis books_listed :
  forall f book,
    Str.dict_get FILENAME_TO_OSIS f = Some book -> In book CANONICAL_ORDER.

Let key := key_canon FILENAME_TO_OSIS CANONICAL_ORDER.

Local Abbreviation recognized := (Sort.recognized FILENAME_TO_OSIS).
Local Abbreviation canon_le :=
  (Sort.canon_le FILENAME_TO_OSIS CANONICAL_ORDER).

Lemma index_listed l x : In x l -> exists n, Str.index l x = Some n.
Proof.
  induction l as [|y l IH]; simpl; [tauto|].
  intros H. unfold Str.eqb. destruct (list_eq_dec N.eq_dec y x) as [e|n].
  - now exists 0.
  - destruct IH as [m ->]; [destruct H; congruence|]. now exists (S m).
Qed.

Lemma key_recognized f :
  recognized f = true -> exists n, key f = Some (At n).
Proof.
  unfold recognized, key, key_canon.
  destruct (Str.dict_get FILENAME_TO_OSIS f) as [book|] eqn:E;
    [|discriminate].
  intros _. destruct (index_listed _ _ (books_listed _ _ E)) as [n ->].
  now exists n.
Qed.

Lemma key_unrecognized f : recognized f = false -> key f = Some Infinity.
Proof.
  unfold recognized, key, key_canon.
  now destruct (Str.dict_get FILENAME_TO_OSIS f).
Qed.

Lemma key_total f : key f <> None.
Proof.
  destruct (recognized f) eqn:E.
  - destruct (key_recognized _ E) as [n ->]. discriminate.
  - rewrite (key_unrecognized _ E). discriminate.
Qed.

Lemma keyed_filter (kl : list (position * text)) :
  Forall (fun ka => key (snd ka) = Some (fst ka)) kl ->
  map snd (filter (fun y => negb (finite y)) kl) =
  filter (fun f => negb (recognized f)) (map snd kl) /\
  Forall (fun f => recognized f = true) (map snd (filter finite kl)).
Proof.
  induction 1 as [|[k a] kl Hk _ [IH1 IH2]]; simpl; [split; auto|].
  simpl in Hk. destruct (recognized a) eqn:E.
  - destruct (key_recognized _ E) as [n Hn].
    assert (k = At n) by congruence. subst k.
    unfold finite at 1 3; simpl. split; auto.
  - rewrite (key_unrecognized _ E) in Hk. injection Hk as <-.
    unfold finite at 1 3; simpl. split; auto. now f_equal.
Qed.

(** C7.  Sorting file names with [key_canon]: the result is a
    rearrangement of the input in which the keys never decrease, so the
    files of known books come in the order of the canonical sequence; a
    file name that is not in the lookup has the key infinity; the files
    with that key follow all the recognized ones, in the order in which
    they were supplied; and three files whose books stand in the canonical
    order [g], [e], [m] come out in that order when supplied reversed. *)
Theorem key_canon_sort (files : list text) :
  exists out,
    sorted_partial position_lt key files = Some out /\
    Permutation files out /\
    StronglySorted canon_le out /\
    (forall f, recognized f = false -> key f = Some Infinity) /\
    (exists known,
        out = known ++ filter (fun f => negb (recognized f)) files /\
        Forall (fun f => recognized f = true) known) /\
    (forall g e m i j k,
        key g = Some (At i) -> key e = Some (At j) -> key m = Some (At k) ->
        i < j < k ->
        sorted_partial position_lt key [m; e; g] = Some [g; e; m]).
Proof.
  destruct (keys_of_total key files (fun a _ => key_total a))
    as (kl & Hkl & Hsnd & Hkeys).
  exists (map snd (sort_keyed position_lt kl)).
  unfold sorted_partial. rewrite Hkl. simpl.
  split; [reflexivity|]. split; [|split; [|split; [|split]]].
  - rewrite <- Hsnd at 1. apply Permutation_map, sort_keyed_perm.
  - pose proof (sort_keyed_sorted position_lt (A:=text)
                  position_lt_le position_le_trans kl) as Hs.
    assert (Hk : Forall (fun ka => key (snd ka) = Some (fst ka))
                        (sort_keyed position_lt kl)).
    { rewrite Forall_forall in *. intros y Hy. apply Hkeys.
      eapply Permutation_in; [apply Permutation_sym, sort_keyed_perm|].
      exact Hy. }
    induction Hs as [|y l Hs IH Hy]; simpl; constructor.
    + apply IH. now inversion Hk.
    + inversion Hk as [|? ? Hy0 Hl]; subst.
      rewrite Forall_forall in *. intros z Hz.
      apply in_map_iff in Hz. destruct Hz as (w & <- & Hw).
      exists (fst y), (fst w). repeat split; auto.
      now apply Hy.
  - exact key_unrecognized.
  - exists (map snd (sort_keyed position_lt (filter finite kl))).
    rewrite sort_keyed_partition, map_app.
    destruct (keyed_filter _ Hkeys) as [H1 H2].
    rewrite H1, Hsnd. split; [reflexivity|].
    rewrite Forall_forall in *. intros f Hf. apply H2.
    eapply Permutation_in; [|exact Hf].
    apply Permutation_map, Permutation_sym, sort_keyed_perm.
  - intros g e m i j k Hg He Hm Hijk. simpl.
    rewrite Hg, He, Hm. simpl.
    assert (Hij : (i <? j) = true) by (apply Nat.ltb_lt; lia).
    assert (Hik : (i <? k) = true) by (apply Nat.ltb_lt; lia).
    assert (Hjk : (j <? k) = true) by (apply Nat.ltb_lt; lia).
    rewrite Hij. simpl. now rewrite Hik, Hjk.
Qed.

End CanonicalOrder.

Module NaturalFacts.

Import Lit Sort.





End NaturalFacts.


Module SuppliedFacts.

Import Lit Sort.

Lemma supplied_keys_numbered {A : Type} (l : list A) (self : attributes) :
  supplied_keys l self =
  (numbered (count self) l,
   match l with
   | [] => self
   | _ => mk_attributes (Some (count self + N.of_nat (length l))%N)
   end).
Proof.
  revert self. induction l as [|a l IH]; intros self; [reflexivity|].
  cbn [supplied_keys].
  destruct (key_supplied a self) as [k self'] eqn:E.
  rewrite IH.
  assert (H : k = (count self + 1)%N /\
              self' = mk_attributes (Some (count self + 1)%N)).
  { unfold key_supplied in E.
    destruct self as [[c|]]; cbn in E; injection E as <- <-;
      split; reflexivity. }
  destruct H as [-> ->]. cbn [numbered]. unfold count at 1 2.
  cbn [counter]. f_equal.
  change (count {| counter := Some (count self + 1)%N |})
    with (count self + 1)%N.
  destruct l as [|b l]; f_equal; f_equal; cbn [length]; lia.
Qed.

Lemma insert_numbered {A : Type} (c : N) (a : A) (l : list A) :
  insert N.ltb (c, a) (numbered c l) = (c, a) :: numbered c l.
Proof.
  destruct l as [|b l]; simpl; auto.
  assert (H : (c + 1 <? c)%N = false) by (apply N.ltb_ge; lia).
  now rewrite H.
Qed.

Lemma sort_numbered {A : Type} (c : N) (l : list A) :
  sort_keyed N.ltb (numbered c l) = numbered c l.
Proof.
  revert c. induction l as [|a l IH]; intros c; simpl; auto.
  rewrite IH. apply insert_numbered.
Qed.

Lemma numbered_snd {A : Type} (c : N) (l : list A) :
  map snd (numbered c l) = l.
Proof.
  revert c. induction l as [|a l IH]; intros c; simpl; auto.
  now rewrite IH.
Qed.

End SuppliedFacts.

(** C9, as the code has it.  [key_supplied] numbers the items of a run from
    the value the counter has when the run starts: the keys rise by one from
    item to item, so the run returns the items in the order supplied; the
    counter is never reset, and goes on from where the run left it. *)
Theorem key_supplied_counts_calls {A : Type} (l : list A)
        (self : Sort.attributes) :
  Sort.supplied_keys l self =
    (Sort.numbered (Sort.count self) l,
     match l with
     | [] => self
     | _ => Sort.mk_attributes
              (Some (Sort.count self + N.of_nat (length l))%N)
     end) /\
  fst (Sort.sorted_supplied l self) = l.
Proof.
  split; [apply SuppliedFacts.supplied_keys_numbered|].
  unfold Sort.sorted_supplied.
  rewrite SuppliedFacts.supplied_keys_numbered. simpl.
  now rewrite SuppliedFacts.sort_numbered, SuppliedFacts.numbered_snd.
Qed.

(** C9 as the spec states it fails: a second sorting run in the same process
    does not start from a fresh counter; its keys go on from those of the
    first run. *)
Lemma key_supplied_not_reset :
  let files := [Lit.py "GEN"; Lit.py "EXO"] in
  let fresh := Sort.mk_attributes None in
  let first_run := Sort.supplied_keys files fresh in
  let second_run := Sort.supplied_keys files (snd first_run) in
  map fst (fst first_run) = [1%N; 2%N] /\
  map fst (fst second_run) = [3%N; 4%N] /\
  map fst (fst second_run) <> map fst (fst (Sort.supplied_keys files fresh)).
Proof.
  vm_compute. repeat split; discriminate.
Qed.

(** ** Text and regular expressions *)

Module StrFacts.

Import Str StrSpec.

Lemma starts_with_app p s : starts_with p (p ++ s) = true.
Proof.
  induction p as [|c p IH]; simpl; auto. now rewrite N.eqb_refl.
Qed.

Lemma starts_with_split p s :
  starts_with p s = true -> exists t, s = p ++ t.
Proof.
  revert s. induction p as [|c p IH]; intros [|d s]; simpl;
    try discriminate; eauto.
  intros H. apply andb_prop in H. destruct H as [Hc Hp].
  apply N.eqb_eq in Hc. subst d.
  destruct (IH _ Hp) as [t ->]. now exists t.
Qed.

Lemma contains_cons p c s :
  contains p (c :: s) = false ->
  starts_with p (c :: s) = false /\ contains p s = false.
Proof. simpl. intros H. now apply orb_false_elim in H. Qed.

Lemma contains_starts p s : contains p s = false -> starts_with p s = false.
Proof. destruct s; simpl; intros H; now apply orb_false_elim in H. Qed.

Lemma contains_skipn p s n : contains p s = false -> contains p (skipn n s) = false.
Proof.
  revert s. induction n as [|n IH]; intros [|c s] H; simpl; auto.
  apply IH. now apply contains_cons in H.
Qed.

(** [replace] changes nothing in a text that has no occurrence of [old]. *)
Lemma replace_absent old new s :
  contains old s = false -> replace old new s = s.
Proof.
  unfold replace. induction s as [|c s IH]; intros H; simpl; auto.
  apply contains_cons in H. destruct H as [H1 H2].
  rewrite H1. now rewrite IH.
Qed.

Lemma replace_go_all (P : N -> Prop) old new skip s :
  Forall P new -> Forall P s -> Forall P (replace_go old new skip s).
Proof.
  intros Hnew Hs. revert skip.
  induction Hs as [|c s Hc Hs IH]; intros skip; simpl; [constructor|].
  destruct skip; auto.
  destruct (starts_with old (c :: s)); auto.
  apply Forall_app. split; auto.
Qed.

Lemma replace_all (P : N -> Prop) old new s :
  Forall P new -> Forall P s -> Forall P (replace old new s).
Proof. apply replace_go_all. Qed.

(** Deleting a character leaves none of it. *)
Lemma delete_char_go c skip s :
  (skip <= 1)%nat ->
  Forall (fun d => d <> c) (replace_go [c] [] skip s).
Proof.
  revert skip. induction s as [|d s IH]; intros skip Hskip; simpl;
    [constructor|].
  destruct skip as [|skip].
  - destruct (N.eqb c d) eqn:E; simpl.
    + apply IH. lia.
    + constructor; [|apply IH; lia].
      apply N.eqb_neq in E. congruence.
  - assert (skip = 0) by lia. subst.
    (* unreachable from [replace]: an occurrence of one character leaves
       nothing to skip *)
    destruct s as [|e s]; simpl; [constructor|].
    generalize (IH 0 (Nat.le_0_l _)); simpl. auto.
Qed.

(** *** Reading a text piece by piece *)

Lemma clash_starts old s :
  clash old s = true -> forall t, starts_with old (s ++ t) = false.
Proof.
  revert s. induction old as [|a old IH]; intros [|b s] H t;
    simpl in *; try discriminate.
  destruct (N.eqb a b); simpl; auto.
Qed.

Lemma clash_all_other a old d :
  Forall (fun c => c <> a) d -> clash_all (a :: old) d = true.
Proof.
  induction 1 as [|c d Hc _ IH]; simpl; auto.
  apply N.eqb_neq in Hc. rewrite N.eqb_sym in Hc. now rewrite Hc.
Qed.

Lemma replace_go_skip old new u t :
  replace_go old new (length u) (u ++ t) = replace_go old new 0 t.
Proof.
  induction u as [|c u IH]; simpl; auto.
Qed.

Lemma replace_go_hit old new c u t :
  old = c :: u ->
  replace_go old new 0 (old ++ t) = new ++ replace_go old new 0 t.
Proof.
  intros ->. simpl. rewrite N.eqb_refl, starts_with_app. simpl.
  rewrite Nat.sub_0_r. now rewrite replace_go_skip.
Qed.

Lemma replace_go_pass old new p t :
  clash_all old p = true ->
  replace_go old new 0 (p ++ t) = p ++ replace_go old new 0 t.
Proof.
  induction p as [|c p IH]; intros H; auto.
  cbn [clash_all] in H. apply andb_prop in H. destruct H as [H1 H2].
  cbn [app replace_go].
  change (c :: p ++ t) with ((c :: p) ++ t).
  rewrite (clash_starts _ _ H1). now rewrite IH.
Qed.

Lemma clash_more old s t : clash old s = true -> clash old (s ++ t) = true.
Proof.
  revert s. induction old as [|a old IH]; intros [|b s] H; simpl in *;
    try discriminate.
  destruct (N.eqb a b); auto.
Qed.

Lemma clash_all_app old p q :
  clash_all old p = true -> clash_all old q = true ->
  clash_all old (p ++ q) = true.
Proof.
  intros Hp Hq. induction p as [|c p IH]; auto.
  cbn [clash_all] in Hp. apply andb_prop in Hp. destruct Hp as [H1 H2].
  cbn [app clash_all]. change (c :: p ++ q) with ((c :: p) ++ q).
  now rewrite (clash_more _ _ q H1), IH.
Qed.



(** *** Splitting *)




Lemma split_nonempty sep s : split sep s <> [].
Proof.
  induction s as [|c s IH]; simpl; [discriminate|].
  destruct (N.eqb c sep); [discriminate|].
  destruct (split sep s); discriminate.
Qed.

Lemma split_app sep p t :
  Forall (fun c => c <> sep) p ->
  split sep (p ++ t) =
  match split sep t with
  | h :: l => (p ++ h) :: l
  | [] => [p]
  end.
Proof.
  induction 1 as [|c p Hc _ IH]; simpl.
  - pose proof (split_nonempty sep t). now destruct (split sep t).
  - apply N.eqb_neq in Hc. rewrite Hc, IH.
    now destruct (split sep t).
Qed.

Lemma split_sep sep t : split sep (sep :: t) = [] :: split sep t.
Proof. simpl. now rewrite N.eqb_refl. Qed.

End StrFacts.

Module ReFacts.

Import Re ReSpec.

(** *** What a match is

    [sem r st st']: the pattern [r] can take the matcher from [st] to
    [st'].  The matcher returns the first such path in its order of
    preference. *)
Lemma eat_sound p k st res :
  eat p k st = Some res ->
  exists c r, rest st = c :: r /\ p c = true /\ k (advance c r st) = Some res.
Proof.
  unfold eat. destruct (rest st) as [|c r]; [discriminate|].
  destruct (p c) eqn:E; [|discriminate]. eauto.
Qed.

Lemma orelse_some x y res :
  orelse x y = Some res -> x = Some res \/ (x = None /\ y tt = Some res).
Proof. destruct x; simpl; auto. Qed.

Lemma star_loop_sound g a body fuel :
  (forall k st res, body k st = Some res ->
                    exists st', sem a st st' /\ k st' = Some res) ->
  forall k st res,
    star_loop g body fuel k st = Some res ->
    exists st', sem (Star g a) st st' /\ k st' = Some res.
Proof.
  intros Hbody. induction fuel as [|f IH]; intros k st res H; simpl in H.
  - exists st. split; [constructor|exact H].
  - assert (Hagain :
              body (fun st' => if pos st <? pos st'
                               then star_loop g body f k st' else None) st
              = Some res ->
              exists st', sem (Star g a) st st' /\ k st' = Some res).
    { intros Hb. apply Hbody in Hb. destruct Hb as (st1 & Hs1 & Hk1).
      destruct (pos st <? pos st1) eqn:E; [|discriminate].
      apply Nat.ltb_lt in E.
      apply IH in Hk1. destruct Hk1 as (st2 & Hs2 & Hk2).
      exists st2. split; auto. eapply sem_star_cons; eauto. }
    destruct g; apply orelse_some in H; destruct H as [H|[_ H]]; auto;
      exists st; split; auto; constructor.
Qed.

(** Whatever the matcher returns went through a match of the pattern. *)
Lemma run_sound r :
  forall k st res,
    run r k st = Some res -> exists st', sem r st st' /\ k st' = Some res.
Proof.
  induction r as [|c|d|neg items|a IHa b IHb|a IHa b IHb|g a IHa|n a IHa
                  |positive a IHa| |]; intros k st res H; simpl in H.
  - exists st. split; [constructor|auto].
  - apply eat_sound in H. destruct H as (c' & r & Hr & Hc & Hk).
    apply N.eqb_eq in Hc. subst c'.
    eexists. split; [apply sem_chr; eauto|auto].
  - apply eat_sound in H. destruct H as (c' & r & Hr & Hc & Hk).
    eexists. split; [eapply sem_any; eauto|auto].
  - apply eat_sound in H. destruct H as (c' & r & Hr & Hc & Hk).
    eexists. split; [eapply sem_cls; eauto|auto].
  - apply IHa in H. destruct H as (st1 & Hs1 & H).
    apply IHb in H. destruct H as (st2 & Hs2 & H).
    exists st2. split; auto. econstructor; eauto.
  - apply orelse_some in H. destruct H as [H|[_ H]].
    + apply IHa in H. destruct H as (st1 & Hs1 & H).
      exists st1. split; auto. now apply sem_alt_l.
    + apply IHb in H. destruct H as (st1 & Hs1 & H).
      exists st1. split; auto. now apply sem_alt_r.
  - eapply star_loop_sound; eauto.
  - apply IHa in H. destruct H as (st1 & Hs1 & H).
    eexists. split; [apply sem_group; eauto|auto].
  - destruct (run a Some st) as [st1|] eqn:E.
    + destruct positive; [|discriminate].
      apply IHa in E. destruct E as (st2 & Hs2 & E).
      injection E as ->.
      eexists. split; [apply sem_look_pos; eauto|auto].
    + destruct positive; [discriminate|].
      exists st. split; auto. now apply sem_look_neg.
  - destruct (xorb (word_before st) (word_after st)) eqn:E; [|discriminate].
    exists st. split; auto. now constructor.
  - destruct (at_end st) eqn:E; [|discriminate].
    exists st. split; auto. now constructor.
Qed.

(** A match consumes a prefix of what is left and moves the position by
    its length. *)
Lemma sem_consumes r st st' :
  sem r st st' ->
  exists u, rest st = u ++ rest st' /\ pos st' = pos st + length u.
Proof.
  induction 1 as [s0|c s0 t E|d c s0 t E Hc|neg items c s0 t E Hc
                  |a b s0 s1 s2 _ IH1 _ IH2|a b s0 s1 _ IH|a b s0 s1 _ IH
                  |g a s0|g a s0 s1 s2 _ IH1 _ _ IH2|n a s0 s1 _ IH
                  |a s0 s1 _ IH|a s0 _|s0 _|s0 _];
    try (exists []; simpl; split; [reflexivity|lia]);
    try (exists [c]; simpl; split; [assumption|lia]);
    try assumption.
  - destruct IH1 as (u1 & E1 & P1), IH2 as (u2 & E2 & P2).
    exists (u1 ++ u2). rewrite E1, E2, <- app_assoc, length_app.
    split; auto. lia.
  - destruct IH1 as (u1 & E1 & P1), IH2 as (u2 & E2 & P2).
    exists (u1 ++ u2). rewrite E1, E2, <- app_assoc, length_app.
    split; auto. lia.
Qed.

(** *** A prefix every match must begin with *)

Lemma needs_sound r :
  forall l k st res,
    needs r l = true -> run r k st = Some res ->
    Str.starts_with l (rest st) = true.
Proof.
  induction r as [|c|d|neg items|a IHa b IHb|a IHa b IHb|g a IHa|n a IHa
                  |positive a IHa| |];
    intros [|c0 l] k st res Hn H; try reflexivity; simpl in Hn;
    try discriminate.
  - apply andb_prop in Hn. destruct Hn as [Hc Hl].
    destruct l; [|discriminate].
    simpl in H. apply eat_sound in H. destruct H as (c' & t & -> & Hc' & _).
    apply N.eqb_eq in Hc, Hc'. subst. simpl. now rewrite N.eqb_refl.
  - assert (Hgen : needs a (c0 :: l) = true ->
                   Str.starts_with (c0 :: l) (rest st) = true).
    { intros Ha. simpl in H. eapply IHa; eauto. }
    destruct a; auto.
    apply andb_prop in Hn. destruct Hn as [Hc Hl].
    simpl in H. apply eat_sound in H.
    destruct H as (c' & t & -> & Hc' & H).
    apply N.eqb_eq in Hc, Hc'. subst. simpl. rewrite N.eqb_refl. simpl.
    apply (IHb _ _ _ _ Hl H).
  - apply andb_prop in Hn. destruct Hn as [Ha Hb].
    simpl in H. apply orelse_some in H. destruct H as [H|[_ H]].
    + eapply IHa; eauto.
    + eapply IHb; eauto.
  - simpl in H. eapply IHa; eauto.
Qed.

(** *** Scanning *)

Lemma scan_go_keeps r s :
  forall skip p pv,
    Forall (fun x => match x with Keep c => In c s | Hit _ => True end)
           (scan_go r skip p pv s).
Proof.
  induction s as [|c s IH]; intros skip p pv.
  - destruct skip; simpl; [|constructor].
    destruct (match_at r p pv []); repeat constructor.
  - assert (Hs : forall skip p pv,
               Forall (fun x => match x with
                                | Keep d => In d (c :: s)
                                | Hit _ => True
                                end) (scan_go r skip p pv s)).
    { intros. eapply Forall_impl; [|apply IH].
      intros [d|m]; simpl; auto. }
    destruct skip; simpl; auto.
    destruct (match_at r p pv (c :: s)) as [st'|].
    + constructor; auto.
      destruct (pos st' <=? p); auto.
    + constructor; simpl; auto.
Qed.

Lemma slice_all (P : N -> Prop) s a b :
  Forall P s -> Forall P (Str.slice s a b).
Proof.
  intros H. unfold Str.slice.
  rewrite <- (firstn_skipn a s) in H. apply Forall_app in H.
  destruct H as [_ H].
  rewrite <- (firstn_skipn (b - a) (skipn a s)) in H.
  apply Forall_app in H. tauto.
Qed.

Lemma group_all (P : N -> Prop) s m n x :
  Forall P s -> group s m n = Some x -> Forall P x.
Proof.
  intros Hs. unfold group. destruct n.
  - intros [= <-]. now apply slice_all.
  - destruct (lookup (S n) (m_caps m)) as [[a b]|]; [|discriminate].
    intros [= <-]. now apply slice_all.
Qed.

(** What a substitution writes is made of the subject and of what the
    replacement adds. *)
Lemma sub_all (P : N -> Prop) r repl s :
  Forall P s ->
  (forall g, (forall n x, g n = Some x -> Forall P x) -> Forall P (repl g)) ->
  Forall P (sub r repl s).
Proof.
  intros Hs Hrepl. unfold sub, scan.
  pose proof (scan_go_keeps r s 0 0 None) as Hk.
  induction Hk as [|x l Hx _ IH]; simpl; [constructor|].
  apply Forall_app. split; auto.
  destruct x as [c|m].
  - constructor; auto. rewrite Forall_forall in Hs. auto.
  - apply Hrepl. intros n y. now apply group_all.
Qed.

Lemma expand_all (P : N -> Prop) t g :
  P 10%N -> Forall P t ->
  (forall n x, g n = Some x -> Forall P x) ->
  Forall P (expand t g).
Proof.
  intros Hnl Ht Hg.
  assert (Hgen : forall n : nat, forall u : text,
             (length u <= n)%nat -> Forall P u -> Forall P (expand u g)).
  { induction n as [|n IH]; intros u Hlen Hu.
    - destruct u; [constructor|simpl in Hlen; lia].
    - destruct u as [|c u]; [constructor|].
      inversion Hu as [|? ? Hc Hu']; subst. simpl.
      destruct (N.eqb c 92).
      + destruct u as [|d u]; [repeat constructor; auto|].
        inversion Hu' as [|? ? Hd Hu'']; subst.
        assert (Hrec : Forall P (expand u g))
          by (apply IH; auto; simpl in Hlen; lia).
        destruct (is_digit d).
        * destruct (g (N.to_nat (d - 48))) as [x|] eqn:E; auto.
          apply Forall_app. split; eauto.
        * destruct (N.eqb d 92) eqn:E92.
          { apply N.eqb_eq in E92. subst d. constructor; auto. }
          destruct (N.eqb d 110); constructor; auto.
          apply IH; auto. simpl in *. lia.
      + constructor; auto. apply IH; auto. simpl in *. lia. }
  apply (Hgen (length t)); auto.
Qed.

(** Where the pattern matches nowhere, everything is kept. *)
Lemma scan_go_no_match r s :
  (forall n p pv, match_at r p pv (skipn n s) = None) ->
  forall p pv, scan_go r 0 p pv s = map Keep s.
Proof.
  induction s as [|c s IH]; intros H p pv; simpl.
  - pose proof (H 0 p pv) as H0. simpl in H0. now rewrite H0.
  - pose proof (H 0 p pv) as H0. simpl in H0. rewrite H0. f_equal.
    apply IH. intros n q qv. apply (H (S n)).
Qed.

Lemma keep_all (f : mobj -> text) s :
  flat_map (fun x => match x with Keep c => [c] | Hit m => f m end)
           (map Keep s) = s.
Proof. induction s; simpl; congruence. Qed.

Lemma render_keep w repl s : render w repl (map Keep s) = Some s.
Proof. induction s; simpl; auto. now rewrite IHs. Qed.

(** A pattern whose matches all begin with [l] changes nothing in a text
    where [l] does not occur. *)
Lemma absent_no_match r l s :
  needs r l = true -> Str.contains l s = false ->
  forall n p pv, match_at r p pv (skipn n s) = None.
Proof.
  intros Hn Hc n p pv. unfold match_at.
  destruct (run r Some (mk_state p pv (skipn n s) [])) as [res|] eqn:E; auto.
  apply (needs_sound _ _ _ _ _ Hn) in E. simpl in E.
  apply (StrFacts.contains_skipn _ _ n) in Hc.
  apply StrFacts.contains_starts in Hc. congruence.
Qed.


Lemma sub_partial_absent r l repl s :
  needs r l = true -> Str.contains l s = false ->
  sub_partial r repl s = Some s.
Proof.
  intros Hn Hc. unfold sub_partial, scan.
  rewrite scan_go_no_match by (eapply absent_no_match; eauto).
  apply render_keep.
Qed.


(** *** Running the matcher over a known prefix *)

Lemma after_nil st : after [] (rest st) st = st.
Proof.
  destruct st as [p pv r cs]. unfold after. simpl. now rewrite Nat.add_0_r.
Qed.

Lemma after_cons c u t st :
  after (c :: u) t st = after u t (advance c (u ++ t) st).
Proof. unfold after. simpl. f_equal. lia. Qed.

Lemma after_app u v t st :
  after (u ++ v) t st = after v t (after u (v ++ t) st).
Proof.
  unfold after, prev_after. simpl.
  rewrite length_app, fold_left_app. f_equal. lia.
Qed.

Lemma run_lit l r k p pv t cs :
  run (lit l r) k (mk_state p pv (l ++ t) cs) =
  run r k (after l t (mk_state p pv (l ++ t) cs)).
Proof.
  revert p pv. induction l as [|c l IH]; intros p pv.
  - simpl. unfold after. simpl. now rewrite Nat.add_0_r.
  - simpl. unfold eat. simpl. rewrite N.eqb_refl.
    unfold advance. simpl. rewrite IH. unfold after. simpl.
    do 2 f_equal. lia.
Qed.

Lemma sem_lit l r st st' :
  sem (lit l r) st st' ->
  exists t, rest st = l ++ t /\ sem r (after l t st) st'.
Proof.
  revert st. induction l as [|c l IH]; intros st H.
  - exists (rest st). split; auto. now rewrite after_nil.
  - simpl in H. inversion H as [| | | |a b s0 s1 s2 H1 H2| | | | | | | | | ];
      subst.
    inversion H1 as [|c0 s0 t E| | | | | | | | | | | | ]; subst.
    apply IH in H2. destruct H2 as (t' & E' & H2). simpl in E'. subst t.
    exists t'. split; auto. now rewrite after_cons.
Qed.

Lemma star_loop_over g p k ds t :
  Forall (fun c => p c = true) ds -> stops p t ->
  forall fuel st,
    length ds <= fuel -> rest st = ds ++ t ->
    star_loop g (eat p) fuel k st =
    if g then greedy_over k ds t st else lazy_over k ds t st.
Proof.
  intros Hds Ht. induction Hds as [|c ds Hc Hds IH]; intros fuel st Hf E.
  - simpl in E.
    assert (Heat : forall k', eat p k' st = None).
    { intros k'. unfold eat. rewrite E. destruct t as [|c t]; auto.
      simpl in Ht. now rewrite Ht. }
    destruct fuel as [|f]; simpl; [now destruct g|].
    rewrite Heat. destruct g; simpl; auto. now destruct (k st).
  - destruct fuel as [|f]; [simpl in Hf; lia|].
    assert (Heat : forall k', eat p k' st = k' (advance c (ds ++ t) st)).
    { intros k'. unfold eat. rewrite E. simpl. now rewrite Hc. }
    simpl. rewrite Heat.
    assert (Hlt : (pos st <? pos (advance c (ds ++ t) st)) = true)
      by (apply Nat.ltb_lt; simpl; lia).
    rewrite Hlt. rewrite IH; [|simpl in Hf; lia|reflexivity].
    destruct g; reflexivity.
Qed.

Lemma run_star_cls g neg items k ds t st :
  Forall (fun c => in_cls neg items c = true) ds ->
  stops (in_cls neg items) t -> rest st = ds ++ t ->
  run (Star g (Cls neg items)) k st =
  if g then greedy_over k ds t st else lazy_over k ds t st.
Proof.
  intros Hds Ht E. simpl.
  change (fun (k0 : cont) (st0 : state) => eat (in_cls neg items) k0 st0)
    with (eat (in_cls neg items)).
  apply star_loop_over; auto.
  rewrite E, length_app. lia.
Qed.


(** The longest stretch wins when what follows succeeds there. *)
Lemma greedy_over_all k ds t st res :
  rest st = ds ++ t ->
  k (after ds t st) = Some res -> greedy_over k ds t st = Some res.
Proof.
  revert st. induction ds as [|c ds IH]; intros st E H; simpl.
  - simpl in E. rewrite <- E, after_nil in H. exact H.
  - rewrite after_cons in H.
    now rewrite (IH (advance c (ds ++ t) st) eq_refl H).
Qed.

(** *** Where the hits of a scan come from *)

Lemma scan_go_hits r s :
  forall skip p pv m,
    In (Hit m) (scan_go r skip p pv s) ->
    exists n pv' st',
      n <= length s /\
      match_at r (p + n) pv' (skipn n s) = Some st' /\
      m = mk_mobj (p + n) (pos st') (caps st').
Proof.
  induction s as [|c s IH]; intros skip p pv m H.
  - destruct skip; simpl in H; [|tauto].
    destruct (match_at r p pv []) as [st'|] eqn:E; simpl in H; [|tauto].
    destruct H as [[= <-]|[]].
    exists 0, pv, st'. rewrite Nat.add_0_r. simpl. auto.
  - assert (Hnext : forall skip pv,
               In (Hit m) (scan_go r skip (S p) pv s) ->
               exists n pv' st',
                 n <= length (c :: s) /\
                 match_at r (p + n) pv' (skipn n (c :: s)) = Some st' /\
                 m = mk_mobj (p + n) (pos st') (caps st')).
    { intros skip' pv0 H0. apply IH in H0.
      destruct H0 as (n & pv' & st' & Hn & Hm & ->).
      exists (S n), pv', st'. simpl.
      replace (p + S n) with (S p + n) by lia. repeat split; auto. lia. }
    destruct skip; simpl in H; eauto.
    destruct (match_at r p pv (c :: s)) as [st'|] eqn:E.
    + destruct H as [[= <-]|H].
      * exists 0, pv, st'. rewrite Nat.add_0_r. simpl.
        repeat split; auto. lia.
      * destruct (pos st' <=? p); [destruct H as [H|H]; [discriminate|]|];
          eauto.
    + destruct H as [H|H]; [discriminate|]. eauto.
Qed.

Lemma scan_hits r s m :
  In (Hit m) (scan r s) ->
  exists pv st',
    m_lo m <= length s /\
    match_at r (m_lo m) pv (skipn (m_lo m) s) = Some st' /\
    m_hi m = pos st' /\ m_caps m = caps st'.
Proof.
  intros H. apply scan_go_hits in H.
  destruct H as (n & pv & st' & Hn & Hm & ->). simpl.
  exists pv, st'. auto.
Qed.

Lemma at_pos_start s n pv cs :
  n <= length s -> at_pos s (mk_state n pv (skipn n s) cs).
Proof.
  intros H. exists (firstn n s). simpl.
  rewrite firstn_skipn, length_firstn. split; auto. lia.
Qed.

Lemma slice_app pre u post :
  Str.slice (pre ++ u ++ post) (length pre) (length pre + length u) = u.
Proof.
  unfold Str.slice.
  rewrite skipn_app, skipn_all, Nat.sub_diag. simpl.
  replace (length pre + length u - length pre) with (length u + 0) by lia.
  now rewrite firstn_app_2, app_nil_r.
Qed.

Lemma at_pos_slice s st u t :
  at_pos s st -> rest st = u ++ t ->
  Str.slice s (pos st) (pos st + length u) = u /\
  at_pos s (after u t st).
Proof.
  intros (pre & -> & Hp) E. rewrite E, <- Hp. split.
  - apply slice_app.
  - exists (pre ++ u). simpl. rewrite <- app_assoc, length_app.
    split; auto.
Qed.

(** *** Inverting matches *)

Lemma sem_seq_inv a b st st' :
  sem (Seq a b) st st' -> exists st1, sem a st st1 /\ sem b st1 st'.
Proof. inversion 1; subst; eauto. Qed.

Lemma sem_chr_inv c st st' :
  sem (Chr c) st st' ->
  exists t, rest st = c :: t /\ st' = after [c] t st.
Proof.
  inversion 1; subst. eexists. split; eauto.
  unfold after, advance. simpl. f_equal. lia.
Qed.

Lemma sem_cls_inv neg items st st' :
  sem (Cls neg items) st st' ->
  exists c t, in_cls neg items c = true /\ rest st = c :: t /\
              st' = after [c] t st.
Proof.
  inversion 1; subst. do 2 eexists. repeat split; eauto.
  unfold after, advance. simpl. f_equal. lia.
Qed.

Lemma sem_group_inv n a st st' :
  sem (Group n a) st st' ->
  exists st1, sem a st st1 /\
              st' = mk_state (pos st1) (prev st1) (rest st1)
                             ((n, (pos st, pos st1)) :: caps st1).
Proof. inversion 1; subst; eauto. Qed.

Lemma sem_star_cls g neg items st st' :
  sem (Star g (Cls neg items)) st st' ->
  exists ds, Forall (fun c => in_cls neg items c = true) ds /\
             rest st = ds ++ rest st' /\ st' = after ds (rest st') st.
Proof.
  intros H. remember (Star g (Cls neg items)) as r eqn:Er.
  induction H as [| | | | | | |g0 a s0|g0 a s0 s1 s2 H1 _ Hlt _ IH2
                  | | | | | ]; try discriminate.
  - exists []. repeat split; auto. now rewrite after_nil.
  - injection Er as -> ->.
    destruct (IH2 eq_refl) as (ds & Hds & E & ->).
    apply sem_cls_inv in H1. destruct H1 as (c & t & Hc & Et & ->).
    simpl in E. subst t.
    exists (c :: ds). repeat split; auto.
    change (c :: ds) with ([c] ++ ds). now rewrite after_app.
Qed.

Lemma sem_plus_cls g neg items st st' :
  sem (Seq (Cls neg items) (Star g (Cls neg items))) st st' ->
  exists c ds, Forall (fun c => in_cls neg items c = true) (c :: ds) /\
               rest st = (c :: ds) ++ rest st' /\
               st' = after (c :: ds) (rest st') st.
Proof.
  intros H. apply sem_seq_inv in H. destruct H as (st1 & H1 & H2).
  apply sem_cls_inv in H1. destruct H1 as (c & t & Hc & Et & ->).
  apply sem_star_cls in H2. destruct H2 as (ds & Hds & E & ->).
  simpl in E. subst t.
  exists c, ds. repeat split; auto.
  change (c :: ds) with ([c] ++ ds). now rewrite after_app.
Qed.

(** *** Skipping over a match *)

Lemma scan_go_skip r u t :
  forall p pv,
    scan_go r (length u) p pv (u ++ t) =
    scan_go r 0 (p + length u) (prev_after u pv) t.
Proof.
  induction u as [|c u IH]; intros p pv; simpl.
  - now rewrite Nat.add_0_r.
  - rewrite IH. f_equal. lia.
Qed.

(** A hit that covers the non-empty [u]. *)
Lemma scan_go_hit r c u t p pv st' :
  match_at r p pv (c :: u ++ t) = Some st' ->
  pos st' = p + length (c :: u) ->
  scan_go r 0 p pv (c :: u ++ t) =
  Hit (mk_mobj p (pos st') (caps st')) ::
  scan_go r 0 (p + length (c :: u)) (prev_after (c :: u) pv) t.
Proof.
  intros Hm Hp. simpl. rewrite Hm.
  assert (H1 : (pos st' <=? p) = false)
    by (apply Nat.leb_gt; simpl in Hp; lia).
  rewrite H1.
  replace (pos st' - p - 1) with (length u) by (simpl in Hp; lia).
  rewrite scan_go_skip. simpl. f_equal. f_equal. lia.
Qed.

Lemma scan_go_hit_app r u t p pv st' :
  u <> [] ->
  match_at r p pv (u ++ t) = Some st' ->
  pos st' = p + length u ->
  scan_go r 0 p pv (u ++ t) =
  Hit (mk_mobj p (pos st') (caps st')) ::
  scan_go r 0 (p + length u) (prev_after u pv) t.
Proof.
  destruct u as [|c u]; [congruence|]. intros _. apply scan_go_hit.
Qed.

Lemma scan_go_miss r c t p pv :
  match_at r p pv (c :: t) = None ->
  scan_go r 0 p pv (c :: t) = Keep c :: scan_go r 0 (S p) (Some c) t.
Proof. intros H. simpl. now rewrite H. Qed.

(** *** The equations of the matcher *)

Lemma run_seq a b k st : run (Seq a b) k st = run a (run b k) st.
Proof. reflexivity. Qed.

Lemma run_alt a b k st :
  run (Alt a b) k st = orelse (run a k st) (fun _ => run b k st).
Proof. reflexivity. Qed.

Lemma run_group n a k st :
  run (Group n a) k st =
  run a (fun st' =>
           k (mk_state (pos st') (prev st') (rest st')
                       ((n, (pos st, pos st')) :: caps st'))) st.
Proof. reflexivity. Qed.

Lemma run_chr c k st :
  run (Chr c) k st = eat (N.eqb c) k st.
Proof. reflexivity. Qed.

Lemma run_cls neg items k st :
  run (Cls neg items) k st = eat (in_cls neg items) k st.
Proof. reflexivity. Qed.

Lemma eat_cons p k c t st :
  rest st = c :: t -> p c = true -> eat p k st = k (advance c t st).
Proof. intros E Hc. unfold eat. now rewrite E, Hc. Qed.

Lemma eat_cons_no p k c t st :
  rest st = c :: t -> p c = false -> eat p k st = None.
Proof. intros E Hc. unfold eat. now rewrite E, Hc. Qed.

Lemma eat_nil p k st : rest st = [] -> eat p k st = None.
Proof. intros E. unfold eat. now rewrite E. Qed.

Lemma eat_stops p k st : stops p (rest st) -> eat p k st = None.
Proof.
  unfold eat. destruct (rest st) as [|c t]; simpl; auto.
  now intros ->.
Qed.

(** *** The literal a pattern begins with *)

Lemma split_lit_eq r : lit (fst (split_lit r)) (snd (split_lit r)) = r.
Proof.
  induction r as [|c|d|neg items|a IHa b IHb|a IHa b IHb|g a IHa|n a IHa
                  |positive a IHa| |]; try reflexivity.
  destruct a; try reflexivity.
  simpl. destruct (split_lit b) as [l r']. simpl in *. now rewrite IHb.
Qed.

Lemma sem_prefix r st st' :
  sem r st st' ->
  exists t, rest st = fst (split_lit r) ++ t /\
            sem (snd (split_lit r)) (after (fst (split_lit r)) t st) st'.
Proof. rewrite <- (split_lit_eq r) at 1. apply sem_lit. Qed.


(** *** Runs of digits *)

Lemma in_digit c : in_cls false [Digit] c = is_digit c.
Proof. unfold in_cls. simpl. now rewrite orb_false_r. Qed.

Lemma digits_cls d :
  digits d -> Forall (fun c => in_cls false [Digit] c = true) d.
Proof.
  intros H. eapply Forall_impl; [|exact H].
  intros c. cbv beta. now rewrite in_digit.
Qed.

Lemma cls_digits d :
  Forall (fun c => in_cls false [Digit] c = true) d -> digits d.
Proof.
  intros H. eapply Forall_impl; [|exact H].
  intros c. cbv beta. now rewrite in_digit.
Qed.

Lemma stops_digit t : stops is_digit t -> stops (in_cls false [Digit]) t.
Proof. destruct t; cbn [stops]; auto. now rewrite in_digit. Qed.

Lemma render_total w repl l :
  (forall m, In (Hit m) l -> repl (group w m) <> None) ->
  exists t, render w repl l = Some t.
Proof.
  induction l as [|[c|m] l IH]; intros H; simpl.
  - now exists [].
  - destruct IH as [t ->]; [intros; apply H; now right|]. simpl. eauto.
  - destruct (repl (group w m)) as [x|] eqn:E.
    + destruct IH as [t ->]; [intros; apply H; now right|]. simpl. eauto.
    + exfalso. apply (H m); auto. now left.
Qed.


Lemma run_chr_cons c k t st :
  rest st = c :: t -> run (Chr c) k st = k (after [c] t st).
Proof.
  intros E. rewrite run_chr, (eat_cons _ _ c t); auto using N.eqb_refl.
  f_equal. unfold after, advance. simpl. f_equal. lia.
Qed.

(** *** Scanning piece by piece *)





End ReFacts.

(** ** The patterns of the converter *)

Module PatternFacts.

Import Lit Re Convert.

(** Every pattern of the embedded functions is in the syntax that [parse]
    reads. *)
Lemma patterns_parse :
  Forall (fun r => r <> never)
         [ re_c; re_cp; re_cp_dotall; re_book_id; re_ca; re_ca_dotall;
           re_book_osisID; re_chapter_span; re_cl; re_cd; re_v; re_vp;
           re_vp_dotall; re_verse_id; re_va; re_va_dotall; re_verse_osisID;
           re_verse_span; re_qa; re_qac; re_qs; re_q; re_q_level; re_q_type;
           re_l; re_lg; re_pb; re_fdc; re_fq; re_fqa; re_ft; re_fr; re_fk;
           re_fl; re_fp; re_note_p; re_fv; re_f_close; re_f; re_fe; re_note;
           re_fm; re_xot; re_xnt; re_xdc; re_xq; re_xo; re_xk; re_xt;
           re_xtSee; re_xtSeeAlso; re_x_close; re_x; re_xref_note; re_digits;
           re_range; re_series; re_book_value; re_chap_value; re_order1;
           re_order2; re_order3; re_order4; re_order5; re_order6;
           re_end_tag_attrs; re_close_spaces; re_spaces; re_blank_lines ] /\
  Forall (fun end_block =>
            rx (py "\s+</" ++ end_block ++ py ">") <> never /\
            rx (py "\s+<" ++ end_block ++ py "( eID=[^/>]+/>)") <> never)
         end_blocks.
Proof.
  split.
  - repeat (apply Forall_cons; [discriminate|]). apply Forall_nil.
  - unfold end_blocks.
    repeat (apply Forall_cons; [split; vm_compute; discriminate|]).
    apply Forall_nil.
Qed.

End PatternFacts.

(** ** Identifier placeholders *)

Module OsisIDFacts.

Import Lit Re ReSpec ReFacts Convert OsisIDs.

Lemma match_digits c d t p pv :
  digits (c :: d) -> stops is_digit t ->
  match_at re_digits p pv ((c :: d) ++ t) =
  Some (after (c :: d) t (mk_state p pv ((c :: d) ++ t) [])).
Proof.
  intros Hd Ht. inversion Hd as [|? ? Hc Hd']; subst.
  unfold match_at, re_digits. rewrite run_seq, run_cls.
  rewrite (eat_cons _ _ c (d ++ t)); [|reflexivity|now rewrite in_digit].
  rewrite (run_star_cls true false [Digit] Some d t);
    [|now apply digits_cls|now apply stops_digit|reflexivity].
  rewrite after_cons. now apply greedy_over_all.
Qed.

Lemma no_match_digits t p pv :
  stops is_digit t -> match_at re_digits p pv t = None.
Proof.
  intros Ht. unfold match_at, re_digits. rewrite run_seq, run_cls.
  apply eat_stops. now apply stops_digit.
Qed.

Lemma findall_from_numeral pre d t pv :
  d <> [] -> digits d -> stops is_digit t ->
  findall_from (pre ++ d ++ t) (length pre) pv (d ++ t) =
  d :: findall_from (pre ++ d ++ t) (length pre + length d)
         (prev_after d pv) t.
Proof.
  intros Hne Hd Ht. destruct d as [|c d]; [congruence|].
  unfold findall_from. rewrite <- !app_comm_cons.
  rewrite (scan_go_hit re_digits c d t (length pre) pv _
             (match_digits c d t (length pre) pv Hd Ht) eq_refl).
  cbn [hits map m_lo m_hi pos after]. f_equal.
  apply (slice_app pre (c :: d) t).
Qed.

Lemma findall_from_sep w c t p pv :
  is_digit c = false ->
  findall_from w p pv (c :: t) = findall_from w (S p) (Some c) t.
Proof.
  intros Hc. unfold findall_from.
  rewrite scan_go_miss; [reflexivity|].
  now apply no_match_digits.
Qed.

Lemma findall_from_nil w p pv : findall_from w p pv [] = [].
Proof.
  unfold findall_from. cbn [scan_go].
  now rewrite (no_match_digits [] p pv I).
Qed.

(** The numbers of a list of numerals joined by a separator that is no
    digit are found again, in their order. *)
Lemma findall_join c l :
  is_digit c = false -> numerals l ->
  forall pre pv,
    findall_from (pre ++ Str.join [c] l) (length pre) pv (Str.join [c] l)
    = l.
Proof.
  intros Hc Hl. induction Hl as [|d l [Hne Hd] Hl IH]; intros pre pv.
  - apply findall_from_nil.
  - destruct l as [|e l].
    + pose proof (findall_from_numeral pre d [] pv Hne Hd I) as H.
      rewrite !app_nil_r in H. cbn [Str.join]. rewrite H.
      now rewrite findall_from_nil.
    + change (Str.join [c] (d :: e :: l))
        with (d ++ c :: Str.join [c] (e :: l)).
      rewrite findall_from_numeral; auto. f_equal.
      rewrite findall_from_sep; auto.
      specialize (IH (pre ++ d ++ [c]) (Some c)).
      rewrite <- !app_assoc, !length_app in IH. simpl in IH.
      replace (S (length pre + length d))
        with (length pre + (length d + 1)) by lia.
      exact IH.
Qed.

Lemma findall_digits_join c l :
  is_digit c = false -> numerals l ->
  findall re_digits (Str.join [c] l) = l.
Proof.
  intros Hc Hl. apply (findall_join c l Hc Hl [] None).
Qed.

(** *** Decimal numerals *)







Lemma digit_not c x : is_digit c = true -> is_digit x = false -> c <> x.
Proof. intros H1 H2 ->. congruence. Qed.

(** *** The two expansions, as functions *)



(** *** The range pattern on a range *)




(** *** The series pattern on expanded identifiers *)








(** *** Filling in identifiers *)





End OsisIDFacts.

(** ** Range and series expansion *)

Module ExpansionFacts.

Import Lit Re ReSpec ReFacts Convert OsisIDs OsisIDFacts Expansion.






End ExpansionFacts.


Module SeriesFacts.

Import Lit Re ReSpec ReFacts Convert OsisIDs OsisIDFacts Expansion ExpansionFacts.







Section Series.

Variables (c : N) (d : text) (c2 : N) (d2 : text) (l : list text).
Hypotheses (Hd : digits (c :: d)) (He : digits (c2 :: d2))
           (Hl : numerals l).





End Series.

End SeriesFacts.


(** ** No scope marker reaches the output *)

Module MarkerFacts.

Import Lit Re ReSpec ReFacts Convert OsisIDs OsisIDFacts Markers.

Lemma plain_forallb s :
  forallb (fun c => negb (is_scope_marker c)) s = true -> plain s.
Proof.
  intros H. apply Forall_forall. intros c Hc.
  rewrite forallb_forall in H. apply H in Hc.
  unfold unmarked. now destruct (is_scope_marker c).
Qed.

Lemma plain_dec s : plain s \/ exists c, In c s /\ is_scope_marker c = true.
Proof.
  induction s as [|c s [IH|(d & Hd & Hm)]].
  - left. constructor.
  - destruct (is_scope_marker c) eqn:E.
    + right. exists c. split; [now left|auto].
    + left. now constructor.
  - right. exists d. split; [now right|auto].
Qed.

Lemma plain_app s t : plain s -> plain t -> plain (s ++ t).
Proof. intros. apply Forall_app. now split. Qed.

(** Every code point of the range is in the list of the cleanup pass. *)
Lemma marker_listed c : is_scope_marker c = true -> In c scope_markers.
Proof.
  unfold is_scope_marker. intros H. apply andb_prop in H.
  destruct H as [H1 H2]. apply N.leb_le in H1, H2.
  assert (E : c = (64976 + N.of_nat (N.to_nat (c - 64976)))%N) by lia.
  assert (Hn : N.to_nat (c - 64976) < 32) by lia.
  rewrite E. clear E H1 H2.
  remember (N.to_nat (c - 64976)) as k eqn:Ek. clear Ek.
  do 32 (destruct k as [|k];
         [vm_compute; repeat (first [left; reflexivity | right])|]).
  lia.
Qed.

(** *** The deletion loop *)

Lemma delete_all (Q : N -> Prop) l s :
  Forall Q s ->
  Forall (fun d => Q d /\ ~ In d l)
         (fold_left (fun osis c => Str.replace [c] [] osis) l s).
Proof.
  revert Q s. induction l as [|c l IH]; intros Q s Hs; simpl.
  - eapply Forall_impl; [|exact Hs]. tauto.
  - assert (H1 : Forall (fun d => Q d /\ d <> c) (Str.replace [c] [] s)).
    { apply Forall_forall. intros d Hd. split.
      - pose proof (StrFacts.replace_all Q [c] [] s (Forall_nil _) Hs) as H.
        rewrite Forall_forall in H. auto.
      - pose proof (StrFacts.delete_char_go c 0 s (Nat.le_0_l 1)) as H.
        rewrite Forall_forall in H. now apply H. }
    apply IH in H1. eapply Forall_impl; [|exact H1].
    simpl. intros d [[Hq Hc] Hl]. split; auto.
    intros [E|E]; auto.
Qed.

Lemma delete_markers s :
  plain (fold_left (fun osis c => Str.replace [c] [] osis) scope_markers s).
Proof.
  pose proof (delete_all (fun _ => True) scope_markers s) as H.
  eapply Forall_impl; [|apply H].
  - intros d [_ Hd]. unfold unmarked.
    destruct (is_scope_marker d) eqn:E; auto.
    elim Hd. now apply marker_listed.
  - apply Forall_forall. auto.
Qed.

(** *** What follows the deletion writes no marker *)

Lemma sub_expand_plain r t s :
  plain t -> plain s -> plain (Re.sub r (Re.expand t) s).
Proof.
  intros Ht Hs. apply sub_all; auto.
  intros g Hg. apply expand_all; auto. reflexivity.
Qed.

Lemma end_block_plain end_block s :
  plain end_block -> plain s ->
  plain
    (Re.sub (Re.rx (py "\s+<" ++ end_block ++ py "( eID=[^/>]+/>)"))
            (Re.expand (py "<" ++ end_block ++ raw "\1" ++ py "\n"))
            (Re.sub (Re.rx (py "\s+</" ++ end_block ++ py ">"))
                    (Re.expand (py "</" ++ end_block ++ raw ">\n")) s)).
Proof.
  intros Hb Hs.
  apply sub_expand_plain.
  - apply plain_app; [now apply plain_forallb|].
    apply plain_app; [exact Hb|now apply plain_forallb].
  - apply sub_expand_plain; auto.
    apply plain_app; [now apply plain_forallb|].
    apply plain_app; [exact Hb|now apply plain_forallb].
Qed.

Lemma end_blocks_plain l s :
  Forall plain l -> plain s ->
  plain
    (fold_left
       (fun osis end_block =>
          let osis :=
            Re.sub (Re.rx (py "\s+</" ++ end_block ++ py ">"))
                   (Re.expand (py "</" ++ end_block ++ raw ">\n")) osis in
          Re.sub (Re.rx (py "\s+<" ++ end_block ++ py "( eID=[^/>]+/>)"))
                 (Re.expand (py "<" ++ end_block ++ raw "\1" ++ py "\n"))
                 osis)
       l s).
Proof.
  intros Hl. revert s.
  induction Hl as [|b l Hb _ IH]; intros s Hs; cbn [fold_left].
  - exact Hs.
  - apply IH. now apply end_block_plain.
Qed.

Lemma osis_reorder_and_cleanup_plain osis :
  plain (osis_reorder_and_cleanup osis).
Proof.
  unfold osis_reorder_and_cleanup. cbv zeta.
  do 3 (apply sub_expand_plain; [now apply plain_forallb|]).
  apply end_blocks_plain.
  - repeat constructor; now apply plain_forallb.
  - apply delete_markers.
Qed.

(** *** The special books *)

Lemma contains_In p s c :
  Str.contains p s = true -> In c p -> In c s.
Proof.
  induction s as [|d s IH]; cbn [Str.contains]; intros H Hc.
  - rewrite orb_false_r in H. destruct p; [destruct Hc|discriminate].
  - apply orb_prop in H. destruct H as [H|H].
    + apply StrFacts.starts_with_split in H.
      destruct H as [t ->]. apply in_or_app. now left.
    + right. auto.
Qed.

Lemma lower_plain s : plain s -> plain (Str.lower s).
Proof.
  intros H. unfold Str.lower. apply Forall_map.
  eapply Forall_impl; [|exact H].
  intros c. unfold unmarked, is_scope_marker, Str.lower_char.
  destruct (N.leb 65 c && N.leb c 90)%bool eqn:E; auto.
  intros _. apply andb_prop in E. destruct E as [_ E].
  apply N.leb_le in E. apply andb_false_iff. left.
  apply N.leb_gt. lia.
Qed.

Lemma retype_special_books_plain SPECIAL_BOOKS osis :
  plain osis -> plain (retype_special_books SPECIAL_BOOKS osis).
Proof.
  unfold retype_special_books. revert osis.
  induction SPECIAL_BOOKS as [|sb l IH]; intros osis H; cbn [fold_left];
    auto.
  apply IH. destruct (plain_dec sb) as [Hsb|(c & Hc & Hm)].
  - apply StrFacts.replace_all; auto.
    apply plain_app; [now apply plain_forallb|].
    apply plain_app; [now apply lower_plain|now apply plain_forallb].
  - rewrite StrFacts.replace_absent; auto.
    destruct (Str.contains _ osis) eqn:E; auto.
    assert (Hin : In c osis).
    { eapply contains_In; [exact E|].
      apply in_or_app. right. apply in_or_app. now left. }
    unfold plain in H. rewrite Forall_forall in H. apply H in Hin.
    unfold unmarked in Hin. congruence.
Qed.

(** *** [process_osisIDs] returns *)

Lemma range_hit_expands s m :
  In (Hit m) (scan re_range s) ->
  expand_range (grp (group s m) 1) <> None.
Proof.
  intros H. apply scan_hits in H.
  destruct H as (pv & st' & Hlo & Hm & _ & Hcaps).
  unfold match_at in Hm. apply run_sound in Hm.
  destruct Hm as (st1 & Hs & E). injection E as <-.
  pose proof (at_pos_start s (m_lo m) pv [] Hlo) as Hat.
  apply sem_prefix in Hs. destruct Hs as (t0 & Et & Hs).
  match type of Hs with
  | context [snd (split_lit re_range)] =>
      let b := eval vm_compute in (snd (split_lit re_range)) in
      change (snd (split_lit re_range)) with b in Hs
  end.
  change (fst (split_lit re_range)) with placeholder in Et, Hs.
  destruct (at_pos_slice _ _ _ _ Hat Et) as [_ Hat1].
  set (st0 := after placeholder t0
                    (mk_state (m_lo m) pv (skipn (m_lo m) s) [])) in *.
  apply sem_seq_inv in Hs. destruct Hs as (s1 & Hs & Hq).
  apply sem_group_inv in Hs. destruct Hs as (s2 & Hs & ->).
  apply sem_chr_inv in Hq. destruct Hq as (t1 & _ & ->).
  apply sem_seq_inv in Hs. destruct Hs as (s3 & Hplus & Hs).
  apply sem_plus_cls in Hplus.
  destruct Hplus as (c1 & d1 & Hd1 & Er1 & E3).
  apply sem_seq_inv in Hs. destruct Hs as (s4 & Hs & Hplus).
  apply sem_chr_inv in Hs. destruct Hs as (t2 & Et2 & ->).
  apply sem_plus_cls in Hplus.
  destruct Hplus as (c2 & d2 & Hd2 & Er2 & E2).
  cbn [rest after] in Er2.
  assert (Eg : rest st0 =
               ((c1 :: d1) ++ 45%N :: c2 :: d2) ++ rest s2).
  { rewrite Er1, Et2, Er2. now rewrite <- app_assoc. }
  assert (Hpos : pos s2 =
                 pos st0 + length ((c1 :: d1) ++ 45%N :: c2 :: d2)).
  { rewrite E2. cbn [pos after]. rewrite E3. cbn [pos after].
    rewrite length_app. simpl. lia. }
  destruct (at_pos_slice _ _ _ _ Hat1 Eg) as [Hslice _].
  unfold grp, group. rewrite Hcaps. cbn [caps after lookup Nat.eqb].
  rewrite Hpos, Hslice.
  unfold expand_range.
  change ((c1 :: d1) ++ 45%N :: c2 :: d2)
    with (Str.join [45%N] [c1 :: d1; c2 :: d2]).
  rewrite findall_digits_join; [discriminate|reflexivity|].
  constructor; [split; [discriminate|now apply cls_digits]|].
  constructor; [split; [discriminate|now apply cls_digits]|constructor].
Qed.

Lemma process_osisIDs_returns osis :
  exists out, process_osisIDs osis = Some out.
Proof.
  unfold process_osisIDs, expand_ranges_and_series.
  destruct (Re.sub_partial re_range _ osis) as [t|] eqn:E;
    [simpl; eauto|].
  exfalso. unfold Re.sub_partial in E.
  match type of E with
  | render ?w ?f ?l = None => destruct (render_total w f l) as [t Ht]
  end.
  - intros m Hm. apply range_hit_expands in Hm.
    destruct (expand_range (grp (group osis m) 1)); [discriminate|].
    congruence.
  - congruence.
Qed.

End MarkerFacts.

(** C1.  Whatever text the stages hand over, [ConvertToOSIS] returns a text,
    and that text has no code point from U+FDD0 to U+FDEF: the cleanup pass
    [osis_reorder_and_cleanup] leaves none, whatever it is given, and the
    retyping of the special books that follows it adds none, whatever the
    table of the special books holds. *)
Theorem no_scope_marker_in_output (SPECIAL_BOOKS : list text) (osis : text) :
  (exists out,
      Convert.finish SPECIAL_BOOKS osis = Some out /\
      forall c, In c out -> ~ (64976 <= c <= 65007)%N) /\
  (forall c, In c (Convert.osis_reorder_and_cleanup osis) ->
             ~ (64976 <= c <= 65007)%N).
Proof.
  assert (Hplain : forall s, Markers.plain s ->
                             forall c, In c s -> ~ (64976 <= c <= 65007)%N).
  { intros s Hs c Hc [H1 H2]. unfold Markers.plain in Hs.
    rewrite Forall_forall in Hs. apply Hs in Hc.
    unfold Markers.unmarked, Markers.is_scope_marker in Hc.
    apply andb_false_iff in Hc. destruct Hc as [Hc|Hc];
      apply N.leb_gt in Hc; lia. }
  split.
  - unfold Convert.finish.
    destruct (MarkerFacts.process_osisIDs_returns osis) as [t ->].
    simpl. eexists. split; [reflexivity|].
    apply Hplain. apply MarkerFacts.retype_special_books_plain.
    apply MarkerFacts.osis_reorder_and_cleanup_plain.
  - apply Hplain. apply MarkerFacts.osis_reorder_and_cleanup_plain.
Qed.

(** ** Text that a stage leaves as it is *)

Module StageFacts.

Import Lit Re ReSpec ReFacts Convert Stages.








(** The [n] attribute that the three note patterns write for the caller
    they captured. *)
Lemma note_n_caller c :
  note_n (Some (py "-")) = Some (py " n=''") /\
  note_n (Some (py "+")) = Some [] /\
  (c <> py "-" -> c <> py "+" ->
   note_n (Some c) = Some (py " n='" ++ c ++ py "'")).
Proof.
  split; [reflexivity|]. split; [reflexivity|].
  intros H1 H2. unfold note_n, Str.eqb.
  destruct (list_eq_dec N.eq_dec c (py "-")); [contradiction|].
  destruct (list_eq_dec N.eq_dec c (py "+")); [contradiction|].
  reflexivity.
Qed.

End StageFacts.




(** C10.  The [n] attribute of the note written for a caller: [-] gives an
    empty [n], [+] gives none, and for [\f] and [\x] another caller is
    written into [n]; for [\fe] only the first character of the caller gets
    there and the rest of the caller opens the text of the note. *)
Theorem note_caller_attribute :
  Convert.cvt_footnotes (Lit.raw "\f - text\f*") false =
  Some (Lit.py "<note n='' placement='foot'>text</note>") /\
  Convert.cvt_footnotes (Lit.raw "\f + text\f*") false =
  Some (Lit.py "<note placement='foot'>text</note>") /\
  Convert.cvt_footnotes (Lit.raw "\f ab text\f*") false =
  Some (Lit.py "<note n='ab' placement='foot'>text</note>") /\
  Convert.cvt_footnotes (Lit.raw "\fe - text\fe*") false =
  Some (Lit.py "<note n='' placement='end'>text</note>") /\
  Convert.cvt_footnotes (Lit.raw "\fe + text\fe*") false =
  Some (Lit.py "<note placement='end'>text</note>") /\
  Convert.cvt_footnotes (Lit.raw "\fe ab text\fe*") false =
  Some (Lit.py "<note n='a' placement='end'>b text</note>") /\
  Convert.cvt_cross_references (Lit.raw "\x - text\x*") false =
  Some (Lit.py "<note n='' type='crossReference'>text</note>") /\
  Convert.cvt_cross_references (Lit.raw "\x + text\x*") false =
  Some (Lit.py "<note type='crossReference'>text</note>") /\
  Convert.cvt_cross_references (Lit.raw "\x ab text\x*") false =
  Some (Lit.py "<note n='ab' type='crossReference'>text</note>").
Proof. repeat split; vm_compute; reflexivity. Qed.

(** ** Identifier placeholders *)

Module PlaceholderFacts.

Import Lit Re ReSpec ReFacts Convert Placeholders.

Lemma dollar_free_all t :
  dollar_free t = true -> Forall (fun c => c <> 36%N) t.
Proof.
  unfold dollar_free. intros H. apply Forall_forall. intros c Hc.
  rewrite forallb_forall in H. apply H in Hc.
  apply negb_true_iff in Hc. now apply N.eqb_neq.
Qed.

Lemma flat_cons k l : flat (k :: l) = spell k ++ flat l.
Proof. reflexivity. Qed.

Lemma flat_app l1 l2 : flat (l1 ++ l2) = flat l1 ++ flat l2.
Proof. unfold flat. now rewrite map_app, concat_app. Qed.

Lemma flat_plain t : flat (map Plain t) = t.
Proof. induction t as [|c t IH]; auto. rewrite map_cons, flat_cons, IH. reflexivity. Qed.

(** *** Reading the tokens *)

Lemma tokens_go_skip u t : tokens_go (length u) (u ++ t) = tokens_go 0 t.
Proof. induction u as [|c u IH]; simpl; auto. Qed.

Lemma tokens_flat n :
  forall t l,
    length t <= n -> tokens_go 0 t = Some l -> flat l = t /\ Forall ok l.
Proof.
  induction n as [|n IH]; intros t l Hn H.
  - destruct t; [|simpl in Hn; lia]. injection H as <-. split; constructor.
  - destruct t as [|c t]; [injection H as <-; split; constructor|].
    cbn [tokens_go] in H. simpl in Hn.
    destruct (N.eqb c 36) eqn:Ec.
    + destruct (Str.starts_with book_token (c :: t)) eqn:Eb;
        [|destruct (Str.starts_with chap_token (c :: t)) eqn:Eh;
          [|discriminate]].
      * apply StrFacts.starts_with_split in Eb. destruct Eb as [r Er].
        injection Er as -> ->.
        change (tokens_go 6 (66%N :: 79%N :: 79%N :: 75%N :: 36%N :: 46%N :: r))
          with (tokens_go (length (tl book_token)) (tl book_token ++ r)) in H.
        rewrite tokens_go_skip in H.
        destruct (tokens_go 0 r) as [l'|] eqn:Er; [|discriminate].
        injection H as <-.
        destruct (IH r l') as [H1 H2]; auto; [simpl in Hn; lia|].
        split; [|constructor; simpl; auto].
        rewrite flat_cons, H1. reflexivity.
      * apply StrFacts.starts_with_split in Eh. destruct Eh as [r Er].
        injection Er as -> ->.
        change (tokens_go 6 (67%N :: 72%N :: 65%N :: 80%N :: 36%N :: 46%N :: r))
          with (tokens_go (length (tl chap_token)) (tl chap_token ++ r)) in H.
        rewrite tokens_go_skip in H.
        destruct (tokens_go 0 r) as [l'|] eqn:Er; [|discriminate].
        injection H as <-.
        destruct (IH r l') as [H1 H2]; auto; [simpl in Hn; lia|].
        split; [|constructor; simpl; auto].
        rewrite flat_cons, H1. reflexivity.
    + destruct (tokens_go 0 t) as [l'|] eqn:Et; [|discriminate].
      injection H as <-.
      destruct (IH t l') as [H1 H2]; auto; [lia|].
      split; [now rewrite flat_cons, H1|].
      constructor; auto. simpl. now apply N.eqb_neq.
Qed.

Lemma disciplined_tokens t :
  disciplined t = true -> exists l, t = flat l /\ Forall ok l.
Proof.
  unfold disciplined. destruct (tokens_go 0 t) as [l|] eqn:E; [|discriminate].
  intros _. exists l.
  destruct (tokens_flat (length t) t l (Nat.le_refl _) E) as [H1 H2].
  split; auto.
Qed.

(** *** Chunks *)

Lemma collect {A : Type} (f : A -> text) l :
  forall a, fold_left (fun acc x => acc ++ f x) l a = a ++ concat (map f l).
Proof.
  induction l as [|x l IH]; intros a; simpl.
  - now rewrite app_nil_r.
  - now rewrite IH, app_assoc.
Qed.

Lemma fill_book_and_chapter_values_chunks osis :
  fill_book_and_chapter_values osis =
  concat (map fill_book (Str.split 64976 osis)).
Proof. unfold fill_book_and_chapter_values. now rewrite collect. Qed.

(** The chunks of a sequence of tokens are sequences of tokens. *)
Lemma split_flat sep (Q : token -> Prop) l :
  existsb (N.eqb sep) (book_token ++ chap_token) = false ->
  Forall Q l ->
  exists ls, Str.split sep (flat l) = map flat ls /\ Forall (Forall Q) ls.
Proof.
  intros Hsep Hl.
  assert (Hb : Forall (fun c => c <> sep) book_token /\
               Forall (fun c => c <> sep) chap_token).
  { apply Forall_app. apply Forall_forall. intros c Hc ->.
    assert (existsb (N.eqb sep) (book_token ++ chap_token) = true)
      by (apply existsb_exists; exists sep; split;
          auto using N.eqb_refl).
    congruence. }
  destruct Hb as [Hb Hc].
  induction Hl as [|k l Hk Hl (ls & E & Hls)].
  - exists [[]]. split; [reflexivity|]. repeat constructor.
  - pose proof (StrFacts.split_nonempty sep (flat l)) as Hne.
    destruct ls as [|l0 ls]; [rewrite E in Hne; now elim Hne|].
    inversion Hls as [|? ? Hl0 Hls']; subst.
    assert (Hpass : forall p, Forall (fun c => c <> sep) p -> spell k = p ->
              exists ls', Str.split sep (flat (k :: l)) = map flat ls' /\
                          Forall (Forall Q) ls').
    { intros p Hp Ep. exists ((k :: l0) :: ls).
      rewrite flat_cons, Ep, StrFacts.split_app, E by exact Hp.
      cbn [map]. rewrite flat_cons, Ep. split; [reflexivity|].
      constructor; auto. }
    destruct k as [c| |].
    + destruct (N.eq_dec c sep) as [->|Hne'].
      * exists ([] :: l0 :: ls). rewrite flat_cons.
        cbn [spell app]. rewrite StrFacts.split_sep, E.
        split; [reflexivity|]. constructor; auto.
      * apply (Hpass [c]); [|reflexivity]. now constructor.
    + now apply (Hpass book_token).
    + now apply (Hpass chap_token).
Qed.

(** *** Replacing a placeholder *)

Lemma replace_flat old new (f : token -> text) l :
  (forall k t, In k l ->
               Str.replace_go old new 0 (spell k ++ t) =
               f k ++ Str.replace_go old new 0 t) ->
  Str.replace old new (flat l) = concat (map f l).
Proof.
  unfold Str.replace. induction l as [|k l IH]; intros H; auto.
  rewrite flat_cons, H by now left.
  cbn [map concat]. rewrite IH; auto.
  intros k' t Hk'. apply H. now right.
Qed.

Lemma replace_go_plain old new c t :
  c <> 36%N ->
  Str.replace_go (36%N :: old) new 0 (c :: t) =
  c :: Str.replace_go (36%N :: old) new 0 t.
Proof.
  intros Hc. cbn [Str.replace_go Str.starts_with].
  apply N.eqb_neq in Hc. rewrite N.eqb_sym in Hc. now rewrite Hc.
Qed.

Lemma replace_book v l :
  Forall ok l ->
  Str.replace (py "$BOOK$") v (flat l) = concat (map (fill_book_token v) l).
Proof.
  intros Hl. apply replace_flat. intros k t Hk.
  rewrite Forall_forall in Hl. apply Hl in Hk.
  destruct k as [c| |]; cbn [spell fill_book_token].
  - now apply replace_go_plain.
  - change (book_token ++ t) with (py "$BOOK$" ++ 46%N :: t).
    erewrite StrFacts.replace_go_hit by reflexivity.
    rewrite <- app_assoc. f_equal.
  - now rewrite StrFacts.replace_go_pass by reflexivity.
Qed.

Lemma replace_chap w l :
  Forall ok_chap l ->
  Str.replace (py "$CHAP$") w (flat l) = concat (map (fill_chap_token w) l).
Proof.
  intros Hl. apply replace_flat. intros k t Hk.
  rewrite Forall_forall in Hl. apply Hl in Hk. destruct Hk as [Hk Hb].
  destruct k as [c| |]; cbn [spell fill_chap_token]; [|congruence|].
  - now apply replace_go_plain.
  - change (chap_token ++ t) with (py "$CHAP$" ++ 46%N :: t).
    erewrite StrFacts.replace_go_hit by reflexivity.
    rewrite <- app_assoc. f_equal.
Qed.

Lemma book_filled_flat v l :
  flat (book_filled v l) = concat (map (fill_book_token v) l).
Proof.
  induction l as [|k l IH]; auto.
  cbn [book_filled flat_map map concat]. rewrite flat_app.
  fold (book_filled v l). rewrite IH. f_equal.
  destruct k; cbn [fill_book_token]; [reflexivity| |reflexivity].
  apply flat_plain.
Qed.

Lemma book_filled_ok v l :
  dollar_free v = true -> Forall ok l -> Forall ok_chap (book_filled v l).
Proof.
  intros Hv Hl. apply dollar_free_all in Hv.
  induction Hl as [|k l Hk _ IH]; [constructor|].
  cbn [book_filled flat_map]. apply Forall_app. split; auto.
  destruct k as [c| |].
  - constructor; [split; [exact Hk|discriminate]|constructor].
  - apply Forall_forall. intros k Hk'. apply in_map_iff in Hk'.
    destruct Hk' as (c & <- & Hc). split; [|discriminate].
    apply in_app_or in Hc. rewrite Forall_forall in Hv.
    destruct Hc as [Hc|[<-|[]]]; simpl; auto. discriminate.
  - constructor; [split; [exact I|discriminate]|constructor].
Qed.

Lemma chap_filled_all w l :
  dollar_free w = true -> Forall ok_chap l ->
  Forall (fun c => c <> 36%N) (concat (map (fill_chap_token w) l)).
Proof.
  intros Hw Hl. apply dollar_free_all in Hw.
  induction Hl as [|k l [Hk Hb] _ IH]; [constructor|].
  cbn [map concat]. apply Forall_app. split; auto.
  destruct k as [c| |]; cbn [fill_chap_token spell].
  - now constructor.
  - congruence.
  - apply Forall_app. split; auto. repeat constructor. discriminate.
Qed.

(** *** The loops of [process_osisIDs] *)

Lemma fill_chapter_resolved l :
  Forall ok_chap l -> resolvable_chapter (flat l) = true ->
  Forall (fun c => c <> 36%N) (fill_chapter (flat l)).
Proof.
  intros Hl. unfold resolvable_chapter, fill_chapter.
  destruct (search re_chap_value (flat l)) as [m|].
  - intros Hw. rewrite replace_chap by exact Hl.
    now apply chap_filled_all.
  - apply dollar_free_all.
Qed.

Lemma fill_book_resolved l :
  Forall ok l -> resolvable_book (flat l) = true ->
  Forall (fun c => c <> 36%N) (fill_book (flat l)).
Proof.
  intros Hl. unfold resolvable_book, fill_book.
  destruct (search re_book_value (flat l)) as [m|];
    [|apply dollar_free_all].
  cbv zeta. intros H. apply andb_prop in H. destruct H as [Hv Hc].
  rewrite collect. cbn [app].
  rewrite (replace_book _ _ Hl) in *.
  rewrite <- book_filled_flat in *.
  destruct (split_flat 64977 ok_chap (book_filled (grp m 1) l) eq_refl
                       (book_filled_ok _ _ Hv Hl)) as (ls & E & Hls).
  rewrite E in *. rewrite forallb_forall in Hc.
  apply Forall_concat. rewrite map_map. apply Forall_map.
  apply Forall_forall. intros lc Hlc.
  apply fill_chapter_resolved.
  - rewrite Forall_forall in Hls. auto.
  - apply Hc. now apply in_map.
Qed.

Lemma fill_resolved osis :
  well_formed osis = true ->
  Forall (fun c => c <> 36%N) (fill_book_and_chapter_values osis).
Proof.
  unfold well_formed. intros H. apply andb_prop in H.
  destruct H as [Hd Hb]. apply disciplined_tokens in Hd.
  destruct Hd as (l & -> & Hl).
  rewrite fill_book_and_chapter_values_chunks.
  destruct (split_flat 64976 ok l eq_refl Hl) as (ls & E & Hls).
  rewrite E in *. rewrite forallb_forall in Hb.
  apply Forall_concat. rewrite map_map. apply Forall_map.
  apply Forall_forall. intros lc Hlc.
  apply fill_book_resolved.
  - rewrite Forall_forall in Hls. auto.
  - apply Hb. now apply in_map.
Qed.

(** *** The cleanup writes no dollar sign *)

Section Preserved.

Variable P : N -> Prop.
Hypothesis P_ascii : forall c, (c < 128)%N -> c <> 36%N -> P c.

Lemma ascii_all s :
  forallb (fun c => N.ltb c 128 && negb (N.eqb c 36)) s = true ->
  Forall P s.
Proof.
  intros H. apply Forall_forall. intros c Hc.
  rewrite forallb_forall in H. apply H in Hc.
  apply andb_prop in Hc. destruct Hc as [H1 H2].
  apply N.ltb_lt in H1. apply negb_true_iff, N.eqb_neq in H2. auto.
Qed.

Lemma sub_expand_kept r t s :
  Forall P t -> Forall P s -> Forall P (Re.sub r (Re.expand t) s).
Proof.
  intros Ht Hs. apply sub_all; auto.
  intros g Hg. apply expand_all; auto. apply P_ascii; [lia|discriminate].
Qed.

Lemma end_blocks_kept l s :
  Forall (Forall P) l -> Forall P s ->
  Forall P
    (fold_left
       (fun osis end_block =>
          let osis :=
            Re.sub (Re.rx (py "\s+</" ++ end_block ++ py ">"))
                   (Re.expand (py "</" ++ end_block ++ raw ">\n")) osis in
          Re.sub (Re.rx (py "\s+<" ++ end_block ++ py "( eID=[^/>]+/>)"))
                 (Re.expand (py "<" ++ end_block ++ raw "\1" ++ py "\n"))
                 osis)
       l s).
Proof.
  intros Hl. revert s.
  induction Hl as [|b l Hb _ IH]; intros s Hs; cbn [fold_left]; auto.
  apply IH. cbv zeta.
  apply sub_expand_kept.
  - apply Forall_app. split; [now apply ascii_all|].
    apply Forall_app. split; [exact Hb|].
    apply Forall_app. split; now apply ascii_all.
  - apply sub_expand_kept; auto.
    apply Forall_app. split; [now apply ascii_all|].
    apply Forall_app. split; [exact Hb|now apply ascii_all].
Qed.

Lemma deletions_kept l s :
  Forall P s ->
  Forall P (fold_left (fun osis c => Str.replace [c] [] osis) l s).
Proof.
  revert s. induction l as [|c l IH]; intros s Hs; cbn [fold_left]; auto.
  apply IH. apply StrFacts.replace_all; auto.
Qed.

Lemma osis_reorder_and_cleanup_kept osis :
  Forall P osis -> Forall P (osis_reorder_and_cleanup osis).
Proof.
  intros H. unfold osis_reorder_and_cleanup. cbv zeta.
  do 3 (apply sub_expand_kept; [now apply ascii_all|]).
  apply end_blocks_kept.
  { unfold end_blocks.
    repeat (apply Forall_cons; [now apply ascii_all|]).
    apply Forall_nil. }
  apply deletions_kept.
  apply StrFacts.replace_all; [now apply ascii_all|].
  do 7 (apply sub_expand_kept; [now apply ascii_all|]).
  exact H.
Qed.

End Preserved.

Lemma lower_dollar s :
  Forall (fun c => c <> 36%N) s -> Forall (fun c => c <> 36%N) (Str.lower s).
Proof.
  intros H. unfold Str.lower. apply Forall_map.
  eapply Forall_impl; [|exact H].
  intros c Hc. unfold Str.lower_char.
  destruct (N.leb 65 c && N.leb c 90)%bool eqn:E; auto.
  apply andb_prop in E. destruct E as [E _]. apply N.leb_le in E. lia.
Qed.

Lemma retype_special_books_dollar SPECIAL_BOOKS osis :
  Forall (fun c => c <> 36%N) osis ->
  Forall (fun c => c <> 36%N) (retype_special_books SPECIAL_BOOKS osis).
Proof.
  unfold retype_special_books. revert osis.
  induction SPECIAL_BOOKS as [|sb l IH]; intros osis H; cbn [fold_left];
    auto.
  apply IH. destruct (dollar_free sb) eqn:Esb.
  - apply dollar_free_all in Esb. apply StrFacts.replace_all; auto.
    apply Forall_app. split; [now apply dollar_free_all|].
    apply Forall_app. split; [now apply lower_dollar|].
    now apply dollar_free_all.
  - rewrite StrFacts.replace_absent; auto.
    destruct (Str.contains _ osis) eqn:E; auto.
    assert (Hd : exists c, In c sb /\ c = 36%N).
    { unfold dollar_free in Esb.
      destruct (forallb_forall (fun c => negb (N.eqb c 36)) sb) as [_ Hf].
      destruct (existsb (N.eqb 36) sb) eqn:Ex.
      - apply existsb_exists in Ex. destruct Ex as (c & Hc & Ec).
        apply N.eqb_eq in Ec. eauto.
      - rewrite Hf in Esb; [discriminate|]. intros c Hc.
        apply negb_true_iff, N.eqb_neq. intros ->.
        assert (existsb (N.eqb 36) sb = true)
          by (apply existsb_exists; exists 36%N; split;
              auto using N.eqb_refl).
        congruence. }
    destruct Hd as (c & Hc & ->).
    assert (Hin : In 36%N osis).
    { eapply MarkerFacts.contains_In; [exact E|].
      apply in_or_app. right. apply in_or_app. now left. }
    rewrite Forall_forall in H. now apply H in Hin.
Qed.

Lemma absent_char old c s :
  In c old -> Forall (fun d => d <> c) s -> Str.contains old s = false.
Proof.
  intros Hc Hs. destruct (Str.contains old s) eqn:E; auto.
  apply (MarkerFacts.contains_In _ _ c) in E; auto.
  rewrite Forall_forall in Hs. now apply Hs in E.
Qed.

End PlaceholderFacts.

(** C2, as the code has it.  [process_osisIDs] always returns; it puts the
    chunks together again, each as [fill_book] leaves it, and a book chunk
    in which no book element is found is left as it is.  When every dollar
    sign of the text that the two expansions give belongs to a placeholder
    [$BOOK$.] or [$CHAP$.], and each chunk that has a dollar sign has its
    book element, respectively its chapter element, with an identifier free
    of dollar signs, then no dollar sign, and so neither [$BOOK$] nor
    [$CHAP$], is left after the pass, nor in what [ConvertToOSIS]
    returns. *)
Theorem placeholder_resolution (SPECIAL_BOOKS : list text) (osis : text) :
  (exists out, Convert.process_osisIDs osis = Some out) /\
  (forall t, Convert.fill_book_and_chapter_values t =
             concat (map Convert.fill_book (Str.split 64976 t))) /\
  (forall bc, Re.search Convert.re_book_value bc = None ->
              Convert.fill_book bc = bc) /\
  (forall expanded,
      Convert.expand_ranges_and_series osis = Some expanded ->
      Placeholders.well_formed expanded = true ->
      exists mid out,
        Convert.process_osisIDs osis = Some mid /\
        Forall (fun c => c <> 36%N) mid /\
        Str.contains (Lit.py "$BOOK$") mid = false /\
        Str.contains (Lit.py "$CHAP$") mid = false /\
        Convert.finish SPECIAL_BOOKS osis = Some out /\
        Forall (fun c => c <> 36%N) out /\
        Str.contains (Lit.py "$BOOK$") out = false /\
        Str.contains (Lit.py "$CHAP$") out = false).
Proof.
  split; [apply MarkerFacts.process_osisIDs_returns|].
  split; [apply PlaceholderFacts.fill_book_and_chapter_values_chunks|].
  split.
  { intros bc H. unfold Convert.fill_book. now rewrite H. }
  intros expanded He Hw.
  pose proof (PlaceholderFacts.fill_resolved _ Hw) as Hmid.
  assert (Hout : Forall (fun c => c <> 36%N)
                        (Convert.retype_special_books SPECIAL_BOOKS
                           (Convert.osis_reorder_and_cleanup
                              (Convert.fill_book_and_chapter_values
                                 expanded)))).
  { apply PlaceholderFacts.retype_special_books_dollar.
    apply PlaceholderFacts.osis_reorder_and_cleanup_kept; auto. }
  unfold Convert.finish, Convert.process_osisIDs. rewrite He. simpl.
  do 2 eexists. split; [reflexivity|]. split; [exact Hmid|].
  split; [apply (PlaceholderFacts.absent_char _ 36%N); simpl; auto|].
  split; [apply (PlaceholderFacts.absent_char _ 36%N); simpl; auto|].
  split; [reflexivity|]. split; [exact Hout|].
  split; apply (PlaceholderFacts.absent_char _ 36%N); simpl; auto.
Qed.

Lemma placeholder_resolution_witness :
  exists mid out,
    Convert.process_osisIDs
      (Lit.py "<div type='book' osisID='Gen'>\uFDD1<chapter osisID='$BOOK$.2'/><verse osisID='$BOOK$.$CHAP$.5-7'/>") =
    Some mid /\
    Forall (fun c => c <> 36%N) mid /\
    Str.contains (Lit.py "$BOOK$") mid = false /\
    Str.contains (Lit.py "$CHAP$") mid = false /\
    Convert.finish []
      (Lit.py "<div type='book' osisID='Gen'>\uFDD1<chapter osisID='$BOOK$.2'/><verse osisID='$BOOK$.$CHAP$.5-7'/>") =
    Some out /\
    Forall (fun c => c <> 36%N) out /\
    Str.contains (Lit.py "$BOOK$") out = false /\
    Str.contains (Lit.py "$CHAP$") out = false.
Proof.
  destruct (placeholder_resolution []
              (Lit.py "<div type='book' osisID='Gen'>\uFDD1<chapter osisID='$BOOK$.2'/><verse osisID='$BOOK$.$CHAP$.5-7'/>"))
    as (_ & _ & _ & H).
  apply (H (Lit.py "<div type='book' osisID='Gen'>\uFDD1<chapter osisID='$BOOK$.2'/><verse osisID='$BOOK$.$CHAP$.5 $BOOK$.$CHAP$.6 $BOOK$.$CHAP$.7'/>"));
    reflexivity.
Defined.

(** A text in which the book chunk has its book element and the chapter
    chunk its chapter element, and that leaves the pass, and
    [ConvertToOSIS], with a placeholder: the number of the chapter is the
    placeholder. *)
Lemma placeholder_left :
  Str.split 64976 (Lit.py "<div type='book' osisID='Gen'><chapter osisID='Gen.$CHAP$'/>") =
  [Lit.py "<div type='book' osisID='Gen'><chapter osisID='Gen.$CHAP$'/>"] /\
  Str.split 64977 (Lit.py "<div type='book' osisID='Gen'><chapter osisID='Gen.$CHAP$'/>") =
  [Lit.py "<div type='book' osisID='Gen'><chapter osisID='Gen.$CHAP$'/>"] /\
  option_map (fun m => Convert.grp m 1)
    (Re.search Convert.re_book_value
       (Lit.py "<div type='book' osisID='Gen'><chapter osisID='Gen.$CHAP$'/>")) =
  Some (Lit.py "Gen") /\
  option_map (fun m => Convert.grp m 1)
    (Re.search Convert.re_chap_value
       (Lit.py "<div type='book' osisID='Gen'><chapter osisID='Gen.$CHAP$'/>")) =
  Some (Lit.py "$CHAP$") /\
  Convert.process_osisIDs
    (Lit.py "<div type='book' osisID='Gen'><chapter osisID='Gen.$CHAP$'/>") =
  Some (Lit.py "<div type='book' osisID='Gen'><chapter osisID='Gen.$CHAP$'/>") /\
  Convert.finish []
    (Lit.py "<div type='book' osisID='Gen'><chapter osisID='Gen.$CHAP$'/>") =
  Some (Lit.py "<div type='book' osisID='Gen'><chapter osisID='Gen.$CHAP$'/>") /\
  Str.contains (Lit.py "$CHAP$")
    (Lit.py "<div type='book' osisID='Gen'><chapter osisID='Gen.$CHAP$'/>") =
  true.
Proof. repeat split; vm_compute; reflexivity. Qed.

(** ** An empty chapter *)

Module ChapterFacts.

Import Lit Re ReSpec ReFacts Convert Chapters.

(** *** More equations of the matcher *)





(** Every text begins with a longest run of characters of a class. *)
Lemma longest_run (p : N -> bool) s :
  exists ds t, s = ds ++ t /\ Forall (fun c => p c = true) ds /\ stops p t.
Proof.
  induction s as [|c s (ds & t & -> & Hds & Ht)].
  - exists [], []. repeat split; constructor.
  - destruct (p c) eqn:E.
    + exists (c :: ds), t. repeat split; auto.
    + exists [], (c :: ds ++ t). repeat split; auto.
Qed.





(** *** Digits *)









(** *** The chapter pattern on an empty chapter *)



(** *** The chapter span pattern on the milestones of an empty chapter *)


(** The literals of the goal, spelled out. *)
Ltac literals :=
  repeat match goal with
         | |- context [py ?s] =>
             let v := eval vm_compute in (py s) in
             replace (py s) with v by (vm_compute; reflexivity)
         | |- context [raw ?s] =>
             let v := eval vm_compute in (raw s) in
             replace (raw s) with v by (vm_compute; reflexivity)
         end.







(** *** Substitution over a text read piece by piece *)



(** *** The stage on an empty chapter *)


Section EmptyChapter.

Variables (P : text) (c : N) (d : text).
Hypothesis digits_n : digits (c :: d).
Hypothesis P_c : StrSpec.clash_all (raw "\c") P = true.
Hypothesis P_v : StrSpec.clash_all (raw "\v") P = true.
Hypothesis P_chapter : StrSpec.clash_all (py "<chapter ") P = true.
Hypothesis P_verse : StrSpec.clash_all (py "<verse ") P = true.








End EmptyChapter.

End ChapterFacts.




(** ** Instances *)

Lemma key_canon_sort_witness :
  exists out,
    Sort.sorted_partial
      Sort.position_lt
      (Sort.key_canon
         [(Lit.py "01-GEN.usfm", Lit.py "Gen");
          (Lit.py "02-EXO.usfm", Lit.py "Exod");
          (Lit.py "41-MAT.usfm", Lit.py "Matt")]
         [Lit.py "Gen"; Lit.py "Exod"; Lit.py "Matt"])
      [Lit.py "41-MAT.usfm"; Lit.py "notes.txt"; Lit.py "02-EXO.usfm";
       Lit.py "cover.txt"; Lit.py "01-GEN.usfm"] = Some out /\
    out = [Lit.py "01-GEN.usfm"; Lit.py "02-EXO.usfm"; Lit.py "41-MAT.usfm";
           Lit.py "notes.txt"; Lit.py "cover.txt"].
Proof.
  assert (H : forall f book,
             Str.dict_get
               [(Lit.py "01-GEN.usfm", Lit.py "Gen");
                (Lit.py "02-EXO.usfm", Lit.py "Exod");
                (Lit.py "41-MAT.usfm", Lit.py "Matt")] f = Some book ->
             In book [Lit.py "Gen"; Lit.py "Exod"; Lit.py "Matt"]).
  { intros f book. cbn [Str.dict_get].
    repeat match goal with
           | |- context [Str.eqb ?a f] => destruct (Str.eqb a f)
           end;
      intros E; try discriminate; injection E as <-; simpl; auto. }
  destruct (key_canon_sort
              [(Lit.py "01-GEN.usfm", Lit.py "Gen");
               (Lit.py "02-EXO.usfm", Lit.py "Exod");
               (Lit.py "41-MAT.usfm", Lit.py "Matt")]
              [Lit.py "Gen"; Lit.py "Exod"; Lit.py "Matt"] H
              [Lit.py "41-MAT.usfm"; Lit.py "notes.txt"; Lit.py "02-EXO.usfm";
               Lit.py "cover.txt"; Lit.py "01-GEN.usfm"])
    as (out & Hout & _).
  exists out. split; [exact Hout|].
  vm_compute in Hout. injection Hout as <-. vm_compute. reflexivity.
Defined.



(** * Further properties *)

Module StableFacts.

Import Lit Sort SortFacts CanonFacts.

Section Stable.

Context {A K : Type} (lt : K -> K -> bool) (P : K * A -> bool).

(** The elements that [x] passes on its way in do not satisfy [P] when [x]
    does. *)
Hypothesis passes :
  forall x y, P x = true -> lt (fst y) (fst x) = true -> P y = false.

Lemma insert_filter x l :
  filter P (insert lt x l) = if P x then x :: filter P l else filter P l.
Proof.
  induction l as [|y l IH]; simpl; [reflexivity|].
  destruct (lt (fst y) (fst x)) eqn:E; simpl.
  - rewrite IH. destruct (P x) eqn:Ex; [|reflexivity].
    now rewrite (passes x y Ex E).
  - reflexivity.
Qed.

Lemma sort_keyed_filter l : filter P (sort_keyed lt l) = filter P l.
Proof.
  induction l as [|x l IH]; simpl; [reflexivity|].
  rewrite insert_filter, IH. reflexivity.
Qed.

End Stable.

Lemma position_eqb_eq a b : position_eqb a b = true <-> a = b.
Proof.
  destruct a as [x|], b as [y|]; simpl; split; try congruence.
  - intros H. apply Nat.eqb_eq in H. now subst.
  - intros H. injection H as ->. apply Nat.eqb_refl.
Qed.

Lemma position_lt_irrefl a : position_lt a a = false.
Proof. destruct a; simpl; auto. apply Nat.ltb_irrefl. Qed.

Lemma keyed_map key k (kl : list (position * text)) :
  Forall (fun ka => key (snd ka) = Some (fst ka)) kl ->
  keyed key k (map snd kl) =
  map snd (filter (fun y => position_eqb (fst y) k) kl).
Proof.
  unfold keyed.
  induction 1 as [|[k' a] kl Hk _ IH]; simpl; [reflexivity|].
  simpl in Hk. rewrite Hk, IH.
  now destruct (position_eqb k' k).
Qed.

Lemma index_none l x : Str.index l x = None <-> ~ In x l.
Proof.
  induction l as [|y l IH]; simpl; [tauto|].
  unfold Str.eqb. destruct (list_eq_dec N.eq_dec y x) as [e|n].
  - split; [discriminate|]. intros H. elim H. now left.
  - destruct (Str.index l x); simpl.
    + split; [discriminate|]. intros H.
      assert (Hn : ~ In x l) by tauto. apply IH in Hn. discriminate.
    + split; auto. intros _ [H|H]; [congruence|]. tauto.
Qed.

Lemma keys_of_none {A K : Type} (key : A -> option K) l :
  keys_of key l = None <-> exists a, In a l /\ key a = None.
Proof.
  induction l as [|a l IH]; simpl.
  - split; [discriminate|]. intros (a & [] & _).
  - destruct (key a) as [k|] eqn:E.
    + destruct (keys_of key l); simpl.
      * split; [discriminate|]. intros (b & [<-|Hb] & Hn); [congruence|].
        assert (H : @None (list (K * A)) = None) by reflexivity.
        destruct IH as [_ IH]. discriminate IH. eauto.
      * split; auto. intros _. destruct IH as [IH _].
        destruct (IH eq_refl) as (b & Hb & Hn). eauto.
    + split; auto. intros _. exists a. auto.
Qed.

Lemma key_canon_none F order f :
  key_canon F order f = None <->
  exists book, Str.dict_get F f = Some book /\ ~ In book order.
Proof.
  unfold key_canon. destruct (Str.dict_get F f) as [book|].
  - destruct (Str.index order book) eqn:E; simpl.
    + split; [discriminate|]. intros (b & Hb & Hn). injection Hb as <-.
      apply index_none in Hn. congruence.
    + split; auto. intros _. exists book. split; auto.
      now apply index_none.
  - split; [discriminate|]. intros (b & Hb & _). discriminate.
Qed.

End StableFacts.

Section UsfmOrder.

Import Lit Sort SortFacts CanonFacts StableFacts.

Variable FILENAME_TO_OSIS : list (text * text).
Variable USFM_NUMERIC_ORDER : list text.

(** Every book of the file-name table has a USFM number. *)
Hypothesis books_numbered :
  forall f book,
    Str.dict_get FILENAME_TO_OSIS f = Some book ->
    In book USFM_NUMERIC_ORDER.

(** Sorting file names with [key_usfm] is a stable sort by USFM book
    number: the result is a rearrangement of the input in which the keys
    never decrease, and the files that have the same key, among them the
    unknown ones with the key infinity, keep the order in which they were
    supplied. *)
Theorem key_usfm_stable_sort (files : list text) :
  exists out,
    sorted_partial position_lt
      (key_usfm FILENAME_TO_OSIS USFM_NUMERIC_ORDER) files = Some out /\
    Permutation files out /\
    StronglySorted
      (key_le (key_usfm FILENAME_TO_OSIS USFM_NUMERIC_ORDER)) out /\
    forall k,
      keyed (key_usfm FILENAME_TO_OSIS USFM_NUMERIC_ORDER) k out =
      keyed (key_usfm FILENAME_TO_OSIS USFM_NUMERIC_ORDER) k files.
Proof.
  set (key := key_usfm FILENAME_TO_OSIS USFM_NUMERIC_ORDER).
  assert (Htot : forall a, In a files -> key a <> None).
  { intros a _. exact (key_total _ _ books_numbered a). }
  destruct (keys_of_total key files Htot) as (kl & Hkl & Hsnd & Hkeys).
  exists (map snd (sort_keyed position_lt kl)).
  unfold sorted_partial. rewrite Hkl. simpl.
  assert (Hk : Forall (fun ka => key (snd ka) = Some (fst ka))
                      (sort_keyed position_lt kl)).
  { rewrite Forall_forall in *. intros y Hy. apply Hkeys.
    eapply Permutation_in; [apply Permutation_sym, sort_keyed_perm|].
    exact Hy. }
  split; [reflexivity|]. split; [|split].
  - rewrite <- Hsnd at 1. apply Permutation_map, sort_keyed_perm.
  - pose proof (sort_keyed_sorted position_lt (A:=text)
                  position_lt_le position_le_trans kl) as Hs.
    induction Hs as [|y l Hs IH Hy]; simpl; constructor.
    + apply IH. now inversion Hk.
    + inversion Hk as [|? ? Hy0 Hl]; subst.
      rewrite Forall_forall in *. intros z Hz.
      apply in_map_iff in Hz. destruct Hz as (w & <- & Hw).
      exists (fst y), (fst w). repeat split; auto.
      now apply Hy.
  - intros k. rewrite <- Hsnd.
    rewrite !keyed_map by assumption. f_equal.
    apply sort_keyed_filter.
    intros x y Hx Hlt. apply position_eqb_eq in Hx.
    destruct (position_eqb (fst y) k) eqn:Ey; [|reflexivity].
    apply position_eqb_eq in Ey. rewrite Hx, Ey in Hlt.
    now rewrite position_lt_irrefl in Hlt.
Qed.

End UsfmOrder.

Lemma key_usfm_stable_sort_witness :
  exists out,
    Sort.sorted_partial Sort.position_lt
      (Sort.key_usfm
         [(Lit.py "a-GEN.usfm", Lit.py "Gen");
          (Lit.py "b-GEN.usfm", Lit.py "Gen");
          (Lit.py "MAT.usfm", Lit.py "Matt")]
         [Lit.py "Gen"; Lit.py "Matt"])
      [Lit.py "MAT.usfm"; Lit.py "b-GEN.usfm"; Lit.py "x.txt";
       Lit.py "a-GEN.usfm"] = Some out /\
    out = [Lit.py "b-GEN.usfm"; Lit.py "a-GEN.usfm"; Lit.py "MAT.usfm";
           Lit.py "x.txt"].
Proof.
  assert (H : forall f book,
             Str.dict_get
               [(Lit.py "a-GEN.usfm", Lit.py "Gen");
                (Lit.py "b-GEN.usfm", Lit.py "Gen");
                (Lit.py "MAT.usfm", Lit.py "Matt")] f = Some book ->
             In book [Lit.py "Gen"; Lit.py "Matt"]).
  { intros f book. cbn [Str.dict_get].
    repeat match goal with
           | |- context [Str.eqb ?a f] => destruct (Str.eqb a f)
           end;
      intros E; try discriminate; injection E as <-; simpl; auto. }
  destruct (key_usfm_stable_sort
              [(Lit.py "a-GEN.usfm", Lit.py "Gen");
               (Lit.py "b-GEN.usfm", Lit.py "Gen");
               (Lit.py "MAT.usfm", Lit.py "Matt")]
              [Lit.py "Gen"; Lit.py "Matt"] H
              [Lit.py "MAT.usfm"; Lit.py "b-GEN.usfm"; Lit.py "x.txt";
               Lit.py "a-GEN.usfm"])
    as (out & Hout & _).
  exists out. split; [exact Hout|].
  vm_compute in Hout. injection Hout as <-. vm_compute. reflexivity.
Defined.

Section Unlisted.

Import Lit Sort SortFacts CanonFacts StableFacts.

(** Sorting with [key_canon] or with [key_usfm] raises exactly when a file
    is supplied whose book is in the file-name table and missing from the
    sequence the key looks it up in; a file that is not in the table never
    makes it raise. *)
Theorem sorting_raises_on_unlisted_book
        (FILENAME_TO_OSIS : list (text * text))
        (CANONICAL_ORDER USFM_NUMERIC_ORDER files : list text) :
  (sorted_partial position_lt
     (key_canon FILENAME_TO_OSIS CANONICAL_ORDER) files = None <->
   unlisted FILENAME_TO_OSIS CANONICAL_ORDER files) /\
  (sorted_partial position_lt
     (key_usfm FILENAME_TO_OSIS USFM_NUMERIC_ORDER) files = None <->
   unlisted FILENAME_TO_OSIS USFM_NUMERIC_ORDER files).
Proof.
  assert (H : forall order,
             sorted_partial position_lt
               (key_canon FILENAME_TO_OSIS order) files = None <->
             unlisted FILENAME_TO_OSIS order files).
  { intros order. unfold sorted_partial, unlisted.
    destruct (keys_of (key_canon FILENAME_TO_OSIS order) files) eqn:E;
      simpl.
    - split; [discriminate|]. intros (f & book & Hf & Hb & Hn).
      assert (Hnone : keys_of (key_canon FILENAME_TO_OSIS order) files
                      = None).
      { apply keys_of_none. exists f. split; auto.
        apply key_canon_none. eauto. }
      congruence.
    - split; auto. intros _. apply keys_of_none in E.
      destruct E as (f & Hf & Hn). apply key_canon_none in Hn.
      destruct Hn as (book & Hb & Hn). eauto. }
  split; [apply H|apply (H USFM_NUMERIC_ORDER)].
Qed.

End Unlisted.

Module NumeralFacts.

Import Lit Sort NaturalFacts.













End NumeralFacts.

Section NaturalOrder.

Import Lit Sort NaturalFacts NumeralFacts.




End NaturalOrder.

Module ShiftFacts.

Import Re ReSpec ReFacts Shifts.

Section Shift.

Variable d : nat.








End Shift.





(** *** Patterns that begin with a character *)





Lemma needs_blind r :
  forall l, needs r l = true -> l <> [] -> blind r = true.
Proof.
  induction r; intros l Hn Hl; destruct l as [|x l']; try congruence;
    cbn [needs] in Hn; try discriminate; cbn [blind]; auto.
  - destruct r1; try (apply (IHr1 (x :: l')); [exact Hn|discriminate]).
    reflexivity.
  - apply andb_prop in Hn. destruct Hn as [H1 H2].
    rewrite (IHr1 (x :: l')), (IHr2 (x :: l')); auto; discriminate.
  - apply (IHr (x :: l')); [exact Hn|discriminate].
Qed.

Lemma sub_written r repl s :
  sub r repl s = flat_map (written s repl) (scan r s).
Proof. reflexivity. Qed.

Lemma expand_cons c t1 g :
  expand (c :: t1) g =
  if N.eqb c 92 then
    match t1 with
    | e :: t2 =>
        if is_digit e then
          match g (N.to_nat (e - 48)) with
          | Some x => x ++ expand t2 g
          | None => expand t2 g
          end
        else if N.eqb e 92 then 92%N :: expand t2 g
        else if N.eqb e 110 then 10%N :: expand t2 g
        else c :: expand t1 g
    | [] => [c]
    end
  else c :: expand t1 g.
Proof. reflexivity. Qed.


(** *** Parts of the subject in which the pattern cannot begin *)

Lemma clash_unmatched r l Q :
  needs r l = true -> StrSpec.clash l Q = true -> unmatched r Q.
Proof.
  intros Hn Hc t p pv. unfold match_at.
  destruct (run r Some (mk_state p pv (Q ++ t) [])) as [res|] eqn:E;
    [|reflexivity].
  apply (needs_sound r l _ _ _ Hn) in E. cbn [rest] in E.
  now rewrite (StrFacts.clash_starts l Q Hc t) in E.
Qed.

Lemma clash_all_unmatched r l Q :
  needs r l = true -> StrSpec.clash_all l Q = true -> unmatched_all r Q.
Proof.
  intros Hn. induction Q as [|c Q IH]; cbn [StrSpec.clash_all unmatched_all];
    [auto|].
  intros H. apply andb_prop in H. destruct H as [H1 H2].
  split; [now apply (clash_unmatched r l)|auto].
Qed.

Lemma unmatched_more r Q Q' : unmatched r Q -> unmatched r (Q ++ Q').
Proof. intros H t p pv. rewrite <- app_assoc. apply H. Qed.

Lemma unmatched_all_app r Q Q' :
  unmatched_all r Q -> unmatched_all r Q' -> unmatched_all r (Q ++ Q').
Proof.
  intros HQ HQ'. induction Q as [|c Q IH]; cbn [app unmatched_all]; auto.
  destruct HQ as [H1 H2]. split; auto.
  apply (unmatched_more r (c :: Q) Q' H1).
Qed.




End ShiftFacts.

Module PairFacts.

Import Lit Re ReSpec ReFacts Shifts ShiftFacts Chapters ChapterFacts.
Import Convert Pairs.









(** *** Templates *)

Lemma expand_plain a t g :
  Forall (fun y => y <> 92%N) a -> expand (a ++ t) g = a ++ expand t g.
Proof.
  induction 1 as [|c a Hc _ IH]; [reflexivity|].
  cbn [app]. rewrite expand_cons.
  apply N.eqb_neq in Hc. rewrite Hc. now rewrite IH.
Qed.

Lemma expand_constant a g : Forall (fun y => y <> 92%N) a -> expand a g = a.
Proof.
  intros H. rewrite <- (app_nil_r a) at 1. rewrite expand_plain by exact H.
  cbn [expand]. apply app_nil_r.
Qed.


(** *** A stage on a pair of directives *)


Lemma run_steps_cons s l osis :
  run_steps (s :: l) osis = run_steps l (run_step osis s).
Proof. reflexivity. Qed.




(** *** Where the steps of a stage cannot begin *)

Lemma pair_unmatched tag c Q :
  in_cls false [Space] c = false ->
  unmatched (pair_rx tag) (tag ++ c :: Q).
Proof.
  intros H t p pv. unfold match_at, pair_rx.
  rewrite <- app_assoc, run_lit, !run_seq, run_cls.
  now rewrite (eat_cons_no _ _ c (Q ++ t)).
Qed.



Ltac clash_piece :=
  first [ apply StrFacts.clash_all_other; assumption
        | solve [vm_compute; reflexivity] ].

Ltac clash_pieces :=
  repeat (apply StrFacts.clash_all_app; [clash_piece|]); clash_piece.

(** The pattern [r] begins with a literal that is nowhere in the goal's
    text. *)
Ltac apart_by_literal :=
  match goal with
  | |- unmatched_all ?r _ =>
      let l := eval vm_compute in (fst (split_lit r)) in
      apply (clash_all_unmatched r l); [reflexivity|clash_pieces]
  end.

(** No match begins at one place of a piece that is spelled out: the
    literal of the pattern is not there, or it is there and no white space
    follows it. *)
Ltac apart_here :=
  match goal with
  | |- True => exact I
  | |- unmatched ?r ?Q =>
      let l := eval vm_compute in (fst (split_lit r)) in
      first [ apply (clash_unmatched r l);
              [reflexivity|vm_compute; reflexivity]
            | let rest := eval vm_compute in (skipn (length l) Q) in
              match rest with
              | ?c :: ?Q' => exact (pair_unmatched l c Q' eq_refl)
              end ]
  end.

Ltac apart_piece :=
  first [ apart_by_literal
        | cbn [unmatched_all]; repeat split; apart_here ].

Ltac apart :=
  first [ apart_by_literal
        | literals;
          repeat (apply unmatched_all_app; [apart_piece|]); apart_piece ].





Lemma cvt_character_styling_steps osis relaxed_conformance :
  cvt_character_styling osis relaxed_conformance =
  run_steps character_styling_steps osis.
Proof.
  unfold cvt_character_styling, run_steps, character_styling_steps.
  cbn [fold_left]. unfold run_step. cbn [fst snd]. reflexivity.
Qed.

Lemma cvt_special_text_steps osis relaxed_conformance :
  cvt_special_text osis relaxed_conformance =
  run_steps (special_text_steps relaxed_conformance) osis.
Proof.
  unfold cvt_special_text, run_steps, special_text_steps.
  destruct relaxed_conformance; cbn [fold_left app]; unfold run_step;
    cbn [fst snd]; reflexivity.
Qed.

End PairFacts.

Section CharacterStyles.

Import Lit Re ReSpec ReFacts Shifts ShiftFacts Convert Pairs.
Import ChapterFacts PairFacts.










End CharacterStyles.

Section DescendingRange.

Import Lit Convert OsisIDs Expansion.



End DescendingRange.

Module EntityFacts.

Import Lit Re ReSpec ReFacts Convert Entities.

Lemma replace_go_char c new s :
  Str.replace_go [c] new 0 s =
  flat_map (fun x => if N.eqb c x then new else [x]) s.
Proof.
  induction s as [|x s IH]; [reflexivity|].
  cbn [Str.replace_go Str.starts_with flat_map length Nat.sub].
  rewrite andb_true_r. destruct (N.eqb c x); now rewrite IH.
Qed.

Lemma replace_char c new s :
  Str.replace [c] new s =
  flat_map (fun x => if N.eqb c x then new else [x]) s.
Proof. apply replace_go_char. Qed.

Lemma flat_map_flat_map {A B C : Type} (f : A -> list B) (g : B -> list C) l :
  flat_map g (flat_map f l) = flat_map (fun x => flat_map g (f x)) l.
Proof.
  induction l as [|x l IH]; [reflexivity|].
  cbn [flat_map]. now rewrite flat_map_app, IH.
Qed.

Lemma escapes s :
  Str.replace (py ">") (py "&gt;")
    (Str.replace (py "<") (py "&lt;") (Str.replace (py "&") (py "&amp;") s)) =
  flat_map escape_char s.
Proof.
  change (py ">") with [62%N]. change (py "<") with [60%N].
  change (py "&") with [38%N].
  rewrite !replace_char, !flat_map_flat_map.
  apply flat_map_ext. intros x.
  destruct (N.eq_dec x 38) as [->|H1]; [vm_compute; reflexivity|].
  destruct (N.eq_dec x 60) as [->|H2]; [vm_compute; reflexivity|].
  destruct (N.eq_dec x 62) as [->|H3]; [vm_compute; reflexivity|].
  unfold escape_char.
  assert (E1 : N.eqb 38 x = false) by (apply N.eqb_neq; congruence).
  assert (E2 : N.eqb 60 x = false) by (apply N.eqb_neq; congruence).
  assert (E3 : N.eqb 62 x = false) by (apply N.eqb_neq; congruence).
  rewrite E1. cbn [flat_map app]. rewrite E2. cbn [flat_map app].
  rewrite E3. cbn [app].
  apply N.eqb_neq in H1, H2, H3. now rewrite H1, H2, H3.
Qed.

Lemma escaped_flat_map s : escaped (flat_map escape_char s) = true.
Proof.
  induction s as [|x s IH]; [reflexivity|].
  cbn [flat_map]. unfold escape_char at 1.
  destruct (N.eqb x 38) eqn:E1;
    [|destruct (N.eqb x 60) eqn:E2; [|destruct (N.eqb x 62) eqn:E3]].
  - change (py "&amp;") with [38%N; 97%N; 109%N; 112%N; 59%N].
    cbn [app escaped N.eqb Pos.eqb negb andb orb Str.starts_with].
    change (py "amp;") with [97%N; 109%N; 112%N; 59%N].
    cbn [Str.starts_with N.eqb Pos.eqb andb orb]. exact IH.
  - change (py "&lt;") with [38%N; 108%N; 116%N; 59%N].
    cbn [app escaped N.eqb Pos.eqb negb andb orb].
    change (py "amp;") with [97%N; 109%N; 112%N; 59%N].
    change (py "lt;") with [108%N; 116%N; 59%N].
    cbn [Str.starts_with N.eqb Pos.eqb andb orb]. exact IH.
  - change (py "&gt;") with [38%N; 103%N; 116%N; 59%N].
    cbn [app escaped N.eqb Pos.eqb negb andb orb].
    change (py "amp;") with [97%N; 109%N; 112%N; 59%N].
    change (py "lt;") with [108%N; 116%N; 59%N].
    change (py "gt;") with [103%N; 116%N; 59%N].
    cbn [Str.starts_with N.eqb Pos.eqb andb orb]. exact IH.
  - cbn [app escaped]. now rewrite E1, E2, E3, IH.
Qed.

Lemma flat_map_all {A : Type} (P : A -> Prop) (f : A -> list A) l :
  (forall x, P x -> Forall P (f x)) -> Forall P l -> Forall P (flat_map f l).
Proof.
  intros Hf. induction 1 as [|x l Hx _ IH]; [constructor|].
  cbn [flat_map]. apply Forall_app. auto.
Qed.

Lemma carriage_returns_replaced s :
  Forall (fun c => c <> 13%N) (Str.replace (py "\r") (py "\n") s).
Proof.
  change (py "\r") with [13%N]. rewrite replace_char.
  induction s as [|x s IH]; [constructor|].
  cbn [flat_map]. apply Forall_app. split; [|exact IH].
  destruct (N.eqb 13 x) eqn:E.
  - vm_compute. repeat constructor; discriminate.
  - apply N.eqb_neq in E. repeat constructor. congruence.
Qed.

End EntityFacts.

Module LineFacts.

Import Lit Re ReSpec ReFacts Shifts ShiftFacts Convert Entities.
Import ChapterFacts PairFacts Pairs EntityFacts.








End LineFacts.

Section Preprocessing.

Import Lit Re ReSpec ReFacts Shifts ShiftFacts Convert Pairs.
Import Entities EntityFacts.

(** The text that [cvt_preprocess] returns has no [<] and no [>], each of
    its ampersands begins one of the entities [&amp;], [&lt;] and [&gt;],
    and it has no carriage return. *)
Theorem preprocess_escapes (osis : text) (relaxed_conformance : bool) :
  escaped (cvt_preprocess osis relaxed_conformance) = true /\
  Forall (fun c => c <> 13%N) (cvt_preprocess osis relaxed_conformance).
Proof.
  unfold cvt_preprocess. cbv zeta. split.
  - rewrite escapes. apply escaped_flat_map.
  - repeat apply StrFacts.replace_all;
      try (vm_compute; repeat constructor; discriminate).
    apply sub_all; [apply carriage_returns_replaced|].
    intros g Hg. apply expand_all; auto; [discriminate|].
    vm_compute. repeat constructor; discriminate.
Qed.



End Preprocessing.

Module CleanupFacts.

Import Lit Re ReSpec ReFacts Shifts ShiftFacts Convert Cleanup.
Import ChapterFacts PairFacts.

Lemma run_star_chr g c k ds t st :
  Forall (fun x => N.eqb c x = true) ds ->
  stops (N.eqb c) t -> rest st = ds ++ t ->
  run (Star g (Chr c)) k st =
  if g then greedy_over k ds t st else lazy_over k ds t st.
Proof.
  intros Hds Ht E. simpl.
  change (fun (k0 : cont) (st0 : state) => eat (N.eqb c) k0 st0)
    with (eat (N.eqb c)).
  apply star_loop_over; auto.
  rewrite E, length_app. lia.
Qed.

Lemma constant_sub r w s :
  Forall (fun y => y <> 92%N) w ->
  sub r (expand w) s = flat_map (constant_written w) (scan r s).
Proof.
  intros Hw. rewrite sub_written. apply flat_map_ext.
  intros [c|m]; [reflexivity|]. cbn [written constant_written].
  now apply expand_constant.
Qed.

(** *** Runs of spaces *)

Lemma spaces_match ds t p pv :
  Forall (fun x => N.eqb 32 x = true) ds -> stops (N.eqb 32) t ->
  exists st',
    match_at re_spaces p pv ((32%N :: 32%N :: ds) ++ t) = Some st' /\
    pos st' = p + length (32%N :: 32%N :: ds).
Proof.
  intros Hds Ht. unfold match_at, re_spaces. cbn [app].
  rewrite run_seq. erewrite run_chr_cons by reflexivity.
  rewrite run_seq. erewrite run_chr_cons by reflexivity.
  rewrite (run_star_chr true 32 _ ds t); [|exact Hds|exact Ht|reflexivity].
  eexists. split.
  - apply greedy_over_all; reflexivity.
  - cbn [pos after length]. lia.
Qed.

Lemma spaces_no_match c s p pv :
  c <> 32%N \/ Str.starts_with [32%N] s = false ->
  match_at re_spaces p pv (c :: s) = None.
Proof.
  intros H. unfold match_at, re_spaces. rewrite run_seq, run_chr.
  destruct (N.eqb 32 c) eqn:Ec.
  - apply N.eqb_eq in Ec. subst c.
    destruct H as [H|H]; [congruence|].
    erewrite eat_cons by (reflexivity || apply N.eqb_refl).
    rewrite run_seq, run_chr.
    destruct s as [|d s]; [reflexivity|].
    cbn [Str.starts_with] in H. rewrite andb_true_r in H.
    now apply (eat_cons_no _ _ d s).
  - now apply (eat_cons_no _ _ c s).
Qed.

Lemma starts_with_one c s :
  Str.starts_with [c] s = true -> exists s', s = c :: s'.
Proof.
  destruct s as [|d s]; [discriminate|]. cbn [Str.starts_with].
  rewrite andb_true_r. intros H. apply N.eqb_eq in H. subst. eauto.
Qed.

Lemma double_cons c d o :
  Str.contains [c; c] (d :: o) =
  (N.eqb c d && Str.starts_with [c] o) || Str.contains [c; c] o.
Proof.
  cbn [Str.contains Str.starts_with]. destruct o as [|e o].
  - cbn [Str.starts_with]. now rewrite !andb_false_r.
  - cbn [Str.starts_with]. reflexivity.
Qed.

Lemma squeezed_miss c s p pv :
  match_at re_spaces p pv (c :: s) = None ->
  squeezed p pv (c :: s) = c :: squeezed (S p) (Some c) s.
Proof. intros H. unfold squeezed. now rewrite scan_go_miss. Qed.

Lemma squeezed_hit u t p pv st' :
  u <> [] -> match_at re_spaces p pv (u ++ t) = Some st' ->
  pos st' = p + length u ->
  squeezed p pv (u ++ t) =
  32%N :: squeezed (p + length u) (prev_after u pv) t.
Proof.
  intros Hu Hm Hpos. unfold squeezed.
  now rewrite (scan_go_hit_app re_spaces u t p pv st' Hu Hm Hpos).
Qed.

Lemma squeezed_nil p pv : squeezed p pv [] = [].
Proof.
  unfold squeezed. cbn [scan_go].
  unfold match_at, re_spaces. rewrite run_seq, run_chr.
  now rewrite eat_nil.
Qed.

(** The text written has no two spaces in a row, and begins with a space
    only if the text read does. *)
Lemma squeezed_single n :
  forall s, length s <= n ->
  forall p pv,
    Str.contains (py "  ") (squeezed p pv s) = false /\
    (Str.starts_with (py " ") (squeezed p pv s) = true ->
     Str.starts_with (py " ") s = true).
Proof.
  change (py "  ") with [32%N; 32%N]. change (py " ") with [32%N].
  induction n as [|n IH]; intros s Hn p pv.
  - destruct s; [|simpl in Hn; lia]. rewrite squeezed_nil. split; auto.
  - destruct s as [|c s].
    { apply (IH []); simpl; lia. }
    cbn [length] in Hn.
    destruct (N.eq_dec c 32) as [->|Hc].
    + destruct (Str.starts_with [32%N] s) eqn:Es.
      * (* a run of two spaces or more *)
        apply starts_with_one in Es. destruct Es as (s' & ->).
        destruct (longest_run (N.eqb 32) s') as (ds & t & -> & Hds & Ht).
        destruct (spaces_match ds t p pv Hds Ht) as (st' & Hm & Hpos).
        change (32%N :: 32%N :: ds ++ t) with ((32%N :: 32%N :: ds) ++ t).
        rewrite (squeezed_hit (32%N :: 32%N :: ds) t p pv st');
          [|discriminate|exact Hm|exact Hpos].
        destruct (IH t) with (p := p + length (32%N :: 32%N :: ds))
                             (pv := prev_after (32%N :: 32%N :: ds) pv)
          as [H1 H2].
        { cbn [length app] in Hn. rewrite length_app in Hn. lia. }
        split; [|reflexivity].
        rewrite double_cons, H1, orb_false_r. cbn [N.eqb Pos.eqb andb].
        destruct (Str.starts_with [32%N]
                    (squeezed (p + length (32%N :: 32%N :: ds))
                              (prev_after (32%N :: 32%N :: ds) pv) t))
          eqn:E; [|reflexivity].
        specialize (H2 eq_refl). apply starts_with_one in H2.
        destruct H2 as (t' & ->).
        cbn [stops] in Ht. discriminate.
      * (* one space *)
        rewrite squeezed_miss by (apply spaces_no_match; now right).
        destruct (IH s) with (p := S p) (pv := Some 32%N) as [H1 H2];
          [lia|].
        split; [|reflexivity].
        rewrite double_cons, H1, orb_false_r. cbn [N.eqb Pos.eqb andb].
        destruct (Str.starts_with [32%N] (squeezed (S p) (Some 32%N) s))
          eqn:E; [|reflexivity].
        specialize (H2 eq_refl). congruence.
    + rewrite squeezed_miss by (apply spaces_no_match; now left).
      destruct (IH s) with (p := S p) (pv := Some c) as [H1 H2]; [lia|].
      assert (Ec : N.eqb 32 c = false) by (apply N.eqb_neq; congruence).
      split.
      * now rewrite double_cons, H1, Ec.
      * cbn [Str.starts_with]. now rewrite Ec.
Qed.

(** *** Blank lines *)

Lemma blank_lines_span p pv s st' :
  match_at re_blank_lines p pv s = Some st' ->
  exists u t, u <> [] /\ s = u ++ t /\ pos st' = p + length u.
Proof.
  unfold match_at. intros H.
  apply run_sound in H. destruct H as (st1 & Hsem & E).
  injection E as ->.
  destruct (sem_consumes _ _ _ Hsem) as (u & Hu & Hpos).
  cbn [rest pos] in Hu, Hpos. exists u, (rest st'). repeat split; auto.
  unfold re_blank_lines in Hsem.
  apply sem_seq_inv in Hsem. destruct Hsem as (s1 & H1 & H2).
  apply sem_seq_inv in H2. destruct H2 as (s2 & H2 & H3).
  apply sem_consumes in H1. destruct H1 as (u1 & _ & P1).
  apply sem_chr_inv in H2. destruct H2 as (t2 & _ & ->).
  apply sem_consumes in H3. destruct H3 as (u3 & _ & P3).
  cbn [pos after length] in P1, P3.
  intros ->. cbn [length] in Hpos. lia.
Qed.

Lemma unblanked_miss c s p pv :
  match_at re_blank_lines p pv (c :: s) = None ->
  unblanked p pv (c :: s) = c :: unblanked (S p) (Some c) s.
Proof. intros H. unfold unblanked. now rewrite scan_go_miss. Qed.

Lemma unblanked_hit u t p pv st' :
  u <> [] -> match_at re_blank_lines p pv (u ++ t) = Some st' ->
  pos st' = p + length u ->
  unblanked p pv (u ++ t) =
  10%N :: unblanked (p + length u) (prev_after u pv) t.
Proof.
  intros Hu Hm Hpos. unfold unblanked.
  now rewrite (scan_go_hit_app re_blank_lines u t p pv st' Hu Hm Hpos).
Qed.

Lemma double_after c u t :
  Str.contains [c; c] (u ++ t) = false -> Str.contains [c; c] t = false.
Proof.
  induction u as [|d u IH]; [auto|]. cbn [app]. rewrite double_cons.
  intros H. apply orb_false_elim in H. now apply IH.
Qed.

(** Replacing the blank lines brings no two spaces together. *)
Lemma unblanked_single n :
  forall s, length s <= n ->
  forall p pv,
    Str.contains (py "  ") s = false ->
    Str.contains (py "  ") (unblanked p pv s) = false /\
    (Str.starts_with (py " ") (unblanked p pv s) = true ->
     Str.starts_with (py " ") s = true).
Proof.
  change (py "  ") with [32%N; 32%N]. change (py " ") with [32%N].
  induction n as [|n IH]; intros s Hn p pv Hs.
  - destruct s; [|simpl in Hn; lia].
    unfold unblanked. cbn [scan_go].
    destruct (match_at re_blank_lines p pv []) eqn:E; [|split; auto].
    apply blank_lines_span in E. destruct E as (u & t & Hu & E & _).
    symmetry in E. apply app_eq_nil in E. tauto.
  - destruct s as [|c s].
    { apply (IH []); auto. simpl; lia. }
    cbn [length] in Hn.
    destruct (match_at re_blank_lines p pv (c :: s)) as [st'|] eqn:Em.
    + destruct (blank_lines_span _ _ _ _ Em) as (u & t & Hu & E & Hpos).
      rewrite E in Em |- *.
      rewrite (unblanked_hit u t p pv st' Hu Em Hpos).
      destruct (IH t) with (p := p + length u) (pv := prev_after u pv)
        as [H1 H2].
      { apply (f_equal (@length N)) in E.
        rewrite length_app in E. cbn [length] in E.
        destruct u; [congruence|]. cbn [length] in E. lia. }
      { rewrite E in Hs. now apply double_after in Hs. }
      split; [|discriminate].
      now rewrite double_cons, H1.
    + rewrite unblanked_miss by exact Em.
      rewrite double_cons in Hs. apply orb_false_elim in Hs.
      destruct Hs as [Hc Hs].
      destruct (IH s) with (p := S p) (pv := Some c) as [H1 H2];
        [lia|exact Hs|].
      split.
      * rewrite double_cons, H1, orb_false_r.
        destruct (N.eqb 32 c); [|reflexivity]. cbn [andb] in Hc |- *.
        destruct (Str.starts_with [32%N] (unblanked (S p) (Some c) s));
          [|reflexivity].
        specialize (H2 eq_refl). congruence.
      * cbn [Str.starts_with]. now rewrite andb_true_r.
Qed.

End CleanupFacts.

(** The output of [osis_reorder_and_cleanup] has no two spaces in a row,
    whatever the text it is given. *)
Theorem cleanup_single_spaces (osis : text) :
  Str.contains (Lit.py "  ") (Convert.osis_reorder_and_cleanup osis) = false.
Proof.
  unfold Convert.osis_reorder_and_cleanup. cbv zeta.
  match goal with
  | |- context [Re.sub Convert.re_spaces _ ?x] => generalize x
  end.
  intros s.
  rewrite !CleanupFacts.constant_sub by (repeat constructor; discriminate).
  unfold Re.scan.
  apply (CleanupFacts.unblanked_single _ _ (le_n _)).
  apply (CleanupFacts.squeezed_single _ _ (le_n _)).
Qed.

Module FeatureFacts.

Import Lit Re ReSpec ReFacts Shifts ShiftFacts Chapters ChapterFacts.
Import Convert Pairs PairFacts Features.

(** *** Patterns that cannot match in a text *)

Lemma starts_contains l s :
  Str.starts_with l s = true -> Str.contains l s = true.
Proof. intros H. destruct s; cbn [Str.contains]; now rewrite H. Qed.

Lemma contains_after l u s :
  Str.contains l s = true -> Str.contains l (u ++ s) = true.
Proof.
  intros H. induction u as [|c u IH]; [exact H|].
  cbn [app Str.contains]. rewrite IH. apply orb_true_r.
Qed.

Lemma spells_sound r :
  forall l k st res,
    spells r l = true -> run r k st = Some res ->
    Str.contains l (rest st) = true.
Proof.
  induction r as [|c|d|neg items|a IHa b IHb|a IHa b IHb|g a IHa|n a IHa
                  |positive a IHa| |]; intros l k st res Hs Hr;
    cbn [spells] in Hs; apply orb_prop in Hs;
    (destruct Hs as [Hs|Hs];
     [apply starts_contains; now apply (needs_sound _ _ _ _ _ Hs Hr)|]);
    try discriminate.
  - apply orb_prop in Hs. destruct Hs as [Hs|Hs].
    + rewrite run_seq in Hr. now apply (IHa l _ _ _ Hs Hr).
    + rewrite run_seq in Hr. apply run_sound in Hr.
      destruct Hr as (st' & Hsem & Hk).
      apply sem_consumes in Hsem. destruct Hsem as (u & -> & _).
      apply contains_after. now apply (IHb l _ _ _ Hs Hk).
  - apply andb_prop in Hs. destruct Hs as [Ha Hb].
    rewrite run_alt in Hr. apply orelse_some in Hr.
    destruct Hr as [Hr|[_ Hr]].
    + now apply (IHa l _ _ _ Ha Hr).
    + now apply (IHb l _ _ _ Hb Hr).
  - rewrite run_group in Hr. now apply (IHa l _ _ _ Hs Hr).
Qed.

Lemma idle_without r l s :
  spells r l = true -> Str.contains l s = false -> idle r s.
Proof.
  intros Hs Hc n p pv. unfold match_at.
  destruct (run r Some (mk_state p pv (skipn n s) [])) as [res|] eqn:E; auto.
  apply (spells_sound _ _ _ _ _ Hs) in E. cbn [rest] in E.
  apply (StrFacts.contains_skipn _ _ n) in Hc. congruence.
Qed.

Lemma plain_without l s :
  Forall (fun y => y <> 92%N) s -> Str.contains (92%N :: l) s = false.
Proof.
  induction 1 as [|c s Hc _ IH]; [reflexivity|].
  cbn [Str.contains Str.starts_with]. rewrite IH.
  apply N.eqb_neq in Hc. rewrite N.eqb_sym in Hc. now rewrite Hc.
Qed.

Lemma sub_idle r repl s : idle r s -> sub r repl s = s.
Proof.
  intros H. unfold sub, scan. rewrite (scan_go_no_match r s H).
  apply keep_all.
Qed.

Lemma run_steps_idle l s :
  Forall (fun x : step => idle (fst x) s) l -> run_steps l s = s.
Proof.
  induction 1 as [|x l Hx _ IH]; [reflexivity|].
  rewrite run_steps_cons. unfold run_step. now rewrite (sub_idle _ _ _ Hx).
Qed.

(** The steps of a stage whose patterns all read a backslash leave a text
    without a backslash as it is. *)
Lemma run_steps_plain l s :
  Forall (fun x : step => spells (fst x) [92%N] = true) l ->
  Forall (fun y => y <> 92%N) s -> run_steps l s = s.
Proof.
  intros Hl Hs. apply run_steps_idle.
  eapply Forall_impl; [|exact Hl]. intros x Hx.
  apply (idle_without _ [92%N]); [exact Hx|now apply plain_without].
Qed.

Lemma cvt_special_features_steps osis relaxed_conformance :
  cvt_special_features osis relaxed_conformance =
  run_steps (special_features_steps relaxed_conformance) osis.
Proof.
  unfold cvt_special_features, run_steps, special_features_steps.
  destruct relaxed_conformance; cbn [fold_left app]; unfold run_step;
    cbn [fst snd]; reflexivity.
Qed.

Lemma special_features_spell relaxed_conformance :
  Forall (fun x : step => spells (fst x) [92%N] = true)
         (special_features_steps relaxed_conformance).
Proof.
  destruct relaxed_conformance; repeat constructor.
Qed.

(** *** Figures *)













End FeatureFacts.

Module IndexFacts.

Import Lit Re ReSpec ReFacts Shifts ShiftFacts Chapters ChapterFacts.
Import Convert Pairs PairFacts Features FeatureFacts Entities.

















End IndexFacts.

Section Indexes.

Import Lit Re ReSpec ReFacts Shifts ShiftFacts Convert Pairs.
Import ChapterFacts PairFacts Features FeatureFacts IndexFacts Entities.




End Indexes.

Section Figures.

Import Lit Re ReSpec ReFacts Shifts ShiftFacts Convert Pairs.
Import ChapterFacts PairFacts Features FeatureFacts.



End Figures.

Module PeripheralFacts.

Import Lit Re ReSpec ReFacts Shifts ShiftFacts Chapters ChapterFacts.
Import Convert Pairs PairFacts Features FeatureFacts IndexFacts.
Import Peripherals.








End PeripheralFacts.

Section PeripheralDivisions.

Import Lit Re ReSpec ReFacts Shifts ShiftFacts Convert Pairs.
Import ChapterFacts PairFacts Features FeatureFacts IndexFacts.
Import Peripherals PeripheralFacts.

Variables PERIPHERALS INTRO_PERIPHERALS : list (text * text).


End PeripheralDivisions.

Section PeripheralExample.

Import Lit Convert Features.


End PeripheralExample.

Module IdentificationFacts.

Import Lit Re ReSpec ReFacts Shifts ShiftFacts Chapters ChapterFacts.
Import Convert Pairs PairFacts Features FeatureFacts IndexFacts.
Import Peripherals PeripheralFacts Identification.













End IdentificationFacts.

Section BookDivision.

Import Lit Re ReSpec ReFacts Shifts ShiftFacts Convert Pairs.
Import ChapterFacts PairFacts Features FeatureFacts IndexFacts.
Import Identification IdentificationFacts.

Variable BOOK_DICT : list (text * text).





End BookDivision.

Section BookDivisionExample.

Import Lit Re Convert Pairs Identification ChapterFacts.


End BookDivisionExample.

Section PlainText.

Import Lit Re ReSpec ReFacts Shifts ShiftFacts Convert Pairs.
Import ChapterFacts PairFacts Features FeatureFacts IndexFacts.

Variable BOOK_DICT : list (text * text).

(** A text without a backslash has no directive: the stages of special
    text, of character styling, of special features and of identification
    return it as it is, and the last one does not raise. *)
Theorem text_without_backslash_kept (t : text) (relaxed_conformance : bool) :
  Forall (fun y => y <> 92%N) t ->
  cvt_special_text t relaxed_conformance = t /\
  cvt_character_styling t relaxed_conformance = t /\
  cvt_special_features t relaxed_conformance = t /\
  cvt_identification BOOK_DICT t relaxed_conformance = Some t.
Proof.
  intros Ht.
  assert (Hidle : forall r, spells r [92%N] = true -> idle r t).
  { intros r Hr. apply (idle_without r [92%N] t Hr).
    now apply plain_without. }
  repeat split.
  - rewrite cvt_special_text_steps. apply run_steps_plain; [|exact Ht].
    destruct relaxed_conformance; repeat constructor.
  - rewrite cvt_character_styling_steps. apply run_steps_plain; [|exact Ht].
    repeat constructor.
  - rewrite cvt_special_features_steps. apply run_steps_plain; [|exact Ht].
    apply special_features_spell.
  - unfold cvt_identification.
    rewrite (sub_partial_absent re_id [92%N]);
      [|reflexivity|now apply plain_without].
    cbn [bind]. cbv zeta.
    rewrite (sub_idle re_ide _ t) by (now apply Hidle).
    rewrite (sub_idle re_sts _ t) by (now apply Hidle).
    rewrite (sub_idle re_rem _ t) by (now apply Hidle).
    destruct relaxed_conformance;
      rewrite ?(sub_idle re_restore _ t) by (now apply Hidle);
      rewrite (sub_idle re_h _ t) by (now apply Hidle);
      rewrite (sub_idle re_h_n _ t) by (now apply Hidle);
      rewrite (sub_idle re_toc1 _ t) by (now apply Hidle);
      rewrite (sub_idle re_toc2 _ t) by (now apply Hidle);
      rewrite (sub_idle re_toc3 _ t) by (now apply Hidle);
      reflexivity.
Qed.

End PlainText.

Section PlainTextExample.

Import Lit Convert.

Lemma text_without_backslash_kept_witness :
  cvt_special_text (py "In the beginning") false = py "In the beginning" /\
  cvt_character_styling (py "In the beginning") false =
  py "In the beginning" /\
  cvt_special_features (py "In the beginning") false =
  py "In the beginning" /\
  cvt_identification [] (py "In the beginning") false =
  Some (py "In the beginning").
Proof.
  apply (text_without_backslash_kept [] (py "In the beginning") false).
  vm_compute. repeat constructor; discriminate.
Defined.

End PlainTextExample.
